(** * school_project: the Express server of the school web site

    A shallow embedding of [server.js] (settings store, carousel store,
    session gate, contact form dispatcher) and the properties of its
    HTTP handlers.

    Conventions of the embedding
    - A JavaScript string is the byte string ([string]) of its UTF-8 text;
      a lone surrogate, which has no UTF-8 form, is written as the three
      bytes the same encoding would give it, and makes the string ill
      formed.  A Number is an integer-valued double, written as the
      integer ([Z]) of its decimal literal: ids, status codes, display
      orders, and the numbers of a request body that have no fraction.
    - A request is matched to its handler as Express does with the
      settings of the application: the case of the letters is ignored, one
      slash may end the path, and the [:id] of a route is decoded before
      the handler sees it.
    - The relational store, the session store and the blob store are
      explicit state ([World]); every call that leaves the process (a SQL
      statement, a blob request, a session-store request, a mail) is
      appended to a trace and may fail, as decided by an oracle of the
      environment ([fault]).
    - Built-ins of the platform whose code is not part of the repository
      ([JSON.stringify], [JSON.parse], [bcrypt.compare], the parameter
      conversion of node-postgres, [path.extname], [path.basename]) are
      the methods of the class [Platform].
    - The code that runs once at start-up (the CORS origin check, the seed
      of the administrator in [initializeDatabase]) is embedded as functions
      of the environment and of the tables. *)

From Stdlib Require Import ZArith String Ascii List Permutation Sorted Lia.
From stdpp Require Import base option list gmap strings pretty fin_maps.

Local Open Scope Z_scope.

(** ** JavaScript values and the built-ins the handlers use *)

Module Js.

(** The values of a request body and of an answer.  [VObj props] lists the
    own properties of an object, each name once, in the order in which
    [Object.entries] enumerates them. *)
#[warnings="-register-all"]
Inductive jsval : Type :=
| VUndefined
| VNull
| VBool (b : bool)
| VNum (n : Z)
| VStr (s : string)
| VArr (elems : list jsval)
| VObj (props : list (string * jsval)).

(** ToBoolean: [if (v)], [!v], [v || w]. *)
Definition truthy (v : jsval) : bool :=
  match v with
  | VUndefined | VNull => false
  | VBool b => b
  | VNum n => negb (n =? 0)
  | VStr s => negb (String.eqb s "")
  | VArr _ | VObj _ => true
  end.

(** [v || w] *)
Definition or_else (v w : jsval) : jsval := if truthy v then v else w.

(** [typeof v === 'object'] (true of [null], arrays and objects). *)
Definition typeof_object (v : jsval) : bool :=
  match v with
  | VNull | VArr _ | VObj _ => true
  | _ => false
  end.

Definition is_null (v : jsval) : bool :=
  match v with VNull => true | _ => false end.

(** [sep.join(parts)] on strings. *)
Fixpoint join (sep : string) (parts : list string) : string :=
  match parts with
  | [] => ""
  | [p] => p
  | p :: rest => p +:+ sep +:+ join sep rest
  end.

(** [o[k]] / [o.k] on an own property; [undefined] when there is none. *)
Fixpoint assoc (k : string) (props : list (string * jsval)) : option jsval :=
  match props with
  | [] => None
  | (k', v) :: rest => if String.eqb k' k then Some v else assoc k rest
  end.

(** *** Numbers

    A Number is written [VNum n] for a decimal integer [n] and is the double
    nearest to [n], ties going to the even mantissa; up to 2^53 every
    integer is a double. *)
Definition round_to_double (a : Z) : Z :=
  let q := Z.log2 a - 52 in
  if q <=? 0 then a
  else
    let m := Z.shiftr a q in
    let r := a - Z.shiftl m q in
    let half := Z.shiftl 1 (q - 1) in
    Z.shiftl (if (half <? r) || ((r =? half) && Z.odd m) then m + 1 else m) q.

(** The integer [c] is read back as the double [x] (for 2^53 <= x): it lies
    between the midpoints to the neighbours of [x], the midpoints included
    when the mantissa of [x] is even. *)
Definition denotes (x c : Z) : bool :=
  let q := Z.log2 x - 52 in
  let m := Z.shiftr x q in
  let above := Z.shiftl 1 q in
  let below := if m =? 2 ^ 52 then Z.shiftl 1 (q - 1) else above in
  if Z.even m
  then (2 * x - below <=? 2 * c) && (2 * c <=? 2 * x + above)
  else (2 * x - below <? 2 * c) && (2 * c <? 2 * x + above).

(** The multiple of the largest power of ten (from [unit] down) that
    denotes [x]: the digits Number::toString prints, the nearest to [x]
    where two multiples qualify. *)
Fixpoint shortest (fuel : nat) (unit : Z) (x : Z) : Z :=
  match fuel with
  | O => x
  | S fuel' =>
      let lower := x / unit * unit in
      let upper := lower + unit in
      let pick :=
        match denotes x lower, denotes x upper with
        | true, true =>
            if x - lower <? upper - x then Some lower
            else if upper - x <? x - lower then Some upper
            else Some (if Z.even (x / unit) then lower else upper)
        | true, false => Some lower
        | false, true => Some upper
        | false, false => None
        end in
      match pick with
      | Some c => c
      | None => if unit <=? 1 then x else shortest fuel' (unit / 10) x
      end
  end.

Fixpoint strip_zeros (digits : list ascii) : list ascii :=
  match digits with
  | "0"%char :: rest => strip_zeros rest
  | _ => digits
  end.

Definition significant (digits : string) : string :=
  string_of_list_ascii (rev (strip_zeros (rev (list_ascii_of_string digits)))).

(** Number::toString on a positive integer: the decimal digits below 2^53
    (where they are the shortest that read back), the shortest digits
    padded with zeros up to 21 digits, the exponent form beyond. *)
Definition positive_toString (x : Z) : string :=
  if x <? 2 ^ 53 then pretty x
  else if 2 ^ 1024 <=? x then "Infinity"
  else
    let digits :=
      pretty (shortest 17 (10 ^ (Z.of_nat (String.length (pretty x)) - 1)) x) in
    if (String.length digits <=? 21)%nat then digits
    else
      match significant digits with
      | String d rest =>
          String d (match rest with EmptyString => "" | _ => "." +:+ rest end)
          +:+ "e+" +:+ pretty (String.length digits - 1)%nat
      | EmptyString => digits
      end.

(** [String(n)] *)
Definition Number_toString (n : Z) : string :=
  if n <? 0 then "-" +:+ positive_toString (round_to_double (- n))
  else positive_toString (round_to_double n).

(** [String(v)], also the conversion inside a template literal.  [None] is
    the TypeError "Cannot convert object to primitive value": an object
    that carries a property [toString] of its own hides
    [Object.prototype.toString], and no value of a request body is
    callable.  An array is joined with [,]: [null] and [undefined] give the
    empty string, every other element is converted in turn. *)
Fixpoint ToString (v : jsval) : option string :=
  match v with
  | VUndefined => Some "undefined"
  | VNull => Some "null"
  | VBool true => Some "true"
  | VBool false => Some "false"
  | VNum n => Some (Number_toString n)
  | VStr s => Some s
  | VArr elems =>
      join "," <$> (fix each (elems : list jsval) : option (list string) :=
                      match elems with
                      | [] => Some []
                      | e :: rest =>
                          text ← match e with
                                 | VUndefined | VNull => Some ""
                                 | _ => ToString e
                                 end;
                          texts ← each rest;
                          Some (text :: texts)
                      end) elems
  | VObj props =>
      match assoc "toString" props with
      | Some _ => None
      | None => Some "[object Object]"
      end
  end.

Definition prop (k : string) (o : jsval) : jsval :=
  match o with
  | VObj props => default VUndefined (assoc k props)
  | _ => VUndefined
  end.

(** [Object.entries(o)]: own properties of an object, index/value pairs
    of an array, nothing for a primitive. *)
Fixpoint index_from (i : nat) (elems : list jsval) : list (string * jsval) :=
  match elems with
  | [] => []
  | e :: rest => (pretty i, e) :: index_from (S i) rest
  end.

Definition Object_entries (o : jsval) : list (string * jsval) :=
  match o with
  | VObj props => props
  | VArr elems => index_from 0 elems
  | _ => []
  end.

(** [s.startsWith(p)] *)
Definition startsWith (s p : string) : bool := String.prefix p s.

(** [s.includes(p)] *)
Fixpoint includes (s p : string) : bool :=
  String.prefix p s ||
  match s with
  | EmptyString => false
  | String _ rest => includes rest p
  end.

Definition is_digit (c : ascii) : bool :=
  let n := nat_of_ascii c in (48 <=? n)%nat && (n <=? 57)%nat.

(** [s.replace(/\D/g, '')] *)
Fixpoint strip_non_digits (s : string) : string :=
  match s with
  | EmptyString => EmptyString
  | String c rest =>
      if is_digit c then String c (strip_non_digits rest)
      else strip_non_digits rest
  end.

(** [/^\d*$/.test(s)] *)
Fixpoint all_digits (s : string) : bool :=
  match s with
  | EmptyString => true
  | String c rest => is_digit c && all_digits rest
  end.

(** [s.replace(/\n/g, by)] *)
Fixpoint replace_newlines (by_ : string) (s : string) : string :=
  match s with
  | EmptyString => EmptyString
  | String c rest =>
      if Ascii.eqb c "010" then by_ +:+ replace_newlines by_ rest
      else String c (replace_newlines by_ rest)
  end.

(** [s.replace(/[^a-zA-Z0-9_.-]/g, '_')] *)
Definition is_filename_char (c : ascii) : bool :=
  let n := nat_of_ascii c in
  ((97 <=? n)%nat && (n <=? 122)%nat) || ((65 <=? n)%nat && (n <=? 90)%nat)
  || is_digit c || Ascii.eqb c "_" || Ascii.eqb c "." || Ascii.eqb c "-".

Fixpoint sanitize (s : string) : string :=
  match s with
  | EmptyString => EmptyString
  | String c rest =>
      String (if is_filename_char c then c else "_"%char) (sanitize rest)
  end.

(** [s.substring(0, n)] *)
Fixpoint take_chars (n : nat) (s : string) : string :=
  match n, s with
  | S n', String c rest => String c (take_chars n' rest)
  | _, _ => EmptyString
  end.

(** *** parseInt(s, 10)

    Leading white space is skipped, one sign is accepted, then the longest
    run of decimal digits is read; [None] is NaN (no digit was found).
    White space is TAB, LF, VT, FF, CR and the space, and in UTF-8 the no-break
    space U+00A0, U+1680, U+2000 to U+200A, U+2028, U+2029, U+202F, U+205F,
    U+3000 and U+FEFF. *)
Definition is_space (c : ascii) : bool :=
  let n := nat_of_ascii c in
  ((9 <=? n)%nat && (n <=? 13)%nat) || (n =? 32)%nat.

Definition is_space2 (c1 c2 : ascii) : bool :=
  (nat_of_ascii c1 =? 194)%nat && (nat_of_ascii c2 =? 160)%nat.

Definition is_space3 (c1 c2 c3 : ascii) : bool :=
  let a := nat_of_ascii c1 in
  let b := nat_of_ascii c2 in
  let c := nat_of_ascii c3 in
  ((a =? 225) && (b =? 154) && (c =? 128))%nat
  || ((a =? 226) && (b =? 128)
      && (((128 <=? c) && (c <=? 138)) || (c =? 168) || (c =? 169) || (c =? 175)))%nat
  || ((a =? 226) && (b =? 129) && (c =? 159))%nat
  || ((a =? 227) && (b =? 128) && (c =? 128))%nat
  || ((a =? 239) && (b =? 187) && (c =? 191))%nat.

Fixpoint skip_spaces (s : string) : string :=
  match s with
  | String c1 rest1 =>
      if is_space c1 then skip_spaces rest1
      else
        match rest1 with
        | String c2 rest2 =>
            if is_space2 c1 c2 then skip_spaces rest2
            else
              match rest2 with
              | String c3 rest3 =>
                  if is_space3 c1 c2 c3 then skip_spaces rest3 else s
              | EmptyString => s
              end
        | EmptyString => s
        end
  | EmptyString => s
  end.

Definition digit_value (c : ascii) : Z := Z.of_nat (nat_of_ascii c) - 48.

Fixpoint read_digits (acc : option Z) (s : string) : option Z :=
  match s with
  | String c rest =>
      if is_digit c
      then read_digits (Some (10 * default 0 acc + digit_value c)) rest
      else acc
  | EmptyString => acc
  end.

Definition parseInt (s : string) : option Z :=
  match skip_spaces s with
  | String "-" rest => Z.opp <$> read_digits None rest
  | String "+" rest => read_digits None rest
  | t => read_digits None t
  end.

(** [isNaN(parseInt(...))] *)
Definition isNaN (n : option Z) : bool :=
  match n with None => true | Some _ => false end.

(** *** UTF-8

    A string is the UTF-8 text of the JavaScript string it stands for.  A
    lone surrogate has no UTF-8 form: a string with one is not well
    formed. *)

(** The ranges of the bytes that have to follow a first byte. *)
Definition utf8_tail (b : nat) : option (list (nat * nat)) :=
  if (b <? 128)%nat then Some []
  else if (b <? 194)%nat then None
  else if (b <? 224)%nat then Some [(128, 191)]%nat
  else if (b =? 224)%nat then Some [(160, 191); (128, 191)]%nat
  else if (b =? 237)%nat then Some [(128, 159); (128, 191)]%nat
  else if (b <? 240)%nat then Some [(128, 191); (128, 191)]%nat
  else if (b =? 240)%nat then Some [(144, 191); (128, 191); (128, 191)]%nat
  else if (b <? 244)%nat then Some [(128, 191); (128, 191); (128, 191)]%nat
  else if (b =? 244)%nat then Some [(128, 143); (128, 191); (128, 191)]%nat
  else None.

Definition in_range (b : nat) (range : nat * nat) : bool :=
  (fst range <=? b)%nat && (b <=? snd range)%nat.

(** [well_formed pending s]: [s] continues a character that still needs
    bytes in the ranges [pending], and is well-formed UTF-8 from there. *)
Fixpoint well_formed (pending : list (nat * nat)) (s : string) : bool :=
  match s with
  | EmptyString => match pending with [] => true | _ => false end
  | String c rest =>
      match pending with
      | range :: more => in_range (nat_of_ascii c) range && well_formed more rest
      | [] =>
          match utf8_tail (nat_of_ascii c) with
          | Some tail => well_formed tail rest
          | None => false
          end
      end
  end.

(** *** encodeURIComponent

    Unreserved characters are kept; every other byte of the UTF-8 text
    becomes [%XX].  [None] is the URIError for a string that is not well
    formed (a lone surrogate). *)
Definition is_uri_unreserved (c : ascii) : bool :=
  let n := nat_of_ascii c in
  ((97 <=? n)%nat && (n <=? 122)%nat) || ((65 <=? n)%nat && (n <=? 90)%nat)
  || is_digit c
  || existsb (Ascii.eqb c)
       ["-"; "_"; "."; "!"; "~"; "*"; "'"; "("; ")"]%char.

Definition hex_digit (n : nat) : ascii :=
  ascii_of_nat (if (n <? 10)%nat then 48 + n else 55 + n)%nat.

Fixpoint percent_encode (s : string) : string :=
  match s with
  | EmptyString => EmptyString
  | String c rest =>
      if is_uri_unreserved c then String c (percent_encode rest)
      else
        let n := nat_of_ascii c in
        String "%" (String (hex_digit (n / 16))
                      (String (hex_digit (n mod 16)) (percent_encode rest)))
  end.

Definition encodeURIComponent (s : string) : option string :=
  if well_formed [] s then Some (percent_encode s) else None.

(** *** decodeURIComponent

    Every [%XX] becomes its byte, every other character is kept.  [None]
    is the URIError: a [%] without two hexadecimal digits, or escaped bytes
    that are not the UTF-8 form of a character (the bytes after the first
    one of a character have to be escaped as well). *)
Definition hex_value (c : ascii) : option nat :=
  let n := nat_of_ascii c in
  if (48 <=? n)%nat && (n <=? 57)%nat then Some (n - 48)%nat
  else if (65 <=? n)%nat && (n <=? 70)%nat then Some (n - 55)%nat
  else if (97 <=? n)%nat && (n <=? 102)%nat then Some (n - 87)%nat
  else None.

Fixpoint percent_decode (pending : list (nat * nat)) (s : string) : option string :=
  match s with
  | EmptyString => match pending with [] => Some "" | _ => None end
  | String c rest =>
      if Ascii.eqb c "%" then
        match rest with
        | String h (String l rest') =>
            match hex_value h, hex_value l with
            | Some high, Some low =>
                let b := (16 * high + low)%nat in
                match pending with
                | range :: more =>
                    if in_range b range
                    then String (ascii_of_nat b) <$> percent_decode more rest'
                    else None
                | [] =>
                    match utf8_tail b with
                    | Some tail => String (ascii_of_nat b) <$> percent_decode tail rest'
                    | None => None
                    end
                end
            | _, _ => None
            end
        | _ => None
        end
      else
        match pending with
        | [] => String c <$> percent_decode [] rest
        | _ => None
        end
  end.

Definition decodeURIComponent (s : string) : option string := percent_decode [] s.

(** [/^[A-Za-z0-9\-_.!~*'()%]*$/.test(s)] *)
Fixpoint uri_safe (s : string) : bool :=
  match s with
  | EmptyString => true
  | String c rest => (is_uri_unreserved c || Ascii.eqb c "%") && uri_safe rest
  end.

End Js.
Export Js.

(** ** The platform outside the repository *)

(** [JSON_parse] answers [None] where [JSON.parse] throws a SyntaxError,
    [bcrypt_compare] answers [None] where [bcrypt.compare] rejects its
    arguments; [pg_text] is the text node-postgres sends for a parameter. *)
Class Platform := {
  JSON_stringify : jsval -> string;
  JSON_parse : string -> option jsval;
  bcrypt_compare : jsval -> string -> option bool;
  pg_text : jsval -> string;
  path_extname : string -> string;
  path_basename : string -> string -> string
}.

(** A thrown (or callback-passed) error: [err.status] and [err.message]. *)
Record JsError := { err_status : option Z; err_message : string }.

Definition new_Error (msg : string) : JsError :=
  {| err_status := None; err_message := msg |}.

(** [err.status === code] *)
Definition status_is (code : Z) (e : JsError) : bool :=
  match err_status e with
  | Some c => c =? code
  | None => false
  end.

(** ** Data model: the three tables of [initializeDatabase] *)

(** carousel_images (id SERIAL PRIMARY KEY, image_url TEXT NOT NULL,
    link_url TEXT, alt_text TEXT, file_name TEXT, display_order INTEGER) *)
Record CarouselImage := {
  id : Z;
  image_url : string;
  link_url : option string;
  alt_text : option string;
  file_name : option string;
  display_order : option Z
}.

(** [settings] maps setting_name (UNIQUE NOT NULL) to setting_value (TEXT,
    nullable); [users] maps username (UNIQUE NOT NULL) to the password
    hash; [carousel_id_seq] is the next value of the SERIAL sequence. *)
Record Tables := {
  settings : gmap string (option string);
  carousel_images : list CarouselImage;
  carousel_id_seq : Z;
  users : gmap string string
}.

(** What the session store keeps under a session id. *)
Record SessionData := {
  sd_authenticated : bool;
  sd_username : option string
}.

(** [req.session] together with [req.sessionID]. *)
Record Session := {
  sessionID : string;
  authenticated : bool;
  username : option string
}.

Inductive stmt :=
| BEGIN
| COMMIT
| ROLLBACK
| SelectSettings
| SelectContactSettings
| UpsertSetting (name value : string)
| SelectCarousel
| InsertCarousel (url : string) (link : option string) (alt file : string)
| SelectImageUrl (image_id : Z)
| DeleteCarouselImage (image_id : Z)
| SelectUser (name : string).

(** Calls that leave the process, in the order they are issued. *)
Inductive event :=
| EConnect
| ERelease
| EQuery (s : stmt)
| EBlobPut (pathname : string)
| EBlobHead (url : string)
| EBlobDel (url : string)
| ESessionDestroy (sid : string)
| ESessionRegenerate (sid : string)
| ESessionSave (sid : string)
| ESendMail (recipient : string).

(** The state the handlers act on.  [db] is the committed database, [txn]
    the working copy of the transaction open on the checked-out client (if
    any), [sessions] the session store, [blobs] the blob store (public URL
    to content). *)
Record World := {
  db : Tables;
  txn : option Tables;
  sessions : gmap string SessionData;
  blobs : gmap string string;
  trace : list event
}.

(** What the environment decides: whether the n-th external call fails and
    how ([fault]), [process.env], whether a mail transporter was configured,
    and the values of [Date.now()], [Math.random()] (already rendered), the
    URL the blob service assigns, and the id of a regenerated session. *)
Record Env := {
  fault : nat -> option JsError;
  process_env : string -> option string;
  mailTransporter : bool;
  Date_now : Z;
  random_token : string;
  blob_url : string -> string;
  fresh_sid : string
}.

(** ** Requests and responses *)

Inductive method := GET | POST | DELETE.

(** The file part of a multipart body, before multer looked at it. *)
Record Upload := {
  fieldname : string;
  originalname : string;
  buffer : string;
  mimetype : string
}.

Record Request := {
  req_method : method;
  originalUrl : string;
  session : option Session;
  body : jsval;
  upload : option Upload
}.

(** What a response carries: a JSON value, a file, a redirect, or the page
    Express writes itself (for a path no route matches, and for an error
    no handler took). *)
Inductive Body :=
| Json (v : jsval)
| SendFile (name : string)
| Redirect (location : string)
| NoRoute
| ErrorPage.

Record Response := {
  status : Z;
  res_body : Body;
  clearCookie : option string
}.

Definition res_json (code : Z) (v : jsval) : Response :=
  {| status := code; res_body := Json v; clearCookie := None |}.

(** [res.redirect(url)] answers 302 whatever [res.status] was set to. *)
Definition res_redirect (url : string) : Response :=
  {| status := 302; res_body := Redirect url; clearCookie := None |}.

Definition res_sendFile (name : string) : Response :=
  {| status := 200; res_body := SendFile name; clearCookie := None |}.

(** ** A state and exception monad for the handlers *)

Inductive Result (A : Type) :=
| Val (a : A)
| Throw (e : JsError).
Arguments Val {A} a.
Arguments Throw {A} e.

Definition M (A : Type) : Type := World -> Result A * World.

Definition ret {A} (a : A) : M A := fun w => (Val a, w).

Definition bind {A B} (m : M A) (k : A -> M B) : M B :=
  fun w => match m w with
           | (Val a, w') => k a w'
           | (Throw e, w') => (Throw e, w')
           end.

Definition throw {A} (e : JsError) : M A := fun w => (Throw e, w).

(** [try { m } catch (e) { h e }] *)
Definition try_catch {A} (m : M A) (h : JsError -> M A) : M A :=
  fun w => match m w with
           | (Val a, w') => (Val a, w')
           | (Throw e, w') => h e w'
           end.

(** [try { m } finally { f }], for an [f] that does not throw. *)
Definition try_finally {A} (m : M A) (f : World -> World) : M A :=
  fun w => let (r, w') := m w in (r, f w').

Declare Scope js_scope.
Delimit Scope js_scope with js.
Notation "x <- m ;; k" := (bind m (fun x => k))
  (at level 100, m at next level, right associativity) : js_scope.
Notation "m ;; k" := (bind m (fun _ => k))
  (at level 100, right associativity) : js_scope.
Local Open Scope js_scope.

(** [for (const x of xs) { await f x }] *)
Fixpoint for_each {A} (xs : list A) (f : A -> M unit) : M unit :=
  match xs with
  | [] => ret tt
  | x :: rest => f x ;; for_each rest f
  end.

Definition log (ev : event) (w : World) : World :=
  {| db := db w; txn := txn w; sessions := sessions w; blobs := blobs w;
     trace := trace w ++ [ev] |}.

Definition set_db (t : Tables) (w : World) : World :=
  {| db := t; txn := txn w; sessions := sessions w; blobs := blobs w;
     trace := trace w |}.

Definition set_txn (t : option Tables) (w : World) : World :=
  {| db := db w; txn := t; sessions := sessions w; blobs := blobs w;
     trace := trace w |}.

Definition set_sessions (s : gmap string SessionData) (w : World) : World :=
  {| db := db w; txn := txn w; sessions := s; blobs := blobs w;
     trace := trace w |}.

Definition set_blobs (b : gmap string string) (w : World) : World :=
  {| db := db w; txn := txn w; sessions := sessions w; blobs := b;
     trace := trace w |}.

(** ** The SQL statements of the handlers, as functions on the tables *)

Module Sql.

Definition set_settings (s : gmap string (option string)) (t : Tables) : Tables :=
  {| settings := s; carousel_images := carousel_images t;
     carousel_id_seq := carousel_id_seq t; users := users t |}.

Definition set_carousel (rows : list CarouselImage) (seq : Z) (t : Tables) : Tables :=
  {| settings := settings t; carousel_images := rows;
     carousel_id_seq := seq; users := users t |}.

(** INTEGER and SERIAL are 32-bit: a value outside the range is an error. *)
Definition INT_MAX : Z := 2147483647.
Definition int4 (n : Z) : bool := (- INT_MAX - 1 <=? n) && (n <=? INT_MAX).

Definition out_of_range : JsError := new_Error "integer out of range".

(** SELECT setting_name, setting_value FROM settings *)
Definition select_settings (t : Tables) : list (string * option string) :=
  map_to_list (settings t).

(** ... WHERE setting_name IN ('contactFormAction', 'schoolContactEmail',
    'adminSchoolWhatsappNumber') *)
Definition contact_keys : list string :=
  ["contactFormAction"; "schoolContactEmail"; "adminSchoolWhatsappNumber"].

Definition select_contact_settings (t : Tables) : list (string * option string) :=
  List.filter (fun row => existsb (String.eqb (fst row)) contact_keys)
              (map_to_list (settings t)).

(** INSERT INTO settings (setting_name, setting_value) VALUES ($1, $2)
    ON CONFLICT (setting_name) DO UPDATE SET setting_value = EXCLUDED.setting_value *)
Definition upsert_setting (name value : string) (t : Tables) : Tables :=
  set_settings (<[name := Some value]> (settings t)) t.

(** ORDER BY display_order ASC, id ASC (NULL sorts last in ascending order). *)
Definition row_leb (a b : CarouselImage) : bool :=
  match display_order a, display_order b with
  | Some x, Some y => (x <? y) || ((x =? y) && (id a <=? id b))
  | Some _, None => true
  | None, Some _ => false
  | None, None => id a <=? id b
  end.

Fixpoint insert_sorted (r : CarouselImage) (rows : list CarouselImage) : list CarouselImage :=
  match rows with
  | [] => [r]
  | r' :: rest => if row_leb r r' then r :: rows else r' :: insert_sorted r rest
  end.

Fixpoint order_by_display (rows : list CarouselImage) : list CarouselImage :=
  match rows with
  | [] => []
  | r :: rest => insert_sorted r (order_by_display rest)
  end.

(** SELECT id, image_url, link_url, alt_text, file_name, display_order
    FROM carousel_images ORDER BY display_order ASC, id ASC *)
Definition select_carousel (t : Tables) : list CarouselImage :=
  order_by_display (carousel_images t).

(** MAX(display_order): NULL on no row, NULLs ignored. *)
Fixpoint max_display_order (rows : list CarouselImage) : option Z :=
  match rows with
  | [] => None
  | r :: rest =>
      match display_order r, max_display_order rest with
      | Some x, Some y => Some (Z.max x y)
      | Some x, None => Some x
      | None, m => m
      end
  end.

(** (SELECT COALESCE(MAX(display_order), 0) + 1 FROM carousel_images) *)
Definition next_display_order (t : Tables) : Z :=
  default 0 (max_display_order (carousel_images t)) + 1.

(** INSERT INTO carousel_images (image_url, link_url, alt_text, file_name,
    display_order) VALUES ($1, $2, $3, $4, (SELECT COALESCE(MAX(display_order),
    0) + 1 FROM carousel_images)) RETURNING *

    The columns of the new row are computed in the order of the table: the
    id is drawn from the sequence first, and a sequence does not give a
    value back, so a statement that fails on the display order has used
    the id up. *)
Definition insert_carousel (url : string) (link : option string) (alt file : string)
    (t : Tables) : Result CarouselImage * Tables :=
  let row := {| id := carousel_id_seq t; image_url := url; link_url := link;
                alt_text := Some alt; file_name := Some file;
                display_order := Some (next_display_order t) |} in
  if int4 (carousel_id_seq t)
  then if int4 (next_display_order t)
       then (Val row,
             set_carousel (carousel_images t ++ [row]) (carousel_id_seq t + 1) t)
       else (Throw out_of_range,
             set_carousel (carousel_images t) (carousel_id_seq t + 1) t)
  else (Throw out_of_range, t).

Definition has_id (image_id : Z) (r : CarouselImage) : bool := id r =? image_id.

(** SELECT image_url FROM carousel_images WHERE id = $1 *)
Definition select_image_url (image_id : Z) (t : Tables) : Result (list string) * Tables :=
  if int4 image_id
  then (Val (List.map image_url (List.filter (has_id image_id) (carousel_images t))), t)
  else (Throw out_of_range, t).

(** DELETE FROM carousel_images WHERE id = $1; the answer is rowCount. *)
Definition delete_carousel_image (image_id : Z) (t : Tables) : Result nat * Tables :=
  if int4 image_id
  then (Val (List.length (List.filter (has_id image_id) (carousel_images t))),
        set_carousel (List.filter (fun r => negb (has_id image_id r)) (carousel_images t))
                     (carousel_id_seq t) t)
  else (Throw out_of_range, t).

(** SELECT * FROM users WHERE username = $1; the rows carry the hash. *)
Definition select_user (name : string) (t : Tables) : list (string * string) :=
  match users t !! name with
  | Some hash => [(name, hash)]
  | None => []
  end.

End Sql.

(** ** The server *)

Definition nl : string := String (ascii_of_nat 10) EmptyString.

Definition jsonKeys : list string :=
  ["socialLinks"; "facilityCards"; "heroGradient"; "aboutGradient";
   "admissionsGradient"; "academicsGradient"; "facilitiesGradient";
   "contactGradient"].

(** [jsonKeys.includes(name)] *)
Definition is_json_key (name : string) : bool := existsb (String.eqb name) jsonKeys.

(** [(row.setting_name === 'facilityCards' ? [] : {})] *)
Definition empty_default (name : string) : jsval :=
  if String.eqb name "facilityCards" then VArr [] else VObj [].

(** [o[k] = v]: an own property is replaced in place or appended; the key
    [__proto__] reaches the prototype setter and creates no own property. *)
Fixpoint assign_own (k : string) (v : jsval) (props : list (string * jsval))
    : list (string * jsval) :=
  match props with
  | [] => [(k, v)]
  | (k', v') :: rest =>
      if String.eqb k' k then (k, v) :: rest else (k', v') :: assign_own k v rest
  end.

Definition assign (k : string) (v : jsval) (props : list (string * jsval))
    : list (string * jsval) :=
  if String.eqb k "__proto__" then props else assign_own k v props.

(** A nullable TEXT column as the driver hands it over. *)
Definition text_value (o : option string) : jsval :=
  match o with Some s => VStr s | None => VNull end.

(** The first operand of [a || b || ...] that is a non-empty string. *)
Fixpoint first_truthy (operands : list (option string)) : option string :=
  match operands with
  | [] => None
  | Some s :: rest => if String.eqb s "" then first_truthy rest else Some s
  | None :: rest => first_truthy rest
  end.

(** [path_of url] is the part of the URL the router matches: up to [?]. *)
Fixpoint path_of (url : string) : string :=
  match url with
  | EmptyString => EmptyString
  | String c rest => if Ascii.eqb c "?" then EmptyString else String c (path_of rest)
  end.

Fixpoint strip_prefix (p s : string) : option string :=
  match p, s with
  | EmptyString, _ => Some s
  | String a p', String b s' => if Ascii.eqb a b then strip_prefix p' s' else None
  | String _ _, EmptyString => None
  end.

(** *** Route matching

    The application sets neither [case sensitive routing] nor [strict
    routing]: Express compiles the route [/api/settings] to the pattern
    [/^\/api\/settings\/?$/i], which ignores the case of the letters and
    lets one slash follow the path.  The routes are written in lower
    case. *)
Definition lower (c : ascii) : ascii :=
  let n := nat_of_ascii c in
  if (65 <=? n)%nat && (n <=? 90)%nat then ascii_of_nat (n + 32) else c.

Fixpoint route (pattern path : string) : bool :=
  match pattern, path with
  | EmptyString, EmptyString => true
  | EmptyString, String c EmptyString => Ascii.eqb c "/"
  | String a pattern', String b path' => Ascii.eqb a (lower b) && route pattern' path'
  | _, _ => false
  end.

(** What follows [pattern] in [path], the case of the letters ignored. *)
Fixpoint strip_route (pattern path : string) : option string :=
  match pattern, path with
  | EmptyString, _ => Some path
  | String a pattern', String b path' =>
      if Ascii.eqb a (lower b) then strip_route pattern' path' else None
  | String _ _, EmptyString => None
  end.

(** [s] without the one slash that may end it; nothing when another slash
    is in it. *)
Fixpoint segment (s : string) : option string :=
  match s with
  | EmptyString => Some EmptyString
  | String c rest =>
      if Ascii.eqb c "/"
      then match rest with EmptyString => Some EmptyString | _ => None end
      else String c <$> segment rest
  end.

(** The segment a path matching [/api/carousel/:id] has in the place of
    [:id]: [/^\/api\/carousel\/(?:([^\/]+?))\/?$/i]. *)
Definition carousel_segment (path : string) : option string :=
  match strip_route "/api/carousel/" path with
  | Some rest =>
      match segment rest with
      | Some EmptyString | None => None
      | Some seg => Some seg
      end
  | None => None
  end.

(** [req.params.id]: Express hands the handler [decodeURIComponent] of the
    segment. *)
Definition carousel_id_param (path : string) : option string :=
  match carousel_segment path with
  | Some seg => decodeURIComponent seg
  | None => None
  end.

Definition row_to_js (r : CarouselImage) : jsval :=
  VObj [("id", VNum (id r)); ("image_url", VStr (image_url r));
        ("link_url", text_value (link_url r));
        ("alt_text", text_value (alt_text r));
        ("file_name", text_value (file_name r));
        ("display_order", match display_order r with
                          | Some n => VNum n
                          | None => VNull
                          end)].

(** The error [head] of @vercel/blob rejects with for a missing blob, a
    [BlobNotFoundError]: it carries a message and no [status]. *)
Definition BlobNotFound : JsError :=
  {| err_status := None;
     err_message := "Vercel Blob: The requested blob does not exist" |}.

Definition TypeError (msg : string) : JsError := new_Error msg.

Definition URIError (msg : string) : JsError := new_Error msg.

(** [`${v}`]: the conversion of a value inside a template literal. *)
Definition template (v : jsval) : M string :=
  match ToString v with
  | Some text => ret text
  | None => throw (TypeError "Cannot convert object to primitive value")
  end.

(** [encodeURIComponent(s)] *)
Definition uri_component (s : string) : M string :=
  match encodeURIComponent s with
  | Some text => ret text
  | None => throw (URIError "URI malformed")
  end.

Section Server.

Context `{Platform} (env : Env).

(** An external call is logged, then fails as the environment decides or is
    performed. *)
Definition external {A} (ev : event) (act : World -> Result A * World) : M A :=
  fun w => match fault env (List.length (trace w)) with
           | Some e => (Throw e, log ev w)
           | None => act (log ev w)
           end.

(** *** The database: pool and checked-out client *)

(** The tables a statement on the client sees: the open transaction's
    working copy, else the committed ones. *)
Definition working (w : World) : Tables := default (db w) (txn w).

Definition set_working (t : Tables) (w : World) : World :=
  match txn w with
  | Some _ => set_txn (Some t) w
  | None => set_db t w
  end.

(** [const client = await db.connect()].  The world follows the transaction
    of one client, the one checked out last, and the pool is taken to hand
    out a client on which no transaction is in progress. *)
Definition db_connect : M unit :=
  external EConnect (fun w => (Val tt, set_txn None w)).

(** [client.release()]: the client goes back to the pool as it is; a
    transaction that was not ended stays open on it. *)
Definition client_release (w : World) : World := log ERelease w.

(** [await client.query(sql, params)] *)
Definition client_query {A} (s : stmt) (run : Tables -> Result A * Tables) : M A :=
  external (EQuery s)
    (fun w => let (r, t) := run (working w) in (r, set_working t w)).

(** [await db.query(sql, params)]: a statement of its own on the pool. *)
Definition pool_query {A} (s : stmt) (run : Tables -> Result A * Tables) : M A :=
  external (EQuery s)
    (fun w => let (r, t) := run (db w) in (r, set_db t w)).

Definition sql_begin : M unit :=
  external (EQuery BEGIN) (fun w => (Val tt, set_txn (Some (working w)) w)).

Definition sql_commit : M unit :=
  external (EQuery COMMIT) (fun w => (Val tt, set_txn None (set_db (working w) w))).

Definition sql_rollback : M unit :=
  external (EQuery ROLLBACK) (fun w => (Val tt, set_txn None w)).

(** *** The blob store *)

(** [await put(pathname, buffer, { access: 'public', ... })]; the answer is
    [blob.url]. *)
Definition blob_put (pathname content : string) : M string :=
  external (EBlobPut pathname)
    (fun w => let url := blob_url env pathname in
              (Val url, set_blobs (<[url := content]> (blobs w)) w)).

(** [await head(url)] *)
Definition blob_head (url : string) : M unit :=
  external (EBlobHead url)
    (fun w => match blobs w !! url with
              | Some _ => (Val tt, w)
              | None => (Throw BlobNotFound, w)
              end).

(** [await del(url)] *)
Definition blob_del (url : string) : M unit :=
  external (EBlobDel url) (fun w => (Val tt, set_blobs (delete url (blobs w)) w)).

(** *** The session store *)

(** [req.session.destroy(cb)] *)
Definition session_destroy (sid : string) : M unit :=
  external (ESessionDestroy sid)
    (fun w => (Val tt, set_sessions (delete sid (sessions w)) w)).

(** [req.session.regenerate(cb)]: the old session leaves the store and
    [req.session] is a new one. *)
Definition session_regenerate (sid : string) : M Session :=
  external (ESessionRegenerate sid)
    (fun w => (Val {| sessionID := fresh_sid env; authenticated := false;
                      username := None |},
               set_sessions (delete sid (sessions w)) w)).

(** [req.session.save(cb)] *)
Definition session_save (s : Session) : M unit :=
  external (ESessionSave (sessionID s))
    (fun w => (Val tt,
               set_sessions (<[sessionID s :=
                               {| sd_authenticated := authenticated s;
                                  sd_username := username s |}]> (sessions w)) w)).

(** [await mailTransporter.sendMail(mailOptions)] *)
Definition sendMail (recipient : string) : M unit :=
  external (ESendMail recipient) (fun w => (Val tt, w)).

(** *** checkAuth *)

Definition unauthorized : Response :=
  res_json 401 (VObj [("error", VStr "Unauthorized. Please log in.");
                      ("redirectTo", VStr "/login.html?unauthorized=true")]).

(** [req.session && req.session.authenticated] *)
Definition is_authenticated (req : Request) : bool :=
  match session req with
  | Some s => authenticated s
  | None => false
  end.

Definition checkAuth (req : Request) (next : M Response) : M Response :=
  if is_authenticated req
  then next
  else if startsWith (originalUrl req) "/api/"
       then ret unauthorized
       else ret (res_redirect "/login.html?unauthorized=true").

(** *** POST /login and POST /api/logout

    Of the lines that write to the console, the handlers keep those that
    convert a value of the request inside a template literal: the
    conversion can throw. *)

Definition login (req : Request) : M Response :=
  let username := prop "username" (body req) in
  let plainTextPassword := prop "password" (body req) in
  if negb (truthy username) || negb (truthy plainTextPassword)
  then
    text <- uri_component "Username and password are required." ;;
    ret (res_redirect ("/login.html?error=" +:+ text))
  else
    match session req with
    | None => ret (res_redirect "/login.html?error=Server+session+configuration+error")
    | Some s =>
        try_catch
          (rows <- pool_query (SelectUser (pg_text username))
                     (fun t => (Val (Sql.select_user (pg_text username) t), t)) ;;
           match rows with
           | (name, hash) :: _ =>
               match bcrypt_compare plainTextPassword hash with
               | None => throw (new_Error "data and hash must be strings")
               | Some true =>
                   try_catch
                     (s' <- session_regenerate (sessionID s) ;;
                      try_catch
                        (session_save {| sessionID := sessionID s';
                                         authenticated := true;
                                         username := Some name |} ;;
                         ret (res_redirect "/admin.html"))
                        (fun saveErr =>
                           ret (res_redirect "/login.html?error=Session+save+error")))
                     (fun regenErr => ret (res_redirect "/login.html?error=Session+error"))
               | Some false =>
                   template username ;;
                   ret (res_redirect "/login.html?error=Invalid+credentials")
               end
           | [] =>
               template username ;;
               ret (res_redirect "/login.html?error=Invalid+credentials")
           end)
          (fun err => ret (res_redirect "/login.html?error=Server+error"))
    end.

Definition logout (req : Request) : M Response :=
  match session req with
  | Some s =>
      try_catch
        (session_destroy (sessionID s) ;;
         ret {| status := 200;
                res_body := Json (VObj [("message", VStr "Logout successful")]);
                clearCookie := Some "connect.sid" |})
        (fun err =>
           ret (res_json 500 (VObj [("message", VStr "Logout failed due to server error.")])))
  | None =>
      ret (res_json 200 (VObj [("message", VStr "No active session to log out from.")]))
  end.

(** *** Settings API *)

(** The body of [result.rows.forEach(row => { ... })] of GET /api/settings. *)
Definition decode_setting (name : string) (value : option string) : jsval :=
  if is_json_key name
  then if truthy (text_value value)
       then match JSON_parse (default "" value) with
            | Some v => v
            | None => empty_default name
            end
       else empty_default name
  else text_value value.

Definition get_settings : M Response :=
  try_catch
    (rows <- pool_query SelectSettings (fun t => (Val (Sql.select_settings t), t)) ;;
     ret (res_json 200
            (VObj (fold_left
                     (fun settings row =>
                        assign (fst row) (decode_setting (fst row) (snd row)) settings)
                     rows []))))
    (fun err =>
       ret (res_json 500 (VObj [("error", VStr "Failed to retrieve settings from database.")]))).

(** [(typeof value === 'object' && value !== null) ? JSON.stringify(value)
    : String(value || '')]; what [String] is applied to is no object, and
    its conversion does not throw. *)
Definition valueToStore (value : jsval) : string :=
  if typeof_object value && negb (is_null value)
  then JSON_stringify value
  else default "" (ToString (or_else value (VStr ""))).

Definition post_settings (req : Request) : M Response :=
  let settings := prop "settings" (body req) in
  if negb (truthy settings) || negb (typeof_object settings)
  then ret (res_json 400 (VObj [("error", VStr "Missing or invalid 'settings' object.")]))
  else
    db_connect ;;
    try_finally
      (try_catch
         (sql_begin ;;
          for_each (Object_entries settings)
            (fun entry =>
               client_query (UpsertSetting (fst entry) (valueToStore (snd entry)))
                 (fun t => (Val tt,
                            Sql.upsert_setting (fst entry) (valueToStore (snd entry)) t))) ;;
          sql_commit ;;
          ret (res_json 200 (VObj [("message", VStr "Settings saved successfully")])))
         (fun err =>
            sql_rollback ;;
            ret (res_json 500 (VObj [("error", VStr "Failed to save settings.")]))))
      client_release.

(** *** Blob file handling *)

Definition generateBlobFilename (originalName : string) : string :=
  let ext := path_extname originalName in
  let basename := sanitize (take_chars 50 (path_basename originalName ext)) in
  "school_assets/images/" +:+ basename +:+ "-" +:+ pretty (Date_now env)
  +:+ "-" +:+ random_token env +:+ ext.

(** [multer.single(field)]: [req.file], or the error multer passes on for a
    file under another field name. *)
Definition multer_single (field : string) (req : Request) : M (option Upload) :=
  match upload req with
  | None => ret None
  | Some u => if String.eqb (fieldname u) field then ret (Some u)
              else throw (new_Error "Unexpected field")
  end.

Definition createUploadHandler (entityName : string) (file : option Upload) : M Response :=
  match file with
  | None => ret (res_json 400
                   (VObj [("message", VStr ("No " +:+ entityName +:+ " file provided."))]))
  | Some f =>
      try_catch
        (url <- blob_put (generateBlobFilename (originalname f)) (buffer f) ;;
         ret (res_json 200
                (VObj [("message",
                        VStr (entityName +:+ " uploaded successfully to Vercel Blob."));
                       ("url", VStr url)])))
        (fun error =>
           ret (res_json 500
                  (VObj [("message", VStr ("Failed to upload " +:+ entityName +:+ "."));
                         ("error", VStr (err_message error))])))
  end.

(** *** Carousel API *)

Definition get_carousel : M Response :=
  try_catch
    (rows <- pool_query SelectCarousel (fun t => (Val (Sql.select_carousel t), t)) ;;
     ret (res_json 200 (VArr (List.map row_to_js rows))))
    (fun err =>
       ret (res_json 500 (VObj [("error", VStr "Failed to retrieve carousel images.")]))).

Definition post_carousel (req : Request) (file : option Upload) : M Response :=
  match file with
  | None => ret (res_json 400 (VObj [("error", VStr "No carousel image file uploaded.")]))
  | Some f =>
      let linkURL := prop "linkURL" (body req) in
      let altText := prop "altText" (body req) in
      let link := if truthy linkURL then Some (pg_text linkURL) else None in
      let alt := pg_text (or_else altText (VStr "Carousel Image")) in
      try_catch
        (imageUrl <- blob_put (generateBlobFilename (originalname f)) (buffer f) ;;
         row <- pool_query (InsertCarousel imageUrl link alt (originalname f))
                  (Sql.insert_carousel imageUrl link alt (originalname f)) ;;
         ret (res_json 201
                (VObj [("message", VStr "Carousel image added successfully.");
                       ("image", row_to_js row)])))
        (fun error =>
           ret (res_json 500
                  (VObj [("error", VStr "Failed to add carousel image.");
                         ("details", VStr (err_message error))])))
  end.

(** [blobError.status === 404 || (blobError.message &&
    blobError.message.includes('404'))] *)
Definition is_not_found (blobError : JsError) : bool :=
  status_is 404 blobError
  || (negb (String.eqb (err_message blobError) "")
      && includes (err_message blobError) "404").

(** The inner [try { head; del } catch (blobError) { ... }] of
    server.js: both branches of the catch clause only log. *)
Definition blob_cleanup (url : string) : M unit :=
  try_catch
    (blob_head url ;; blob_del url)
    (fun blobError => if is_not_found blobError then ret tt else ret tt).

(** The same block in the earlier revision (part_000): only [status === 404]
    is tolerated, any other error is thrown again
    ("A real blob error occurred, re-throw to rollback DB"). *)
Definition blob_cleanup_rethrow (url : string) : M unit :=
  try_catch
    (blob_head url ;; blob_del url)
    (fun blobError =>
       if status_is 404 blobError then ret tt else throw blobError).

(** DELETE /api/carousel/:id, over the blob clean-up block it runs. *)
Definition delete_carousel_with (cleanup : string -> M unit) (id_param : string)
    : M Response :=
  match parseInt id_param with
  | None => ret (res_json 400 (VObj [("error", VStr "Invalid image ID.")]))
  | Some imageId =>
      db_connect ;;
      try_finally
        (try_catch
           (sql_begin ;;
            findResult <- client_query (SelectImageUrl imageId)
                            (Sql.select_image_url imageId) ;;
            match findResult with
            | [] =>
                sql_rollback ;;
                ret (res_json 404 (VObj [("error", VStr "Image not found in database.")]))
            | imageUrlToDelete :: _ =>
                rowCount <- client_query (DeleteCarouselImage imageId)
                              (Sql.delete_carousel_image imageId) ;;
                (if Nat.eqb rowCount 0
                 then throw (new_Error "Image found but could not be deleted from database.")
                 else ret tt) ;;
                (if truthy (VStr imageUrlToDelete) && startsWith imageUrlToDelete "http"
                 then cleanup imageUrlToDelete
                 else ret tt) ;;
                sql_commit ;;
                ret (res_json 200
                       (VObj [("message", VStr "Carousel image deletion processed.")]))
            end)
           (fun error =>
              sql_rollback ;;
              ret (res_json 500
                     (VObj [("error", VStr "Failed to process image deletion.");
                            ("details", VStr (err_message error))]))))
        client_release
  end.

(** server.js *)
Definition delete_carousel : string -> M Response :=
  delete_carousel_with blob_cleanup.

(** part_000 *)
Definition delete_carousel_rethrow : string -> M Response :=
  delete_carousel_with blob_cleanup_rethrow.

(** *** Contact form *)

(** [settings[name]] after the rows were copied into [settings]. *)
Definition contact_setting (name : string) (rows : list (string * option string))
    : option string :=
  match List.find (fun row => String.eqb (fst row) name) rows with
  | Some row => snd row
  | None => None
  end.

Definition whatsappMessageBody (contactName contactEmail contactSubject contactMessage : string)
    : string :=
  "New Contact Form Submission:" +:+ nl
  +:+ "Name: " +:+ contactName +:+ nl
  +:+ "Email: " +:+ contactEmail +:+ nl
  +:+ "Subject: " +:+ contactSubject +:+ nl
  +:+ "Message:" +:+ nl +:+ contactMessage.

Definition submit_contact (req : Request) : M Response :=
  let contactName := prop "contactName" (body req) in
  let contactEmail := prop "contactEmail" (body req) in
  let contactSubject := prop "contactSubject" (body req) in
  let contactMessage := prop "contactMessage" (body req) in
  if negb (truthy contactName) || negb (truthy contactEmail)
     || negb (truthy contactSubject) || negb (truthy contactMessage)
  then ret (res_json 400 (VObj [("success", VBool false);
                                ("message", VStr "All fields are required.")]))
  else
    settings <- try_catch
                  (pool_query SelectContactSettings
                     (fun t => (Val (Sql.select_contact_settings t), t)))
                  (fun dbError => ret []) ;;
    let contactFormAction :=
      default "whatsapp"
        (first_truthy [contact_setting "contactFormAction" settings;
                       process_env env "CONTACT_FORM_ACTION_DEFAULT"]) in
    if String.eqb contactFormAction "whatsapp" then
      match first_truthy [contact_setting "adminSchoolWhatsappNumber" settings;
                          process_env env "SCHOOL_WHATSAPP_NUMBER"] with
      | None =>
          ret (res_json 500 (VObj [("success", VBool false);
                                   ("message", VStr "Server error: WhatsApp number not set.")]))
      | Some whatsAppNumber =>
          name <- template contactName ;;
          email <- template contactEmail ;;
          subject <- template contactSubject ;;
          message <- template contactMessage ;;
          text <- uri_component (whatsappMessageBody name email subject message) ;;
          let whatsappUrl :=
            "https://wa.me/" +:+ strip_non_digits whatsAppNumber +:+ "?text=" +:+ text in
          ret (res_json 200
                 (VObj [("success", VBool true);
                        ("action", VStr "whatsapp");
                        ("whatsappUrl", VStr whatsappUrl);
                        ("message", VStr "Please click 'Send' in WhatsApp.")]))
      end
    else if String.eqb contactFormAction "email" then
      if negb (mailTransporter env)
      then ret (res_json 500 (VObj [("success", VBool false);
                                    ("message", VStr "Server error: Email service not available.")]))
      else
        match first_truthy [contact_setting "schoolContactEmail" settings;
                            process_env env "SCHOOL_CONTACT_EMAIL_TO"] with
        | None =>
            ret (res_json 500 (VObj [("success", VBool false);
                                     ("message", VStr "Server error: Recipient email not set.")]))
        | Some recipientEmail =>
            (* mailOptions: from, subject, text, then html with
               contactMessage.replace *)
            template contactName ;;
            template contactSubject ;;
            template contactEmail ;;
            template contactMessage ;;
            match contactMessage with
            | VStr _ =>
                try_catch
                  (sendMail recipientEmail ;;
                   ret (res_json 200
                          (VObj [("success", VBool true); ("action", VStr "email");
                                 ("message", VStr "Your message has been sent successfully!")])))
                  (fun emailError =>
                     ret (res_json 500
                            (VObj [("success", VBool false); ("action", VStr "email");
                                   ("message",
                                    VStr "Failed to send message. Please try again later.")])))
            | _ => throw (TypeError "contactMessage.replace is not a function")
            end
        end
    else ret (res_json 500
                (VObj [("success", VBool false);
                       ("message",
                        VStr "Server configuration error: Invalid contact form action.")])).

(** *** The routes, in the order [setupApplication] registers them *)

Definition no_route : Response :=
  {| status := 404; res_body := NoRoute; clearCookie := None |}.

(** The answer of Express to a segment [decodeURIComponent] rejects
    ("Failed to decode param"): the route is not entered. *)
Definition bad_request : Response :=
  {| status := 400; res_body := ErrorPage; clearCookie := None |}.

(** The answer to a request no route takes.  Express tries every route,
    whatever its method: a path of the shape [/api/carousel/:id] whose
    segment cannot be decoded leaves its error behind, and the request is
    answered 400 in place of 404. *)
Definition unmatched (path : string) : Response :=
  match carousel_segment path, carousel_id_param path with
  | Some _, None => bad_request
  | _, _ => no_route
  end.

Definition handle (req : Request) : M Response :=
  let path := path_of (originalUrl req) in
  match req_method req with
  | GET =>
      if String.eqb path "/" then ret (res_sendFile "school.html")
      else if route "/login" path then ret (res_sendFile "login.html")
      else if route "/admin" path
      then checkAuth req (ret (res_sendFile "admin.html"))
      else if route "/school" path then ret (res_sendFile "school.html")
      else if route "/api/settings" path then get_settings
      else if route "/api/carousel" path then get_carousel
      else ret (unmatched path)
  | POST =>
      if route "/login" path then login req
      else if route "/api/logout" path then logout req
      else if route "/api/settings" path then checkAuth req (post_settings req)
      else if route "/api/upload-logo" path
      then checkAuth req (file <- multer_single "logo" req ;;
                          createUploadHandler "Logo" file)
      else if route "/api/upload-about-image" path
      then checkAuth req (file <- multer_single "aboutImage" req ;;
                          createUploadHandler "About image" file)
      else if route "/api/upload-academics-image" path
      then checkAuth req (file <- multer_single "academicsImage" req ;;
                          createUploadHandler "Academics image" file)
      else if route "/api/carousel" path
      then checkAuth req (file <- multer_single "carouselImage" req ;;
                          post_carousel req file)
      else if route "/api/submit-contact" path then submit_contact req
      else ret (unmatched path)
  | DELETE =>
      match carousel_id_param path with
      | Some id_param => checkAuth req (delete_carousel id_param)
      | None => ret (unmatched path)
      end
  end.

End Server.

(** ** A reference platform

    An executable instance of [Platform], used to run the handlers on
    concrete requests: a JSON printer and parser over [jsval] (integer
    numbers, byte strings), node's [path.extname] and [path.basename] for
    POSIX paths, and a stand-in for bcrypt that keeps the password in the
    hash. *)

Module Json.

Definition dquote : ascii := ascii_of_nat 34.
Definition backslash : ascii := ascii_of_nat 92.

Definition lower_hex (n : nat) : ascii :=
  ascii_of_nat (if (n <? 10)%nat then 48 + n else 87 + n)%nat.

(** QuoteJSONString, one character. *)
Definition escape_char (c : ascii) : string :=
  let n := nat_of_ascii c in
  if (n =? 34)%nat then String backslash (String dquote EmptyString)
  else if (n =? 92)%nat then String backslash (String backslash EmptyString)
  else if (n =? 8)%nat then String backslash "b"
  else if (n =? 12)%nat then String backslash "f"
  else if (n =? 10)%nat then String backslash "n"
  else if (n =? 13)%nat then String backslash "r"
  else if (n =? 9)%nat then String backslash "t"
  else if (n <? 32)%nat
       then String backslash
              ("u00" +:+ String (lower_hex (n / 16)) (String (lower_hex (n mod 16)) EmptyString))
  else String c EmptyString.

Fixpoint escape (s : string) : string :=
  match s with
  | EmptyString => EmptyString
  | String c rest => escape_char c +:+ escape rest
  end.

Definition quote (s : string) : string :=
  String dquote (escape s +:+ String dquote EmptyString).

(** [JSON.stringify(v)]; [undefined] is rendered as an array element (null)
    and left out of an object. *)
Fixpoint stringify (v : jsval) : string :=
  match v with
  | VUndefined | VNull => "null"
  | VBool true => "true"
  | VBool false => "false"
  | VNum n => pretty n
  | VStr s => quote s
  | VArr elems => "[" +:+ join "," (List.map stringify elems) +:+ "]"
  | VObj props =>
      "{" +:+ join ","
                (omap (fun '(k, v') =>
                         match v' with
                         | VUndefined => None
                         | _ => Some (quote k +:+ ":" +:+ stringify v')
                         end) props)
          +:+ "}"
  end.

Definition is_ws (c : ascii) : bool :=
  let n := nat_of_ascii c in
  (n =? 32)%nat || (n =? 9)%nat || (n =? 10)%nat || (n =? 13)%nat.

Fixpoint skip_ws (s : string) : string :=
  match s with
  | String c rest => if is_ws c then skip_ws rest else s
  | EmptyString => s
  end.

Definition hex_value (c : ascii) : option N :=
  let n := N_of_ascii c in
  if (48 <=? n)%N && (n <=? 57)%N then Some (n - 48)%N
  else if (97 <=? n)%N && (n <=? 102)%N then Some (n - 87)%N
  else if (65 <=? n)%N && (n <=? 70)%N then Some (n - 55)%N
  else None.

(** The UTF-8 bytes of a code point of the basic plane; surrogates have
    none. *)
Definition utf8 (cp : N) : option string :=
  if (cp <? 128)%N then Some (String (ascii_of_N cp) EmptyString)
  else if (cp <? 2048)%N
  then Some (String (ascii_of_N (192 + cp / 64))
               (String (ascii_of_N (128 + cp mod 64)) EmptyString))
  else if (55296 <=? cp)%N && (cp <=? 57343)%N then None
  else Some (String (ascii_of_N (224 + cp / 4096))
               (String (ascii_of_N (128 + (cp / 64) mod 64))
                  (String (ascii_of_N (128 + cp mod 64)) EmptyString))).

(** The characters of a string literal after its opening quote. *)
Fixpoint parse_chars (s : string) : option (string * string) :=
  match s with
  | EmptyString => None
  | String c rest =>
      if Ascii.eqb c dquote then Some (EmptyString, rest)
      else if Ascii.eqb c backslash then
        match rest with
        | String e rest' =>
            let simple (b : nat) :=
              '(t, r) ← parse_chars rest'; Some (String (ascii_of_nat b) t, r) in
            if Ascii.eqb e dquote then simple 34%nat
            else if Ascii.eqb e backslash then simple 92%nat
            else if Ascii.eqb e "/" then simple 47%nat
            else if Ascii.eqb e "b" then simple 8%nat
            else if Ascii.eqb e "f" then simple 12%nat
            else if Ascii.eqb e "n" then simple 10%nat
            else if Ascii.eqb e "r" then simple 13%nat
            else if Ascii.eqb e "t" then simple 9%nat
            else if Ascii.eqb e "u" then
              match rest' with
              | String h1 (String h2 (String h3 (String h4 rest''))) =>
                  a ← hex_value h1; b ← hex_value h2;
                  c' ← hex_value h3; d ← hex_value h4;
                  bytes ← utf8 (((a * 16 + b) * 16 + c') * 16 + d)%N;
                  '(t, r) ← parse_chars rest'';
                  Some (bytes +:+ t, r)
              | _ => None
              end
            else None
        | EmptyString => None
        end
      else if (nat_of_ascii c <? 32)%nat then None
      else '(t, r) ← parse_chars rest; Some (String c t, r)
  end.

(** The digits of an integer literal: the value and what follows. *)
Fixpoint parse_digits (acc : Z) (s : string) : Z * string :=
  match s with
  | String c rest =>
      if is_digit c then parse_digits (10 * acc + digit_value c) rest else (acc, s)
  | EmptyString => (acc, s)
  end.

(** An unsigned integer literal: one digit at least, no leading zero, no
    fraction and no exponent behind it. *)
Definition parse_nat (s : string) : option (Z * string) :=
  match s with
  | String c rest =>
      if negb (is_digit c) then None
      else
        let (n, r) := if Ascii.eqb c "0" then (0, rest) else parse_digits 0 s in
        match r with
        | String d _ =>
            if is_digit d || Ascii.eqb d "." || Ascii.eqb d "e" || Ascii.eqb d "E"
            then None else Some (n, r)
        | EmptyString => Some (n, r)
        end
  | EmptyString => None
  end.

Definition strip_word (word s : string) : option string := strip_prefix word s.

(** One value, then the rest of an array after its first element, then the
    rest of an object after its first member; [fuel] bounds the number of
    values and separators read. *)
Fixpoint parse_value (fuel : nat) (s : string) : option (jsval * string) :=
  match fuel with
  | O => None
  | S fuel' =>
      match skip_ws s with
      | EmptyString => None
      | String c rest =>
          if Ascii.eqb c "n" then r ← strip_word "ull" rest; Some (VNull, r)
          else if Ascii.eqb c "t" then r ← strip_word "rue" rest; Some (VBool true, r)
          else if Ascii.eqb c "f" then r ← strip_word "alse" rest; Some (VBool false, r)
          else if Ascii.eqb c dquote then
            '(t, r) ← parse_chars rest; Some (VStr t, r)
          else if Ascii.eqb c "-" then
            '(n, r) ← parse_nat rest; Some (VNum (- n), r)
          else if is_digit c then
            '(n, r) ← parse_nat (String c rest); Some (VNum n, r)
          else if Ascii.eqb c "[" then
            match skip_ws rest with
            | String "]" r => Some (VArr [], r)
            | _ =>
                '(v, r) ← parse_value fuel' rest;
                '(vs, r') ← parse_elements fuel' r;
                Some (VArr (v :: vs), r')
            end
          else if Ascii.eqb c "{" then
            match skip_ws rest with
            | String "}" r => Some (VObj [], r)
            | _ =>
                '(props, r) ← parse_members fuel' [] (String "," rest);
                Some (VObj props, r)
            end
          else None
      end
  end
with parse_elements (fuel : nat) (s : string) : option (list jsval * string) :=
  match fuel with
  | O => None
  | S fuel' =>
      match skip_ws s with
      | String "]" r => Some ([], r)
      | String "," r =>
          '(v, r') ← parse_value fuel' r;
          '(vs, r'') ← parse_elements fuel' r';
          Some (v :: vs, r'')
      | _ => None
      end
  end
with parse_members (fuel : nat) (acc : list (string * jsval)) (s : string)
    : option (list (string * jsval) * string) :=
  match fuel with
  | O => None
  | S fuel' =>
      match skip_ws s with
      | String "}" r => Some (acc, r)
      | String "," r =>
          match skip_ws r with
          | String q r1 =>
              if Ascii.eqb q dquote then
                '(k, r2) ← parse_chars r1;
                match skip_ws r2 with
                | String ":" r3 =>
                    '(v, r4) ← parse_value fuel' r3;
                    parse_members fuel' (assign_own k v acc) r4
                | _ => None
                end
              else None
          | EmptyString => None
          end
      | _ => None
      end
  end.

(** [JSON.parse(s)] *)
Definition parse (s : string) : option jsval :=
  '(v, r) ← parse_value (S (String.length s)) s;
  match skip_ws r with
  | EmptyString => Some v
  | String _ _ => None
  end.

(** What [join ","] puts behind the first part. *)
Fixpoint tail_text (parts : list string) : string :=
  match parts with
  | [] => EmptyString
  | p :: rest => "," +:+ p +:+ tail_text rest
  end.

Definition member_text (kv : string * jsval) : string :=
  quote (fst kv) +:+ ":" +:+ stringify (snd kv).

(** The values [stringify] and [parse] carry there and back: no
    [undefined] inside, and no property name twice in an object. *)
Fixpoint distinct (keys : list string) : bool :=
  match keys with
  | [] => true
  | k :: rest => negb (existsb (String.eqb k) rest) && distinct rest
  end.

Fixpoint encodable (v : jsval) : bool :=
  match v with
  | VUndefined => false
  | VNull | VBool _ | VNum _ | VStr _ => true
  | VArr elems => forallb encodable elems
  | VObj props =>
      forallb (fun kv => encodable (snd kv)) props && distinct (List.map fst props)
  end.

(** A bound on the fuel [parse_value] needs for the text of [v]: one for
    each value in it, and one more for an object, whose members are all read
    by [parse_members]. *)
Fixpoint weight (v : jsval) : nat :=
  match v with
  | VArr elems => S (list_sum (List.map weight elems))
  | VObj props => S (S (list_sum (List.map (fun kv => weight (snd kv)) props)))
  | _ => 1
  end.

(** A text that starts a value or a member: its first character is no
    white space and closes neither an array nor an object. *)
Definition starts_value (text : string) : bool :=
  match text with
  | EmptyString => false
  | String c _ => negb (is_ws c || Ascii.eqb c "]" || Ascii.eqb c "}")
  end.

(** What may follow a number: nothing that would extend it. *)
Definition stops (rest : string) : bool :=
  match rest with
  | EmptyString => true
  | String d _ =>
      negb (is_digit d || Ascii.eqb d "." || Ascii.eqb d "e" || Ascii.eqb d "E")
  end.

(** [v] comes back from its own text, whatever follows it. *)
Definition round_trips (v : jsval) : Prop :=
  encodable v = true ->
  forall fuel rest, (weight v <= fuel)%nat -> stops rest = true ->
  parse_value fuel (stringify v +:+ rest) = Some (v, rest).

(** [path.basename(p)]: what follows the last slash. *)
Fixpoint last_segment (acc p : string) : string :=
  match p with
  | EmptyString => acc
  | String c rest =>
      if Ascii.eqb c "/" then last_segment rest rest
      else last_segment acc rest
  end.

(** The suffix of [s] that starts at its last dot, if there is one behind
    the first character. *)
Fixpoint last_dot (first : bool) (s : string) : option string :=
  match s with
  | EmptyString => None
  | String c rest =>
      match last_dot false rest with
      | Some e => Some e
      | None => if Ascii.eqb c "." && negb first then Some s else None
      end
  end.

(** [path.extname(p)] *)
Definition extname (p : string) : string :=
  let base := last_segment p p in
  if String.eqb base ".." then "" else default "" (last_dot true base).

Fixpoint strip_suffix (ext s : string) : option string :=
  match s with
  | EmptyString => if String.eqb ext "" then Some "" else None
  | String c rest =>
      if String.eqb s ext then Some ""
      else String c <$> strip_suffix ext rest
  end.

(** [path.basename(p, ext)] *)
Definition basename (p ext : string) : string :=
  let base := last_segment p p in
  if String.eqb base ext then base else default base (strip_suffix ext base).

End Json.

#[export] Instance reference_platform : Platform := {|
  JSON_stringify := Json.stringify;
  JSON_parse := Json.parse;
  bcrypt_compare pw hash :=
    match pw with
    | VStr p => Some (String.eqb hash ("$2b$10$" +:+ p))
    | _ => None
    end;
  pg_text v :=
    match v with
    | VArr _ | VObj _ => Json.stringify v
    | _ => default "" (ToString v)
    end;
  path_extname := Json.extname;
  path_basename := Json.basename
|}.

(** An environment in which no external call fails. *)
Definition calm : Env := {|
  fault := fun _ => None;
  process_env := fun _ => None;
  mailTransporter := false;
  Date_now := 1700000000000;
  random_token := "k3x9qz";
  blob_url := fun pathname => "https://blob.example/" +:+ pathname;
  fresh_sid := "sid-2"
|}.

Definition with_fault (n : nat) (e : JsError) (env : Env) : Env := {|
  fault := fun i => if Nat.eqb i n then Some e else fault env i;
  process_env := process_env env;
  mailTransporter := mailTransporter env;
  Date_now := Date_now env;
  random_token := random_token env;
  blob_url := blob_url env;
  fresh_sid := fresh_sid env
|}.

Definition no_tables : Tables := {|
  settings := ∅; carousel_images := []; carousel_id_seq := 1; users := ∅
|}.

Definition empty_world : World := {|
  db := no_tables; txn := None; sessions := ∅; blobs := ∅; trace := []
|}.


(** What is stored: the committed tables, the session store, the blobs. *)
Definition stored (w : World) : Tables * gmap string SessionData * gmap string string :=
  (db w, sessions w, blobs w).

Fixpoint no_qmark (p : string) : bool :=
  match p with
  | EmptyString => true
  | String c rest => negb (Ascii.eqb c "?") && no_qmark rest
  end.

(** No external call fails. *)
Definition faultless (env : Env) : Prop := forall i, fault env i = None.



Definition admin_session : Session :=
  {| sessionID := "sid-1"; authenticated := true; username := Some "admin" |}.

Definition admin_delete (id_param : string) : Request := {|
  req_method := DELETE; originalUrl := "/api/carousel/" +:+ id_param;
  session := Some admin_session; body := VObj []; upload := None
|}.

(** Saving settings under a session ([setMany]), and reading them back
    ([getAll]). *)
Definition post_settings_request (s : Session) (settings : jsval) : Request := {|
  req_method := POST; originalUrl := "/api/settings";
  session := Some s;
  body := VObj [("settings", settings)]; upload := None
|}.

Definition admin_post_settings : jsval -> Request :=
  post_settings_request admin_session.

Definition get_settings_request : Request := {|
  req_method := GET; originalUrl := "/api/settings"; session := None;
  body := VObj []; upload := None
|}.

Definition sample_settings : jsval :=
  VObj [("schoolName", VStr "Hill School");
        ("facilityCards", VArr [VObj [("title", VStr "Library")]]);
        ("heroGradient", VNull)].

(** ** Auxiliary notions for the statements *)

Section Notions.

Context `{Platform} (env : Env).

(** The external calls with index in [lo, hi) do not fail. *)
Definition calls_ok (lo hi : nat) : Prop :=
  forall i, (lo <= i < hi)%nat -> fault env i = None.

(** [m] run from [w] ends in a result and a world that satisfy [Q]. *)
Definition runs {A} (m : M A) (w : World) (Q : Result A -> World -> Prop) : Prop :=
  Q (fst (m w)) (snd (m w)).

(** Running [m] keeps [I]. *)
Definition preserves {A} (I : World -> Prop) (m : M A) : Prop :=
  forall w, I w -> I (snd (m w)).

(** The loop body of POST /api/settings and the tables after all of its
    statements. *)
Definition upsert_step (entry : string * jsval) : M unit :=
  client_query env (UpsertSetting (fst entry) (valueToStore (snd entry)))
    (fun t => (Val tt, Sql.upsert_setting (fst entry) (valueToStore (snd entry)) t)).

Definition upsert_all (entries : list (string * jsval)) (t : Tables) : Tables :=
  fold_left (fun t entry => Sql.upsert_setting (fst entry) (valueToStore (snd entry)) t)
            entries t.

(** How the block [await head(url); await del(url)] fails when its first
    call has index [n]: [head] fails as the environment decides, or reports
    the missing blob, or [del] fails; [used] counts the calls issued. *)
Definition blob_failure (url : string) (b : gmap string string) (n : nat)
    (e : JsError) (used : nat) : Prop :=
  (fault env n = Some e /\ used = 1%nat)
  \/ (fault env n = None /\ b !! url = None /\ e = BlobNotFound /\ used = 1%nat)
  \/ (fault env n = None /\ is_Some (b !! url) /\ fault env (S n) = Some e
      /\ used = 2%nat).

(** [!settings || typeof settings !== 'object'] does not hold. *)
Definition valid_settings (req : Request) : bool :=
  truthy (prop "settings" (body req)) && typeof_object (prop "settings" (body req)).

(** The loop body of GET /api/settings. *)
Definition collect_setting (settings : list (string * jsval))
    (row : string * option string) : list (string * jsval) :=
  assign (fst row) (decode_setting (fst row) (snd row)) settings.

(** The answers of DELETE /api/carousel/:id. *)
Definition deletion_processed : Response :=
  res_json 200 (VObj [("message", VStr "Carousel image deletion processed.")]).

Definition deletion_failed (error : JsError) : Response :=
  res_json 500 (VObj [("error", VStr "Failed to process image deletion.");
                      ("details", VStr (err_message error))]).

(** The tables once the row [image_id] is deleted. *)
Definition without (image_id : Z) (t : Tables) : Tables :=
  Sql.set_carousel
    (List.filter (fun r => negb (Sql.has_id image_id r)) (carousel_images t))
    (carousel_id_seq t) t.

(** The first row with that id, the one whose URL the handler reads. *)
Definition found_row (image_id : Z) (t : Tables) : option CarouselImage :=
  head (List.filter (Sql.has_id image_id) (carousel_images t)).

(** [imageUrlToDelete && imageUrlToDelete.startsWith('http')] *)
Definition is_blob_url (url : string) : bool :=
  truthy (VStr url) && startsWith url "http".

(** A world with one carousel image and its blob, and an error of the
    blob service that is not "does not exist". *)
Definition banner : CarouselImage := {|
  id := 1; image_url := "https://blob.example/school_assets/images/banner.png";
  link_url := None; alt_text := Some "Carousel Image";
  file_name := Some "banner.png"; display_order := Some 1
|}.

Definition world_with_banner : World := {|
  db := {| settings := ∅; carousel_images := [banner]; carousel_id_seq := 2;
           users := ∅ |};
  txn := None; sessions := ∅;
  blobs := {[ image_url banner := "PNG" ]};
  trace := []
|}.

(** The same world after the blob was removed behind the server's back. *)
Definition world_without_blob : World := {|
  db := db world_with_banner; txn := None; sessions := ∅; blobs := ∅; trace := []
|}.

(** A world whose one carousel image has the largest display order an
    INTEGER column holds. *)
Definition world_at_last_order : World := {|
  db := {| settings := ∅;
           carousel_images :=
             [{| id := 1; image_url := image_url banner; link_url := None;
                 alt_text := Some "Carousel Image"; file_name := Some "banner.png";
                 display_order := Some 2147483647 |}];
           carousel_id_seq := 2; users := ∅ |};
  txn := None; sessions := ∅;
  blobs := {[ image_url banner := "PNG" ]};
  trace := []
|}.

Definition service_unavailable : JsError :=
  {| err_status := Some 503; err_message := "Service Unavailable" |}.

(** The answer of POST /api/carousel for an inserted row. *)
Definition image_added (row : CarouselImage) : Response :=
  res_json 201 (VObj [("message", VStr "Carousel image added successfully.");
                      ("image", row_to_js row)]).

(** An upload of a carousel image under a session. *)
Definition post_carousel_request (s : Session) (f : Upload) (fields : jsval) : Request := {|
  req_method := POST; originalUrl := "/api/carousel"; session := Some s;
  body := fields; upload := Some f
|}.

Definition get_carousel_request : Request := {|
  req_method := GET; originalUrl := "/api/carousel"; session := None;
  body := VObj []; upload := None
|}.

Definition delete_carousel_request (s : Session) (id_param : string) : Request := {|
  req_method := DELETE; originalUrl := "/api/carousel/" +:+ id_param;
  session := Some s; body := VObj []; upload := None
|}.

Definition photo (name : string) : Upload := {|
  fieldname := "carouselImage"; originalname := name; buffer := "JPEG";
  mimetype := "image/jpeg"
|}.

(** A settings table with a malformed, an empty and a NULL JSON value,
    and two JSON values that parse. *)
Definition world_with_malformed_settings : World := {|
  db := {| settings := {[ "facilityCards" := Some "{oops";
                          "heroGradient" := Some "";
                          "socialLinks" := None;
                          "contactGradient" := Some "{}";
                          "aboutGradient" := Some "[10, 20]";
                          "schoolName" := Some "Hill School" ]};
           carousel_images := []; carousel_id_seq := 1; users := ∅ |};
  txn := None; sessions := ∅; blobs := ∅; trace := []
|}.

(** The world after an administrator uploaded a.jpg, b.jpg and c.jpg. *)
Definition world_with_three_images : World :=
  let upload_of name w :=
    snd (handle calm (post_carousel_request admin_session (photo name) (VObj [])) w) in
  upload_of "c.jpg" (upload_of "b.jpg" (upload_of "a.jpg" empty_world)).

Definition connection_reset : JsError := new_Error "connection reset".

(** A contact form submission. *)
Definition contact_request (name email subject message : jsval) : Request := {|
  req_method := POST; originalUrl := "/api/submit-contact"; session := None;
  body := VObj [("contactName", name); ("contactEmail", email);
                ("contactSubject", subject); ("contactMessage", message)];
  upload := None
|}.

Definition logout_request (s : option Session) : Request := {|
  req_method := POST; originalUrl := "/api/logout"; session := s;
  body := VObj []; upload := None
|}.

Definition get_settings_failed : Response :=
  res_json 500 (VObj [("error", VStr "Failed to retrieve settings from database.")]).

Definition settings_saved : Response :=
  res_json 200 (VObj [("message", VStr "Settings saved successfully")]).

Definition settings_failed : Response :=
  res_json 500 (VObj [("error", VStr "Failed to save settings.")]).

(** The statement the loop issues for an entry. *)
Definition upsert_event (entry : string * jsval) : event :=
  EQuery (UpsertSetting (fst entry) (valueToStore (snd entry))).

(** The outcome of POST /api/settings on a valid [settings] object, by the
    first external call that fails, if any: call [n] is [db.connect()],
    call [n + 1] is BEGIN, the upserts follow and COMMIT is the last. *)
Definition settled (w : World) (entries : list (string * jsval))
    (r : Result Response) (w' : World) : Prop :=
  let n := List.length (trace w) in
  sessions w' = sessions w /\ blobs w' = blobs w /\
  ((r = Val settings_saved /\ db w' = upsert_all entries (db w)
    /\ trace w' = trace w ++ [EConnect; EQuery BEGIN]
                  ++ List.map upsert_event entries ++ [EQuery COMMIT; ERelease]
    /\ calls_ok n (n + List.length entries + 3))
   \/ (db w' = db w
       /\ exists j e, (n <= j < n + List.length entries + 3)%nat
            /\ calls_ok n j /\ fault env j = Some e
            /\ (j = n -> r = Throw e)
            /\ ((n < j)%nat ->
                match fault env (S j) with
                | None => r = Val settings_failed
                | Some e' => r = Throw e'
                end))).



(** The rows the contact form reads its configuration from: those of the
    SELECT, or none when the SELECT fails (call [n] of the trace). *)
Definition contact_rows (w : World) : list (string * option string) :=
  match fault env (List.length (trace w)) with
  | Some _ => []
  | None => Sql.select_contact_settings (db w)
  end.

(** The configured action: settings, then environment, then [whatsapp]. *)
Definition resolved_action (w : World) : string :=
  default "whatsapp"
    (first_truthy [contact_setting "contactFormAction" (contact_rows w);
                   process_env env "CONTACT_FORM_ACTION_DEFAULT"]).

(** The configured WhatsApp number: settings, then environment. *)
Definition configured_number (w : World) : option string :=
  first_truthy [contact_setting "adminSchoolWhatsappNumber" (contact_rows w);
                process_env env "SCHOOL_WHATSAPP_NUMBER"].

Definition number_not_set : Response :=
  res_json 500 (VObj [("success", VBool false);
                      ("message", VStr "Server error: WhatsApp number not set.")]).

Definition whatsapp_link (url : string) : Response :=
  res_json 200 (VObj [("success", VBool true); ("action", VStr "whatsapp");
                      ("whatsappUrl", VStr url);
                      ("message", VStr "Please click 'Send' in WhatsApp.")]).

Definition is_mail (ev : event) : bool :=
  match ev with ESendMail _ => true | _ => false end.

(** Invariants of the handlers: the committed tables satisfy [P]; the
    committed tables and the working copy of the open transaction do. *)
Definition committed (P : Tables -> Prop) (w : World) : Prop := P (db w).

Definition tables_inv (P : Tables -> Prop) (w : World) : Prop :=
  P (db w) /\ forall t, txn w = Some t -> P t.

(** The row POST /api/carousel inserts for the file [f] into the tables
    [t]. *)
Definition inserted_row (req : Request) (f : Upload) (t : Tables) : CarouselImage := {|
  id := carousel_id_seq t;
  image_url := blob_url env (generateBlobFilename env (originalname f));
  link_url := if truthy (prop "linkURL" (body req))
              then Some (pg_text (prop "linkURL" (body req))) else None;
  alt_text := Some (pg_text (or_else (prop "altText" (body req))
                                     (VStr "Carousel Image")));
  file_name := Some (originalname f);
  display_order := Some (Sql.next_display_order t)
|}.

End Notions.

(** ** Start-up code: the CORS origin check and the seed administrator *)

Section Startup.

Context (env : Env).

(** [process.env.NODE_ENV === 'production'] *)
Definition production : bool :=
  match process_env env "NODE_ENV" with
  | Some v => String.eqb v "production"
  | None => false
  end.

(** [allowedOrigins] as [setupApplication] fills it. *)
Definition allowedOrigins : list string :=
  match process_env env "FRONTEND_URL" with
  | Some u => if String.eqb u "" then [] else [u]
  | None => []
  end
  ++ (if production then [] else ["http://localhost:5173"; "http://localhost:3000"]).

(** The [origin] function handed to [cors]: [callback(null, true)], or the
    error passed to the callback.  [origin] is [None] for a request without
    the header. *)
Definition cors_origin (origin : option string) : Result bool :=
  match origin with
  | None => Val true
  | Some o =>
      if String.eqb o "" || existsb (String.eqb o) allowedOrigins
      then Val true
      else Throw (new_Error ("Origin '" +:+ o +:+ "' not allowed by CORS"))
  end.

(** [bcrypt.hash(plain, saltRounds)], as the platform computes it. *)
Variable bcrypt_hash : string -> string.

(** The calls of [initializeDatabase], in the order it awaits them. *)
Inductive init_call :=
| CreateSettingsTable
| CreateCarouselTable
| CreateUsersTable
| SelectAdmin
| HashPassword
| InsertAdmin.

(** INSERT INTO users (username, password) VALUES ($1, $2); [None] is the
    violation of UNIQUE (username). *)
Definition insert_user (name hash : string) (t : Tables) : option Tables :=
  match users t !! name with
  | Some _ => None
  | None => Some {| settings := settings t; carousel_images := carousel_images t;
                    carousel_id_seq := carousel_id_seq t;
                    users := <[name := hash]> (users t) |}
  end.

(** [initializeDatabase]: the tables it leaves, where [fails] tells which of
    its calls reject.  The three CREATE TABLE IF NOT EXISTS find the tables;
    the catch clause only logs. *)
Definition initializeDatabase (fails : init_call -> bool) (t : Tables) : Tables :=
  if fails CreateSettingsTable || fails CreateCarouselTable || fails CreateUsersTable
  then t
  else
    let defaultAdminUsername :=
      default "admin" (first_truthy [process_env env "ADMIN_USERNAME"]) in
    let defaultAdminPasswordPlain :=
      default "password123" (first_truthy [process_env env "ADMIN_PASSWORD_PLAIN"]) in
    if fails SelectAdmin then t
    else
      match Sql.select_user defaultAdminUsername t with
      | [] =>
          if fails HashPassword || fails InsertAdmin then t
          else default t (insert_user defaultAdminUsername
                            (bcrypt_hash defaultAdminPasswordPlain) t)
      | _ :: _ => t
      end.

End Startup.

(** ** Requests and worlds of the examples *)

Definition login_request (s : option Session) (user password : jsval) : Request := {|
  req_method := POST; originalUrl := "/login"; session := s;
  body := VObj [("username", user); ("password", password)]; upload := None
|}.

Definition visitor_session : Session :=
  {| sessionID := "sid-1"; authenticated := false; username := None |}.

(** A database with the seed administrator, as the reference platform hashes
    the password. *)
Definition world_with_admin : World := {|
  db := {| settings := ∅; carousel_images := []; carousel_id_seq := 1;
           users := {[ "admin" := "$2b$10$password123" ]} |};
  txn := None;
  sessions := {[ "sid-1" := {| sd_authenticated := false; sd_username := None |} ]};
  blobs := ∅; trace := []
|}.

Definition page_request (url : string) (s : option Session) : Request := {|
  req_method := GET; originalUrl := url; session := s; body := VUndefined;
  upload := None
|}.

(** [/^[a-zA-Z0-9_.-]*$/.test(s)] *)
Fixpoint all_filename_chars (s : string) : bool :=
  match s with
  | EmptyString => true
  | String c rest => is_filename_char c && all_filename_chars rest
  end.

(** The three upload routes: path, form field, entity name. *)
Definition upload_routes : list (string * string * string) :=
  [("/api/upload-logo", "logo", "Logo");
   ("/api/upload-about-image", "aboutImage", "About image");
   ("/api/upload-academics-image", "academicsImage", "Academics image")].

(** The answers of the upload handlers and of POST /api/carousel. *)
Definition uploaded (entityName url : string) : Response :=
  res_json 200 (VObj [("message",
                       VStr (entityName +:+ " uploaded successfully to Vercel Blob."));
                      ("url", VStr url)]).

Definition upload_failed (entityName : string) (error : JsError) : Response :=
  res_json 500 (VObj [("message", VStr ("Failed to upload " +:+ entityName +:+ "."));
                      ("error", VStr (err_message error))]).

Definition no_file (entityName : string) : Response :=
  res_json 400 (VObj [("message", VStr ("No " +:+ entityName +:+ " file provided."))]).

Definition add_failed (error : JsError) : Response :=
  res_json 500 (VObj [("error", VStr "Failed to add carousel image.");
                      ("details", VStr (err_message error))]).

Definition upload_request (url : string) (s : Session) (f : option Upload) : Request := {|
  req_method := POST; originalUrl := url; session := Some s; body := VObj [];
  upload := f
|}.

Definition crest : Upload := {|
  fieldname := "logo"; originalname := "school crest (2024).png"; buffer := "PNG";
  mimetype := "image/png"
|}.

Definition image_not_found : Response :=
  res_json 404 (VObj [("error", VStr "Image not found in database.")]).

Definition no_carousel_file : Response :=
  res_json 400 (VObj [("error", VStr "No carousel image file uploaded.")]).

(** The configured recipient of the contact mail: settings, then
    environment. *)
Definition configured_recipient (env : Env) (w : World) : option string :=
  first_truthy [contact_setting "schoolContactEmail" (contact_rows env w);
                process_env env "SCHOOL_CONTACT_EMAIL_TO"].

(** The answers of POST /api/submit-contact outside the WhatsApp branch. *)
Definition all_fields_required : Response :=
  res_json 400 (VObj [("success", VBool false);
                      ("message", VStr "All fields are required.")]).

Definition email_unavailable : Response :=
  res_json 500 (VObj [("success", VBool false);
                      ("message", VStr "Server error: Email service not available.")]).

Definition recipient_not_set : Response :=
  res_json 500 (VObj [("success", VBool false);
                      ("message", VStr "Server error: Recipient email not set.")]).

Definition email_sent : Response :=
  res_json 200 (VObj [("success", VBool true); ("action", VStr "email");
                      ("message", VStr "Your message has been sent successfully!")]).

Definition email_failed : Response :=
  res_json 500 (VObj [("success", VBool false); ("action", VStr "email");
                      ("message", VStr "Failed to send message. Please try again later.")]).

Definition invalid_action : Response :=
  res_json 500 (VObj [("success", VBool false);
                      ("message",
                       VStr "Server configuration error: Invalid contact form action.")]).

(** [typeof v === 'string'] *)
Definition is_string (v : jsval) : bool :=
  match v with VStr _ => true | _ => false end.

(** [String(v)] does not throw. *)
Definition converts (v : jsval) : bool :=
  match ToString v with Some _ => true | None => false end.

(** An environment with a WhatsApp number, and a string that holds a lone
    surrogate (U+D800 in the three bytes the UTF-8 scheme would give it). *)
Definition whatsapp_env : Env := {|
  fault := fault calm;
  process_env := fun k => if String.eqb k "SCHOOL_WHATSAPP_NUMBER"
                          then Some "+91 98765-43210" else None;
  mailTransporter := false; Date_now := Date_now calm;
  random_token := random_token calm; blob_url := blob_url calm;
  fresh_sid := fresh_sid calm
|}.

Definition lone_surrogate : string :=
  String (ascii_of_nat 237) (String (ascii_of_nat 160) (String (ascii_of_nat 128) "")).

(** An environment with a mail transporter, and a world whose settings
    select the email action. *)
Definition mail_env : Env := {|
  fault := fun _ => None;
  process_env := fun k => if String.eqb k "SCHOOL_CONTACT_EMAIL_TO"
                          then Some "office@hill.example" else None;
  mailTransporter := true;
  Date_now := Date_now calm; random_token := random_token calm;
  blob_url := blob_url calm; fresh_sid := fresh_sid calm
|}.

Definition world_with_email_action : World := {|
  db := {| settings := {[ "contactFormAction" := Some "email" ]};
           carousel_images := []; carousel_id_seq := 1; users := ∅ |};
  txn := None; sessions := ∅; blobs := ∅; trace := []
|}.

Definition world_with_fax_action : World := {|
  db := {| settings := {[ "contactFormAction" := Some "fax" ]};
           carousel_images := []; carousel_id_seq := 1; users := ∅ |};
  txn := None; sessions := ∅; blobs := ∅; trace := []
|}.

(** The checkout and the release of a database client. *)
Definition is_client_event (ev : event) : bool :=
  match ev with
  | EConnect | ERelease => true
  | _ => false
  end.

(** Since the trace was [t0], calls were issued, none of them a checkout or
    a release. *)
Definition calls_since (t0 : list event) (w : World) : Prop :=
  exists calls,
    trace w = t0 ++ calls
    /\ forallb (fun ev => negb (is_client_event ev)) calls = true.

(** Since the trace was [t0], the calls of a transaction were issued and
    the last one, at index [length t0 + length calls], ended it: it is a
    COMMIT or a ROLLBACK; when it went through no transaction is open and
    there is an answer, when it failed its error is thrown. *)
Definition closes (env : Env) (t0 : list event) (out : Result Response * World)
    : Prop :=
  exists calls last,
    trace (snd out) = t0 ++ calls ++ [EQuery last]
    /\ forallb (fun ev => negb (is_client_event ev)) calls = true
    /\ (last = COMMIT \/ last = ROLLBACK)
    /\ match fault env (List.length t0 + List.length calls) with
       | None => txn (snd out) = None /\ exists res, fst out = Val res
       | Some e => fst out = Throw e
       end.

(** [m] either ends the transaction and answers, or throws before the
    transaction was ended. *)
Definition ends (env : Env) (t0 : list event) (m : M Response) : Prop :=
  forall w, calls_since t0 w ->
    match fst (m w) with
    | Val _ => closes env t0 (m w)
    | Throw _ => calls_since t0 (snd (m w))
    end.

(** The requests whose handler checks a client out of the pool: a settings
    save with a [settings] object, and a carousel deletion with a numeric
    id. *)
Definition uses_client (req : Request) : bool :=
  let path := path_of (originalUrl req) in
  match req_method req with
  | GET => false
  | POST => route "/api/settings" path && valid_settings req
  | DELETE =>
      match carousel_id_param path with
      | Some id_param => negb (isNaN (parseInt id_param))
      | None => false
      end
  end.

(** The display orders of the rows that have one. *)
Definition display_orders (rows : list CarouselImage) : list Z :=
  omap display_order rows.

(** A JSON answer that reports an error (status 400 and above) carries the
    reason as a string under [error] or under [message]. *)
Definition has_message (j : jsval) : bool :=
  is_string (prop "error" j) || is_string (prop "message" j).

Definition explains_errors (res : Response) : bool :=
  match res_body res with
  | Json j => (status res <? 400) || has_message j
  | _ => true
  end.

(** Every response [m] returns satisfies [Q]. *)
Definition answers (Q : Response -> Prop) (m : M Response) : Prop :=
  forall w res, fst (m w) = Val res -> Q res.

(* DEFS-END *)

(** * Properties *)

(** ** Strings and routes *)

Lemma eqb_eq_str (a b : string) : String.eqb a b = true -> a = b.
Proof. apply String.eqb_eq. Qed.

Lemma str_app_nil (r : string) : "" +:+ r = r.
Proof. reflexivity. Qed.

Lemma str_app_cons (a : ascii) (s r : string) :
  String a s +:+ r = String a (s +:+ r).
Proof. reflexivity. Qed.

(** A path matches one route only, up to the slash that may end it. *)
Lemma route_unique (p q path : string) :
  route p path = true -> route q path = true ->
  p = q \/ p = q +:+ "/" \/ q = p +:+ "/".
Proof.
  revert q path; induction p as [|a p IH]; intros q path.
  - destruct path as [|b [|c path]]; cbn [route]; try discriminate.
    + destruct q; [now left|discriminate].
    + intros Hb. destruct q as [|a' q]; [now left|]. cbn [route].
      intros Hq. apply andb_prop in Hq as [Ha' Hq].
      destruct q; [|discriminate].
      apply Ascii.eqb_eq in Hb; subst b. apply Ascii.eqb_eq in Ha'; subst a'.
      right; right. reflexivity.
  - destruct path as [|b path]; cbn [route]; [discriminate|].
    intros Hp. apply andb_prop in Hp as [Ha Hp]. apply Ascii.eqb_eq in Ha.
    destruct q as [|a' q].
    + destruct path; cbn [route]; [|discriminate]. intros Hb.
      apply Ascii.eqb_eq in Hb; subst b. destruct p; [|discriminate].
      right; left. now subst a.
    + cbn [route]. intros Hq. apply andb_prop in Hq as [Ha' Hq].
      apply Ascii.eqb_eq in Ha'. subst a a'.
      destruct (IH q path Hp Hq) as [->|[->| ->]]; auto.
Qed.

Lemma route_others (p path : string) :
  route p path = true ->
  forall q, q <> p -> q <> p +:+ "/" -> p <> q +:+ "/" -> route q path = false.
Proof.
  intros Hp q H1 H2 H3. destruct (route q path) eqn:Hq; [|reflexivity].
  destruct (route_unique p q path Hp Hq) as [E|[E|E]]; congruence.
Qed.

(** The route a path matches is found by its pattern: the other patterns
    the handlers are mounted on do not match. *)
Ltac other_routes Hp :=
  rewrite ?(route_others _ _ Hp)
    by (let X := fresh in intros X; vm_compute in X; discriminate X);
  rewrite ?Hp.

(** A path as a route is written matches that route. *)
Ltac routes :=
  repeat match goal with
         | |- context [route ?p ?q] =>
             let b := eval vm_compute in (route p q) in
             match b with true => idtac | false => idtac end;
             change (route p q) with b
         | |- context [String.eqb ?p ?q] =>
             let b := eval vm_compute in (String.eqb p q) in
             match b with true => idtac | false => idtac end;
             change (String.eqb p q) with b
         end;
  cbv iota.

(** ** The session gate *)

Section Gate.

Context `{Platform} (env : Env).


Lemma checkAuth_granted (req : Request) (next : M Response) (w : World) :
  is_authenticated req = true -> checkAuth req next w = next w.
Proof. unfold checkAuth; intros ->; reflexivity. Qed.




End Gate.




(** ** Running the handlers: rules for [runs] and [preserves] *)

Section Logic.

Context `{Platform} (env : Env).

Lemma runs_ret {A} (a : A) w (Q : Result A -> World -> Prop) :
  Q (Val a) w -> runs (ret a) w Q.
Proof. exact (fun q => q). Qed.

Lemma runs_throw {A} (e : JsError) w (Q : Result A -> World -> Prop) :
  Q (Throw e) w -> runs (throw e) w Q.
Proof. exact (fun q => q). Qed.

Lemma runs_bind {A B} (m : M A) (k : A -> M B) w (Q : Result B -> World -> Prop) :
  runs m w (fun r w1 => match r with
                        | Val a => runs (k a) w1 Q
                        | Throw e => Q (Throw e) w1
                        end) ->
  runs (bind m k) w Q.
Proof. unfold runs, bind; destruct (m w) as [[a|e] w1]; exact (fun q => q). Qed.

Lemma runs_try_catch {A} (m : M A) (h : JsError -> M A) w
    (Q : Result A -> World -> Prop) :
  runs m w (fun r w1 => match r with
                        | Val a => Q (Val a) w1
                        | Throw e => runs (h e) w1 Q
                        end) ->
  runs (try_catch m h) w Q.
Proof. unfold runs, try_catch; destruct (m w) as [[a|e] w1]; exact (fun q => q). Qed.

Lemma runs_try_catch_inv {A} (m : M A) (h : JsError -> M A) w
    (Q : Result A -> World -> Prop) :
  runs (try_catch m h) w Q ->
  runs m w (fun r w1 => match r with
                        | Val a => Q (Val a) w1
                        | Throw e => runs (h e) w1 Q
                        end).
Proof. unfold runs, try_catch; destruct (m w) as [[a|e] w1]; exact (fun q => q). Qed.

Lemma runs_try_finally {A} (m : M A) (f : World -> World) w
    (Q : Result A -> World -> Prop) :
  runs m w (fun r w1 => Q r (f w1)) -> runs (try_finally m f) w Q.
Proof. unfold runs, try_finally; destruct (m w) as [r w1]; exact (fun q => q). Qed.

Lemma runs_external {A} (ev : event) (act : World -> Result A * World) w
    (Q : Result A -> World -> Prop) :
  (forall e, fault env (List.length (trace w)) = Some e -> Q (Throw e) (log ev w)) ->
  (fault env (List.length (trace w)) = None ->
   Q (fst (act (log ev w))) (snd (act (log ev w)))) ->
  runs (external env ev act) w Q.
Proof.
  unfold runs, external; intros Hf Hok.
  destruct (fault env (List.length (trace w))) as [e|]; [apply Hf|apply Hok]; reflexivity.
Qed.

Lemma runs_weaken {A} (m : M A) w (P Q : Result A -> World -> Prop) :
  runs m w P -> (forall r w', P r w' -> Q r w') -> runs m w Q.
Proof. unfold runs; auto. Qed.

Lemma runs_eq {A} (m : M A) w (Q : Result A -> World -> Prop) :
  runs m w Q -> forall r w', m w = (r, w') -> Q r w'.
Proof. unfold runs; intros q r w' E; rewrite E in q; exact q. Qed.

Lemma preserves_ret {A} (I : World -> Prop) (a : A) : preserves I (ret a).
Proof. exact (fun w i => i). Qed.

Lemma preserves_throw {A} (I : World -> Prop) (e : JsError) : preserves I (@throw A e).
Proof. exact (fun w i => i). Qed.

Lemma preserves_bind {A B} (I : World -> Prop) (m : M A) (k : A -> M B) :
  preserves I m -> (forall a, preserves I (k a)) -> preserves I (bind m k).
Proof.
  unfold preserves, bind; intros Hm Hk w Hw; specialize (Hm w Hw).
  destruct (m w) as [[a|e] w1]; [apply Hk|]; exact Hm.
Qed.

Lemma preserves_try_catch {A} (I : World -> Prop) (m : M A) (h : JsError -> M A) :
  preserves I m -> (forall e, preserves I (h e)) -> preserves I (try_catch m h).
Proof.
  unfold preserves, try_catch; intros Hm Hh w Hw; specialize (Hm w Hw).
  destruct (m w) as [[a|e] w1]; [|apply Hh]; exact Hm.
Qed.

Lemma preserves_try_finally {A} (I : World -> Prop) (m : M A) (f : World -> World) :
  preserves I m -> (forall w, I w -> I (f w)) -> preserves I (try_finally m f).
Proof.
  unfold preserves, try_finally; intros Hm Hf w Hw; specialize (Hm w Hw).
  destruct (m w) as [r w1]; apply Hf; exact Hm.
Qed.

Lemma preserves_for_each {A} (I : World -> Prop) (xs : list A) (f : A -> M unit) :
  (forall x, preserves I (f x)) -> preserves I (for_each xs f).
Proof.
  intros Hf; induction xs as [|x xs IH]; [apply preserves_ret|].
  apply preserves_bind; auto.
Qed.

Lemma preserves_external {A} (I : World -> Prop) (ev : event)
    (act : World -> Result A * World) :
  (forall w, I w -> I (log ev w)) ->
  (forall w, I w -> I (snd (act w))) ->
  preserves I (external env ev act).
Proof.
  unfold preserves, external; intros Hl Ha w Hw.
  destruct (fault env (List.length (trace w))); [apply Hl|apply Ha, Hl]; exact Hw.
Qed.

Lemma preserves_template (I : World -> Prop) (v : jsval) : preserves I (template v).
Proof.
  unfold template. destruct (ToString v); [apply preserves_ret|apply preserves_throw].
Qed.

Lemma preserves_uri_component (I : World -> Prop) (s : string) :
  preserves I (uri_component s).
Proof.
  unfold uri_component.
  destruct (encodeURIComponent s); [apply preserves_ret|apply preserves_throw].
Qed.

Lemma length_trace_log (ev : event) (w : World) :
  List.length (trace (log ev w)) = S (List.length (trace w)).
Proof. cbn [trace log]; rewrite length_app; cbn [List.length]; lia. Qed.

End Logic.

(** Unfolds the projections of a world built with the setters and brings
    the length of its trace to the form [length (trace w) + k]. *)
Ltac world :=
  cbn [db txn sessions blobs trace log set_db set_txn set_sessions set_blobs
       client_release working set_working fst snd from_option Datatypes.id] in *;
  rewrite ?length_app in *; cbn [List.length] in *.

(** ** Settings: the bulk upsert *)

Section SettingsWrite.

Context `{Platform} (env : Env).

(** The loop of upserts inside an open transaction: it touches the working
    copy only, and stops at the first statement that fails. *)
Lemma upserts_run (entries : list (string * jsval)) : forall (w : World) (t : Tables),
  txn w = Some t ->
  runs (for_each entries (upsert_step env)) w (fun r w' =>
    db w' = db w /\ sessions w' = sessions w /\ blobs w' = blobs w /\
    match r with
    | Val _ =>
        txn w' = Some (upsert_all entries t)
        /\ trace w' = trace w ++ List.map upsert_event entries
        /\ List.length (trace w') = (List.length (trace w) + List.length entries)%nat
        /\ calls_ok env (List.length (trace w)) (List.length (trace w) + List.length entries)
    | Throw e =>
        exists j, (j < List.length entries)%nat
                  /\ fault env (List.length (trace w) + j) = Some e
                  /\ calls_ok env (List.length (trace w)) (List.length (trace w) + j)
                  /\ List.length (trace w') = S (List.length (trace w) + j)
    end).
Proof.
  induction entries as [|entry entries IH]; intros w t Ht.
  - apply runs_ret. cbn [upsert_all fold_left List.length].
    repeat split; auto; try lia; [now rewrite app_nil_r|intros i Hi; lia].
  - cbn [for_each]. apply runs_bind. apply runs_external.
    + intros e Hf. repeat split; auto. exists 0%nat.
      rewrite Nat.add_0_r, length_trace_log. cbn [List.length].
      repeat split; auto; try lia. intros i Hi; lia.
    + intros Hf. unfold working, set_working. cbn [txn log]. rewrite Ht.
      cbn [default fst snd].
      eapply runs_weaken; [apply IH; reflexivity|].
      intros r w' (Hdb & Hs & Hb & Hr). world.
      split; [assumption|]. split; [assumption|]. split; [assumption|].
      destruct r as [[]|e].
      * destruct Hr as (Htx & Htr & Hlen & Hok).
        split; [exact Htx|].
        split; [rewrite Htr, <- app_assoc; reflexivity|]. split; [lia|].
        intros i Hi. destruct (decide (i = List.length (trace w))) as [->|]; [exact Hf|].
        apply Hok; lia.
      * destruct Hr as (j & Hj & Hfj & Hbefore & Hlen).
        exists (S j). split; [lia|].
        replace (length (trace w) + S j)%nat with (length (trace w) + 1 + j)%nat by lia.
        split; [assumption|]. split; [|lia].
        intros i Hi. destruct (decide (i = List.length (trace w))) as [->|]; [exact Hf|].
        apply Hbefore; lia.
Qed.


(** What ends a failed transaction: [ROLLBACK], then the 500 answer; the
    committed tables are not touched, whether the statement gets through
    or not. *)
Lemma rollback_runs (res : Response) (w : World) (Q : Result Response -> World -> Prop) :
  (forall e, fault env (List.length (trace w)) = Some e ->
             Q (Throw e) (log (EQuery ROLLBACK) w)) ->
  (fault env (List.length (trace w)) = None ->
   Q (Val res) (set_txn None (log (EQuery ROLLBACK) w))) ->
  runs (bind (sql_rollback env) (fun _ => ret res)) w Q.
Proof.
  intros Hf Hok. apply runs_bind. apply runs_external; [exact Hf|].
  intros E. apply runs_ret. exact (Hok E).
Qed.

Lemma failed_statement (w w1 : World) (entries : list (string * jsval))
    (j : nat) (e : JsError) :
  db w1 = db w -> sessions w1 = sessions w -> blobs w1 = blobs w ->
  List.length (trace w1) = S j ->
  (List.length (trace w) < j < List.length (trace w) + List.length entries + 3)%nat ->
  calls_ok env (List.length (trace w)) j ->
  fault env j = Some e ->
  runs (bind (sql_rollback env) (fun _ => ret settings_failed)) w1
       (fun r w2 => settled env w entries r (client_release w2)).
Proof.
  intros Hdb Hs Hb Hlen Hj Hok Hf.
  assert (Hcase : forall r w2,
             db w2 = db w1 -> sessions w2 = sessions w1 -> blobs w2 = blobs w1 ->
             match fault env (S j) with
             | None => r = Val settings_failed
             | Some e' => r = Throw e'
             end ->
             settled env w entries r (client_release w2)).
  { intros r w2 Hdb2 Hs2 Hb2 Hr. unfold settled. world.
    split; [congruence|]. split; [congruence|]. right. split; [congruence|].
    exists j, e. split; [lia|]. split; [assumption|]. split; [assumption|].
    split; [lia|]. intros _; exact Hr. }
  apply rollback_runs; rewrite Hlen; intros; apply Hcase; auto;
    match goal with E : fault env (S j) = _ |- _ => now rewrite E end.
Qed.

Lemma post_settings_runs (req : Request) (w : World) :
  valid_settings req = true ->
  runs (post_settings env req) w
       (settled env w (Object_entries (prop "settings" (body req)))).
Proof.
  intros Hv. unfold post_settings.
  unfold valid_settings in Hv. apply andb_prop in Hv as [Hv1 Hv2].
  rewrite Hv1, Hv2. cbn [negb orb].
  set (entries := Object_entries (prop "settings" (body req))).
  set (n := List.length (trace w)).
  apply runs_bind. apply runs_external; fold n.
  { intros e E0. split; [reflexivity|]. split; [reflexivity|]. right.
    split; [reflexivity|]. exists n, e.
    repeat split; auto; try lia; intros i Hi; lia. }
  intros E0. cbn [fst snd].
  apply runs_try_finally. apply runs_try_catch.
  apply runs_bind. apply runs_external.
  { intros e E1. world. fold n in E1.
    apply (failed_statement w _ entries (n + 1) e); world; fold n;
      auto; try lia.
    intros i Hi. replace i with n by lia. assumption. }
  intros E1. unfold working. world. fold n in E1.
  apply runs_bind.
  eapply runs_weaken; [apply upserts_run; reflexivity|].
  intros r w1 (Hdb & Hs & Hb & Hr). world. fold n in Hr.
  destruct r as [[]|e].
  - destruct Hr as (Htx & Htr & Hlen & Hok).
    apply runs_bind. apply runs_external; rewrite Hlen.
    + intros e E2.
      apply (failed_statement w _ entries (n + 1 + 1 + List.length entries) e);
        world; fold n; auto; try lia.
      intros i Hi.
      destruct (decide (i = n)) as [->|]; [assumption|].
      destruct (decide (i = (n + 1)%nat)) as [->|]; [assumption|].
      apply Hok; lia.
    + intros E2. unfold working. world. rewrite Htx. cbn [default].
      apply runs_ret. unfold settled. world.
      split; [assumption|]. split; [assumption|]. left.
      split; [reflexivity|]. split; [reflexivity|].
      split; [rewrite Htr, <- !app_assoc; reflexivity|].
      intros i Hi.
      destruct (decide (i = n)) as [->|]; [assumption|].
      destruct (decide (i = (n + 1)%nat)) as [->|]; [assumption|].
      destruct (decide (i = (n + 1 + 1 + List.length entries)%nat)) as [->|];
        [assumption|].
      apply Hok; lia.
  - destruct Hr as (j & Hj & Hfj & Hbefore & Hlen).
    apply (failed_statement w _ entries (n + 1 + 1 + j) e); world; fold n;
      auto; try lia.
    intros i Hi.
    destruct (decide (i = n)) as [->|]; [assumption|].
    destruct (decide (i = (n + 1)%nat)) as [->|]; [assumption|].
    apply Hbefore; lia.
Qed.


Lemma settings_upsert_all (entries : list (string * jsval)) (t : Tables) (k : string) :
  settings (upsert_all entries t) !! k
  = match assoc k (rev entries) with
    | Some v => Some (Some (valueToStore v))
    | None => settings t !! k
    end.
Proof.
  induction entries as [|[k' v'] entries IH] using rev_ind; [reflexivity|].
  unfold upsert_all in *. rewrite fold_left_app, rev_app_distr.
  cbn [fold_left rev app assoc fst snd Sql.upsert_setting Sql.set_settings settings].
  destruct (String.eqb_spec k' k) as [->|Hne].
  - apply lookup_insert_eq.
  - rewrite lookup_insert_ne by assumption. exact IH.
Qed.

Lemma upsert_all_others (entries : list (string * jsval)) (t : Tables) :
  carousel_images (upsert_all entries t) = carousel_images t
  /\ carousel_id_seq (upsert_all entries t) = carousel_id_seq t
  /\ users (upsert_all entries t) = users t.
Proof.
  revert t; induction entries as [|entry entries IH]; intros t; [auto|].
  destruct (IH (Sql.upsert_setting (fst entry) (valueToStore (snd entry)) t))
    as (? & ? & ?).
  cbn [upsert_all fold_left] in *. auto.
Qed.

Lemma handle_post_settings (req : Request) (w : World) :
  req_method req = POST -> path_of (originalUrl req) = "/api/settings" ->
  is_authenticated req = true ->
  handle env req w = post_settings env req w.
Proof.
  intros Hm Hp Ha. unfold handle. rewrite Hm, Hp. routes.
  now apply checkAuth_granted.
Qed.







(** C2 (stored form of a value): when an authenticated POST /api/settings
    goes through, the statement issued for an entry [(key, value)] carries
    [JSON.stringify(value)] if [value] is an array or an object and the
    empty string if [value] is [null] or [undefined]; and that is the
    value the settings table holds for [key] afterwards (for the last
    entry of that name). *)
Theorem stored_form (req : Request) (w : World) (key : string) (value : jsval) :
  req_method req = POST -> path_of (originalUrl req) = "/api/settings" ->
  is_authenticated req = true -> valid_settings req = true ->
  faultless env ->
  let entries := Object_entries (prop "settings" (body req)) in
  let w' := snd (handle env req w) in
  let text := match value with
              | VArr _ | VObj _ => Some (JSON_stringify value)
              | VNull | VUndefined => Some ""
              | _ => None
              end in
  forall s, text = Some s ->
  (In (key, value) entries -> In (EQuery (UpsertSetting key s)) (trace w'))
  /\ (assoc key (rev entries) = Some value ->
      settings (db w') !! key = Some (Some s)).
Proof.
  intros Hm Hp Ha Hv Hcalm entries w' text s Hs.
  assert (valueToStore value = s) as Hstore.
  { destruct value; cbn in Hs; try discriminate; injection Hs as <-; reflexivity. }
  pose proof (post_settings_runs req w Hv) as Hrun.
  unfold runs in Hrun. rewrite <- (handle_post_settings req w Hm Hp Ha) in Hrun.
  fold w' entries in Hrun.
  destruct Hrun as (_ & _ & [(_ & Hdb & Htr & _)|(_ & j & e & _ & _ & Hf & _)]);
    [|rewrite Hcalm in Hf; discriminate].
  split.
  - intros Hin. rewrite Htr, !in_app_iff. right; right; left.
    apply in_map_iff. exists (key, value). split; [|assumption].
    unfold upsert_event; cbn [fst snd]. now rewrite Hstore.
  - intros Hlast. rewrite Hdb, settings_upsert_all, Hlast. now rewrite Hstore.
Qed.

End SettingsWrite.


Lemma stored_form_witness :
  let req := admin_post_settings sample_settings in
  let value := VArr [VObj [("title", VStr "Library")]] in
  let w' := snd (handle calm req empty_world) in
  In (EQuery (UpsertSetting "facilityCards" (JSON_stringify value))) (trace w')
  /\ settings (db w') !! "facilityCards" = Some (Some (JSON_stringify value)).
Proof.
  pose proof (stored_form calm (admin_post_settings sample_settings) empty_world
                "facilityCards" (VArr [VObj [("title", VStr "Library")]])
                eq_refl eq_refl eq_refl eq_refl (fun _ => eq_refl)
                _ eq_refl) as [Hq Hs].
  split; [apply Hq|apply Hs]; [|reflexivity].
  right; left; reflexivity.
Defined.

(** ** Settings: reading them back *)

Section SettingsRead.

Context `{Platform} (env : Env).

Lemma assoc_assign_own (k k' : string) (v : jsval) (props : list (string * jsval)) :
  assoc k (assign_own k' v props)
  = if String.eqb k' k then Some v else assoc k props.
Proof.
  induction props as [|[k1 v1] props IH]; cbn [assign_own assoc].
  - reflexivity.
  - destruct (String.eqb_spec k1 k') as [->|Hne]; cbn [assoc].
    + destruct (String.eqb k' k); reflexivity.
    + rewrite IH. destruct (String.eqb_spec k1 k) as [->|]; [|reflexivity].
      destruct (String.eqb_spec k' k) as [->|]; [congruence|reflexivity].
Qed.

Lemma assoc_assign (k k' : string) (v : jsval) (props : list (string * jsval)) :
  assoc k (assign k' v props)
  = if String.eqb k' k && negb (String.eqb k' "__proto__")
    then Some v else assoc k props.
Proof.
  unfold assign. destruct (String.eqb k' "__proto__"); cbn [negb].
  - now rewrite andb_false_r.
  - rewrite andb_true_r. apply assoc_assign_own.
Qed.

Lemma collect_other (k : string) (rows : list (string * option string)) :
  forall acc, ~ In k (List.map fst rows) ->
  assoc k (fold_left collect_setting rows acc) = assoc k acc.
Proof.
  induction rows as [|[k1 v1] rows IH]; intros acc Hk; [reflexivity|].
  cbn [fold_left]. rewrite IH by (intros Hin; apply Hk; right; exact Hin).
  unfold collect_setting; cbn [fst snd]. rewrite assoc_assign.
  destruct (String.eqb_spec k1 k) as [->|]; [|reflexivity].
  exfalso; apply Hk; left; reflexivity.
Qed.

Lemma collect_row (k : string) (v : option string) (rows : list (string * option string)) :
  forall acc, List.NoDup (List.map fst rows) -> In (k, v) rows -> k <> "__proto__" ->
  assoc k (fold_left collect_setting rows acc) = Some (decode_setting k v).
Proof.
  induction rows as [|[k1 v1] rows IH]; intros acc Hnd Hin Hk; [destruct Hin|].
  cbn [List.map fst] in Hnd. apply List.NoDup_cons_iff in Hnd as [Hfresh Hnd].
  cbn [fold_left]. destruct Hin as [E|Hin].
  - injection E as -> ->. rewrite collect_other by assumption.
    unfold collect_setting; cbn [fst snd]. rewrite assoc_assign.
    rewrite String.eqb_refl.
    destruct (String.eqb_spec k "__proto__"); [contradiction|reflexivity].
  - now apply IH.
Qed.

(** The keys of the rows SELECT answers are distinct (setting_name is
    UNIQUE), and the rows are the table. *)
Lemma select_settings_rows (t : Tables) :
  List.NoDup (List.map fst (Sql.select_settings t))
  /\ forall k v, In (k, v) (Sql.select_settings t) <-> settings t !! k = Some v.
Proof.
  unfold Sql.select_settings; split.
  - apply NoDup_ListNoDup, NoDup_fst_map_to_list.
  - intros k v. rewrite <- list_elem_of_In. apply elem_of_map_to_list.
Qed.

Lemma get_settings_runs (w : World) :
  runs (get_settings env) w (fun r w' =>
    w' = log (EQuery SelectSettings) w /\
    match fault env (List.length (trace w)) with
    | Some _ => r = Val get_settings_failed
    | None =>
        r = Val (res_json 200
                   (VObj (fold_left collect_setting (Sql.select_settings (db w)) [])))
    end).
Proof.
  unfold get_settings. apply runs_try_catch. apply runs_bind.
  apply runs_external.
  - intros e E. apply runs_ret. rewrite E. split; reflexivity.
  - intros E. cbn [fst snd]. apply runs_ret. rewrite E. split; [|reflexivity].
    destruct w; reflexivity.
Qed.


Lemma handle_get_settings (req : Request) (w : World) :
  req_method req = GET -> path_of (originalUrl req) = "/api/settings" ->
  handle env req w = get_settings env w.
Proof. intros Hm Hp. unfold handle. rewrite Hm, Hp. reflexivity. Qed.

Lemma json_key_not_proto (name : string) :
  is_json_key name = true -> name <> "__proto__".
Proof. intros Hk ->. discriminate. Qed.

Lemma is_json_key_In (name : string) : is_json_key name = true <-> In name jsonKeys.
Proof.
  unfold is_json_key. rewrite existsb_exists. split.
  - intros (k & Hin & Hk). apply String.eqb_eq in Hk. now subst k.
  - intros Hin. exists name. split; [exact Hin|apply String.eqb_refl].
Qed.

(** C7 (malformed JSON never escapes): GET /api/settings always answers
    (no error is thrown past the handler) and stores nothing.  When the
    SELECT gets through, the answer is 200 with an object in which every
    row [(name, value)] of the table appears under [name]:
    - a JSON key (one of the eight names below) whose value is NULL, empty,
      or rejected by [JSON.parse] reads as the empty default, [[]] for
      facilityCards and [{}] for the other JSON keys;
    - a JSON key whose value parses reads as the parsed value;
    - any other name (except [__proto__], which JavaScript does not store
      as a property) reads as the stored text. *)
Theorem getAll_degrades (req : Request) (w : World) :
  req_method req = GET -> path_of (originalUrl req) = "/api/settings" ->
  let json_keys :=
    ["socialLinks"; "facilityCards"; "heroGradient"; "aboutGradient";
     "admissionsGradient"; "academicsGradient"; "facilitiesGradient";
     "contactGradient"] in
  let r := fst (handle env req w) in
  let w' := snd (handle env req w) in
  (exists res, r = Val res)
  /\ stored w' = stored w
  /\ (fault env (List.length (trace w)) = None ->
      exists obj,
        r = Val (res_json 200 (VObj obj))
        /\ forall name value, settings (db w) !! name = Some value ->
             (In name json_keys ->
              (value = None \/ value = Some ""
               \/ exists s, value = Some s /\ JSON_parse s = None) ->
              prop name (VObj obj)
              = if String.eqb name "facilityCards" then VArr [] else VObj [])
             /\ (In name json_keys ->
                 forall s v, value = Some s -> s <> "" -> JSON_parse s = Some v ->
                 prop name (VObj obj) = v)
             /\ (~ In name json_keys -> name <> "__proto__" ->
                 prop name (VObj obj) = text_value value)).
Proof.
  intros Hm Hp json_keys r w'. subst r w'. rewrite (handle_get_settings req w Hm Hp).
  change json_keys with jsonKeys. clear json_keys.
  pose proof (get_settings_runs w) as Hrun. unfold runs in Hrun.
  destruct Hrun as [Hw Hr]. rewrite Hw.
  split; [|split; [reflexivity|]].
  - destruct (fault env (List.length (trace w))); eauto.
  - intros Hok. rewrite Hok in Hr. eexists; split; [exact Hr|].
    destruct (select_settings_rows (db w)) as [Hnd Hrows].
    intros name value Hrow. apply Hrows in Hrow.
    assert (Hget : name <> "__proto__" ->
                   prop name (VObj (fold_left collect_setting
                                      (Sql.select_settings (db w)) []))
                   = decode_setting name value).
    { intros Hn. cbn [prop]. now rewrite (collect_row name value _ [] Hnd Hrow Hn). }
    split; [|split].
    + intros Hk Hbad. apply is_json_key_In in Hk.
      rewrite Hget by now apply json_key_not_proto.
      unfold decode_setting, empty_default. rewrite Hk.
      destruct Hbad as [->|[->|(s & -> & Hs)]]; cbn [text_value truthy default]; unfold Datatypes.id;
        [reflexivity|reflexivity|].
      rewrite Hs. now destruct (negb (String.eqb s "")).
    + intros Hk s v -> Hs Hv. apply is_json_key_In in Hk.
      rewrite Hget by now apply json_key_not_proto.
      unfold decode_setting. rewrite Hk. cbn [text_value truthy default]. unfold Datatypes.id.
      destruct (String.eqb_spec s ""); [contradiction|]. cbn [negb]. now rewrite Hv.
    + intros Hk Hn. rewrite Hget by assumption.
      unfold decode_setting.
      destruct (is_json_key name) eqn:Ek; [|reflexivity].
      apply is_json_key_In in Ek. contradiction.
Qed.

(** What a save that nothing disturbs leaves in the tables. *)
Lemma post_settings_saved (req : Request) (w : World) :
  req_method req = POST -> path_of (originalUrl req) = "/api/settings" ->
  is_authenticated req = true -> valid_settings req = true ->
  faultless env ->
  fst (handle env req w) = Val settings_saved
  /\ db (snd (handle env req w))
     = upsert_all (Object_entries (prop "settings" (body req))) (db w).
Proof.
  intros Hm Hp Ha Hv Hcalm.
  pose proof (post_settings_runs env req w Hv) as Hrun.
  unfold runs in Hrun. rewrite <- (handle_post_settings env req w Hm Hp Ha) in Hrun.
  destruct Hrun as (_ & _ & [(Hr & Hdb & _)|(_ & j & e & _ & _ & Hf & _)]);
    [|rewrite Hcalm in Hf; discriminate].
  split; assumption.
Qed.

(** What GET /api/settings answers when its SELECT gets through: every row
    of the table, decoded, under its name. *)
Lemma get_settings_reads (w : World) :
  fault env (List.length (trace w)) = None ->
  let obj := fold_left collect_setting (Sql.select_settings (db w)) [] in
  fst (handle env get_settings_request w) = Val (res_json 200 (VObj obj))
  /\ forall name value,
       settings (db w) !! name = Some value -> name <> "__proto__" ->
       prop name (VObj obj) = decode_setting name value.
Proof.
  intros Hok obj. rewrite (handle_get_settings get_settings_request w eq_refl eq_refl).
  pose proof (get_settings_runs w) as Hrun. unfold runs in Hrun.
  destruct Hrun as [_ Hr]. rewrite Hok in Hr. split; [exact Hr|].
  destruct (select_settings_rows (db w)) as [Hnd Hrows].
  intros name value Hrow Hn. apply Hrows in Hrow.
  cbn [prop]. subst obj. now rewrite (collect_row name value _ [] Hnd Hrow Hn).
Qed.

(** C4 (settings round trip): for a key [k] of the JSON-key set and an
    array or object [v] that [JSON.stringify] and [JSON.parse] carry there
    and back, saving [{k: v}] with an authenticated POST /api/settings and
    then reading with GET /api/settings answers 200 with [v] under [k],
    when no external call fails. *)
Theorem settings_round_trip (s : Session) (k : string) (v : jsval) (w : World) :
  authenticated s = true ->
  In k jsonKeys ->
  typeof_object v && negb (is_null v) = true ->
  JSON_parse (JSON_stringify v) = Some v ->
  JSON_parse "" = None ->
  faultless env ->
  let w1 := snd (handle env (post_settings_request s (VObj [(k, v)])) w) in
  exists obj,
    fst (handle env get_settings_request w1) = Val (res_json 200 (VObj obj))
    /\ prop k (VObj obj) = v.
Proof.
  intros Hs Hk Hv Hrt Hempty Hcalm w1.
  assert (Hjson : is_json_key k = true).
  { unfold is_json_key. apply existsb_exists. exists k. split; [assumption|].
    apply String.eqb_refl. }
  assert (Hstored : settings (db w1) !! k = Some (Some (JSON_stringify v))).
  { destruct (post_settings_saved (post_settings_request s (VObj [(k, v)])) w
                eq_refl eq_refl Hs eq_refl Hcalm) as [_ Hdb].
    assert (Hlast : assoc k (rev (Object_entries
                                    (prop "settings"
                                       (body (post_settings_request s (VObj [(k, v)]))))))
                    = Some v).
    { change (assoc k [(k, v)] = Some v). cbn [assoc]. now rewrite String.eqb_refl. }
    subst w1. rewrite Hdb, settings_upsert_all, Hlast.
    unfold valueToStore. now rewrite Hv. }
  destruct (get_settings_reads w1 (Hcalm _)) as [Hr Hrows].
  eexists. split; [exact Hr|].
  rewrite (Hrows k _ Hstored) by now apply json_key_not_proto.
  unfold decode_setting. rewrite Hjson. cbn [text_value truthy default].
  unfold Datatypes.id.
  destruct (String.eqb_spec (JSON_stringify v) "") as [E|_];
    [rewrite E in Hrt; congruence|].
  cbn [negb]. now rewrite Hrt.
Qed.

End SettingsRead.

Lemma getAll_degrades_witness :
  exists obj,
    fst (handle calm get_settings_request world_with_malformed_settings)
    = Val (res_json 200 (VObj obj))
    /\ prop "facilityCards" (VObj obj) = VArr []
    /\ prop "heroGradient" (VObj obj) = VObj []
    /\ prop "socialLinks" (VObj obj) = VObj []
    /\ prop "aboutGradient" (VObj obj) = VArr [VNum 10; VNum 20]
    /\ prop "schoolName" (VObj obj) = VStr "Hill School"
    /\ stored (snd (handle calm get_settings_request world_with_malformed_settings))
       = stored world_with_malformed_settings.
Proof.
  destruct (getAll_degrades calm get_settings_request world_with_malformed_settings
              eq_refl eq_refl) as (_ & Hstored & Hobj).
  destruct (Hobj eq_refl) as (obj & Hr & Hrows).
  exists obj. split; [exact Hr|].
  split.
  { destruct (Hrows "facilityCards" (Some "{oops") eq_refl) as (Hbad & _).
    apply Hbad; [cbn [In]; tauto|].
    right; right. exists "{oops". split; reflexivity. }
  split.
  { destruct (Hrows "heroGradient" (Some "") eq_refl) as (Hbad & _).
    apply Hbad; [cbn [In]; tauto|]. right; left. reflexivity. }
  split.
  { destruct (Hrows "socialLinks" None eq_refl) as (Hbad & _).
    apply Hbad; [cbn [In]; tauto|]. left. reflexivity. }
  split.
  { destruct (Hrows "aboutGradient" (Some "[10, 20]") eq_refl) as (_ & Hparsed & _).
    apply (Hparsed ltac:(cbn [In]; tauto) "[10, 20]"); [reflexivity|discriminate|].
    reflexivity. }
  split.
  { destruct (Hrows "schoolName" (Some "Hill School") eq_refl) as (_ & _ & Hplain).
    apply Hplain; [|discriminate]. cbn [In]. intuition discriminate. }
  exact Hstored.
Defined.

Lemma settings_round_trip_witness :
  let v := VArr [VObj [("title", VStr "Library"); ("iconClass", VStr "fa-book")]] in
  let w1 := snd (handle calm (post_settings_request admin_session
                                (VObj [("facilityCards", v)])) empty_world) in
  exists obj,
    fst (handle calm get_settings_request w1) = Val (res_json 200 (VObj obj))
    /\ prop "facilityCards" (VObj obj) = v.
Proof.
  apply (settings_round_trip calm admin_session "facilityCards"
           (VArr [VObj [("title", VStr "Library"); ("iconClass", VStr "fa-book")]])
           empty_world).
  - reflexivity.
  - right; left; reflexivity.
  - reflexivity.
  - vm_compute; reflexivity.
  - reflexivity.
  - intros i; reflexivity.
Defined.

(** ** Carousel: removing an image *)

Section Remove.

Context `{Platform} (env : Env).

(** Discharges the failure branch of an external call that the hypotheses
    say succeeds. *)
Ltac ext_ok Hok :=
  apply runs_external;
  [ let e := fresh "e" in
    let E := fresh "E" in
    intros e E; world; rewrite Hok in E by lia; discriminate
  | intros _; world ].

Lemma handle_delete (req : Request) (id_param : string) (w : World) :
  req_method req = DELETE ->
  carousel_id_param (path_of (originalUrl req)) = Some id_param ->
  is_authenticated req = true ->
  handle env req w = delete_carousel env id_param w.
Proof.
  intros Hm Hp Ha. unfold handle. rewrite Hm, Hp. now apply checkAuth_granted.
Qed.

(** The handler up to the blob clean-up, when the connection, BEGIN, the
    SELECT and the DELETE get through and a row has the id: the row is
    deleted in the open transaction and the handler goes on with the
    clean-up, COMMIT and the 200 answer, inside its try/catch/finally. *)
Lemma delete_reaches_cleanup (cleanup : string -> M unit) (id_param : string)
    (image_id : Z) (row : CarouselImage) (w : World)
    (Q : Result Response -> World -> Prop) :
  parseInt id_param = Some image_id ->
  Sql.int4 image_id = true ->
  found_row image_id (db w) = Some row ->
  calls_ok env (List.length (trace w)) (List.length (trace w) + 4) ->
  runs (try_catch
          ((if is_blob_url (image_url row) then cleanup (image_url row) else ret tt) ;;
           sql_commit env ;;
           ret deletion_processed)
          (fun error => sql_rollback env ;; ret (deletion_failed error)))
       {| db := db w; txn := Some (without image_id (db w));
          sessions := sessions w; blobs := blobs w;
          trace := trace w ++ [EConnect; EQuery BEGIN;
                               EQuery (SelectImageUrl image_id);
                               EQuery (DeleteCarouselImage image_id)] |}
       (fun r w' => Q r (client_release w')) ->
  runs (delete_carousel_with env cleanup id_param) w Q.
Proof.
  intros Hid Hrange Hrow Hok Htail.
  unfold delete_carousel_with. rewrite Hid.
  set (n := List.length (trace w)) in *.
  apply runs_bind. ext_ok Hok. fold n.
  apply runs_try_finally. apply runs_try_catch.
  apply runs_bind. ext_ok Hok.
  apply runs_bind. ext_ok Hok.
  unfold Sql.select_image_url. rewrite Hrange. world.
  unfold found_row in Hrow.
  destruct (List.filter (Sql.has_id image_id) (carousel_images (db w)))
    as [|row' found] eqn:Efound; [discriminate|].
  injection Hrow as ->. cbn [List.map].
  apply runs_bind. ext_ok Hok.
  unfold Sql.delete_carousel_image. rewrite Hrange, Efound. world.
  apply runs_bind. apply runs_ret.
  apply runs_try_catch_inv in Htail.
  unfold set_txn, log. world. rewrite <- !app_assoc. cbn [app].
  exact Htail.
Qed.


Lemma blob_block_fails (url : string) (w : World) (e : JsError) (used : nat) :
  blob_failure env url (blobs w) (List.length (trace w)) e used ->
  runs (blob_head env url ;; blob_del env url) w (fun r w' =>
    r = Throw e /\ db w' = db w /\ txn w' = txn w /\ sessions w' = sessions w
    /\ blobs w' = blobs w
    /\ List.length (trace w') = (List.length (trace w) + used)%nat).
Proof.
  intros [(Hf & ->)|[(Hf & Hb & -> & ->)|(Hf & [c Hb] & Hd & ->)]].
  - apply runs_bind; apply runs_external; [|intros E; congruence].
    intros e' E. rewrite Hf in E. injection E as <-. world. repeat split; lia.
  - apply runs_bind; apply runs_external; [intros e' E; congruence|].
    intros _. world. rewrite Hb. world. repeat split; lia.
  - apply runs_bind; apply runs_external; [intros e' E; congruence|].
    intros _. world. rewrite Hb. world.
    apply runs_external; world.
    + intros e' E.
      replace (length (trace w) + 1)%nat with (S (length (trace w))) in E by lia.
      rewrite Hd in E. injection E as <-. repeat split; lia.
    + intros E.
      replace (length (trace w) + 1)%nat with (S (length (trace w))) in E by lia.
      congruence.
Qed.

(** C1, as the code has it: DELETE /api/carousel/:id on an existing row whose
    image is a blob URL, when the database statements get through and the
    blob clean-up fails with [e] (from [head] or from [del]), the statement
    that follows getting through too.
    - server.js logs the failure, whatever it is (a missing blob included),
      and commits: the answer is 200 and the row is gone;
    - the earlier revision (part_000) lets a failure pass only when the
      error carries [status] 404, and then commits as well; for any other
      failure it rolls back: the answer is the 500 error and the committed
      tables, the row included, are unchanged;
    - the error [head] raises for a missing blob carries no status: on a
      blob that is already gone the earlier revision rolls back too. *)
Theorem remove_blob_failure (req : Request) (id_param : string) (image_id : Z)
    (row : CarouselImage) (w : World) (e : JsError) (used : nat) :
  req_method req = DELETE ->
  carousel_id_param (path_of (originalUrl req)) = Some id_param ->
  is_authenticated req = true ->
  parseInt id_param = Some image_id ->
  Sql.int4 image_id = true ->
  found_row image_id (db w) = Some row ->
  is_blob_url (image_url row) = true ->
  let n := List.length (trace w) in
  calls_ok env n (n + 4) ->
  blob_failure env (image_url row) (blobs w) (n + 4) e used ->
  fault env (n + 4 + used) = None ->
  (fst (handle env req w) = Val deletion_processed
   /\ db (snd (handle env req w)) = without image_id (db w))
  /\ (status_is 404 e = true ->
      fst (delete_carousel_rethrow env id_param w) = Val deletion_processed
      /\ db (snd (delete_carousel_rethrow env id_param w)) = without image_id (db w))
  /\ (status_is 404 e = false ->
      fst (delete_carousel_rethrow env id_param w) = Val (deletion_failed e)
      /\ db (snd (delete_carousel_rethrow env id_param w)) = db w)
  /\ (fault env (n + 4) = None -> blobs w !! image_url row = None ->
      fst (delete_carousel_rethrow env id_param w)
      = Val (deletion_failed BlobNotFound)
      /\ In row (carousel_images (db (snd (delete_carousel_rethrow env id_param w))))).
Proof.
  intros Hm Hp Ha Hid Hrange Hrow Hblob n Hok Hfail Hnext.
  enough (Hmain :
    (fst (handle env req w) = Val deletion_processed
     /\ db (snd (handle env req w)) = without image_id (db w))
    /\ (status_is 404 e = true ->
        fst (delete_carousel_rethrow env id_param w) = Val deletion_processed
        /\ db (snd (delete_carousel_rethrow env id_param w)) = without image_id (db w))
    /\ (status_is 404 e = false ->
        fst (delete_carousel_rethrow env id_param w) = Val (deletion_failed e)
        /\ db (snd (delete_carousel_rethrow env id_param w)) = db w)).
  { destruct Hmain as (H1 & H2 & H3). split; [exact H1|]. split; [exact H2|].
    split; [exact H3|]. intros Hhead Hgone.
    assert (e = BlobNotFound) as ->.
    { destruct Hfail as [(Hf & _)|[(_ & _ & He & _)|(_ & [c Hc] & _)]];
        [congruence|exact He|congruence]. }
    destruct (H3 eq_refl) as [Hr Hdb]. split; [exact Hr|].
    rewrite Hdb. unfold found_row in Hrow.
    destruct (List.filter (Sql.has_id image_id) (carousel_images (db w)))
      as [|row' found] eqn:Efound; [discriminate|]. injection Hrow as ->.
    apply (proj1 (List.filter_In (Sql.has_id image_id) row (carousel_images (db w)))).
    rewrite Efound. now left. }
  rewrite (handle_delete req id_param w Hm Hp Ha).
  assert (Hblock : forall w4, blobs w4 = blobs w -> List.length (trace w4) = (n + 4)%nat ->
            runs (blob_head env (image_url row) ;; blob_del env (image_url row)) w4
              (fun r w' =>
                 r = Throw e /\ db w' = db w4 /\ txn w' = txn w4
                 /\ sessions w' = sessions w4 /\ blobs w' = blobs w4
                 /\ List.length (trace w') = (n + 4 + used)%nat)).
  { intros w4 Hb Hlen. eapply runs_weaken.
    - apply (blob_block_fails (image_url row) w4 e used). now rewrite Hb, Hlen.
    - intros r w' Hr. now rewrite Hlen in Hr. }
  split; [|split].
  - change (runs (delete_carousel env id_param) w
              (fun r w' => r = Val deletion_processed /\ db w' = without image_id (db w))).
    apply (delete_reaches_cleanup _ id_param image_id row); try assumption.
    apply runs_try_catch. apply runs_bind. rewrite Hblob.
    unfold blob_cleanup. apply runs_try_catch.
    eapply runs_weaken; [apply Hblock; world; [reflexivity|lia]|].
    intros r w5 (-> & Hdb & Htx & _ & _ & Hlen). world.
    destruct (is_not_found e); apply runs_ret;
      (apply runs_bind; apply runs_external; rewrite Hlen;
       [intros e' E; congruence|intros _; world; rewrite Htx; world;
        apply runs_ret; world; split; reflexivity]).
  - intros H404.
    change (runs (delete_carousel_rethrow env id_param) w
              (fun r w' => r = Val deletion_processed /\ db w' = without image_id (db w))).
    apply (delete_reaches_cleanup _ id_param image_id row); try assumption.
    apply runs_try_catch. apply runs_bind. rewrite Hblob.
    unfold blob_cleanup_rethrow. apply runs_try_catch.
    eapply runs_weaken; [apply Hblock; world; [reflexivity|lia]|].
    intros r w5 (-> & Hdb & Htx & _ & _ & Hlen). world. rewrite H404.
    apply runs_ret. apply runs_bind. apply runs_external; rewrite Hlen;
      [intros e' E; congruence|intros _; world; rewrite Htx; world].
    apply runs_ret; world; split; reflexivity.
  - intros Hother.
    change (runs (delete_carousel_rethrow env id_param) w
              (fun r w' => r = Val (deletion_failed e) /\ db w' = db w)).
    apply (delete_reaches_cleanup _ id_param image_id row); try assumption.
    apply runs_try_catch. apply runs_bind. rewrite Hblob.
    unfold blob_cleanup_rethrow. apply runs_try_catch.
    eapply runs_weaken; [apply Hblock; world; [reflexivity|lia]|].
    intros r w5 (-> & Hdb & Htx & _ & _ & Hlen). world.
    rewrite Hother.
    apply runs_throw; apply rollback_runs; rewrite Hlen;
      [intros e' E; congruence|]. intros _; world; now split.
Qed.

End Remove.

(** C1 as stated fails on server.js: with the blob service answering 503 to
    [head] (call 4 of the request), the deletion of the banner is committed
    and answered 200; the row is not kept and no error is reported. *)
Lemma remove_commits_despite_blob_error :
  let env := with_fault 4 service_unavailable calm in
  let out := handle env (admin_delete "1") world_with_banner in
  is_not_found service_unavailable = false
  /\ fst out = Val deletion_processed
  /\ carousel_images (db (snd out)) = []
  /\ ~ (In banner (carousel_images (db (snd out)))
        /\ exists res, fst out = Val res /\ status res = 500).
Proof.
  vm_compute. repeat split; try reflexivity. intros [[] _].
Qed.

Lemma remove_blob_failure_witness :
  let w := world_without_blob in
  (fst (handle calm (admin_delete "1") w) = Val deletion_processed
   /\ db (snd (handle calm (admin_delete "1") w)) = without 1 (db w))
  /\ (status_is 404 BlobNotFound = true ->
      fst (delete_carousel_rethrow calm "1" w) = Val deletion_processed
      /\ db (snd (delete_carousel_rethrow calm "1" w)) = without 1 (db w))
  /\ (status_is 404 BlobNotFound = false ->
      fst (delete_carousel_rethrow calm "1" w) = Val (deletion_failed BlobNotFound)
      /\ db (snd (delete_carousel_rethrow calm "1" w)) = db w)
  /\ (fault calm 4 = None -> blobs w !! image_url banner = None ->
      fst (delete_carousel_rethrow calm "1" w) = Val (deletion_failed BlobNotFound)
      /\ In banner (carousel_images (db (snd (delete_carousel_rethrow calm "1" w))))).
Proof.
  exact (remove_blob_failure calm (admin_delete "1") "1" 1 banner world_without_blob
           BlobNotFound 1 eq_refl eq_refl eq_refl eq_refl eq_refl eq_refl eq_refl
           (fun i _ => eq_refl)
           (or_intror (or_introl (conj eq_refl (conj eq_refl (conj eq_refl eq_refl)))))
           eq_refl).
Defined.

(** ** Carousel: the order of display *)

Section Ordering.

Import Sql.

(** [row_leb] spelled out: display_order ascending, NULL last, ties broken
    by id ascending. *)
Lemma row_leb_spec (a b : CarouselImage) :
  row_leb a b = true <->
  match display_order a, display_order b with
  | Some x, Some y => x < y \/ (x = y /\ id a <= id b)
  | Some _, None => True
  | None, Some _ => False
  | None, None => id a <= id b
  end.
Proof.
  unfold row_leb. destruct (display_order a) as [x|], (display_order b) as [y|].
  - rewrite orb_true_iff, andb_true_iff, Z.ltb_lt, Z.eqb_eq, Z.leb_le. tauto.
  - tauto.
  - split; [discriminate|tauto].
  - apply Z.leb_le.
Qed.

Lemma row_leb_total (a b : CarouselImage) :
  row_leb a b = false -> row_leb b a = true.
Proof.
  intros Hab. apply row_leb_spec. apply not_true_iff_false in Hab.
  rewrite row_leb_spec in Hab.
  destruct (display_order a) as [x|], (display_order b) as [y|]; try tauto; lia.
Qed.

Lemma row_leb_trans (a b c : CarouselImage) :
  row_leb a b = true -> row_leb b c = true -> row_leb a c = true.
Proof.
  rewrite !row_leb_spec.
  destruct (display_order a) as [x|], (display_order b) as [y|],
    (display_order c) as [z|]; try tauto; lia.
Qed.

Lemma insert_sorted_perm (r : CarouselImage) (rows : list CarouselImage) :
  Permutation (r :: rows) (insert_sorted r rows).
Proof.
  induction rows as [|x rows IH]; cbn [insert_sorted]; [reflexivity|].
  destruct (row_leb r x); [reflexivity|].
  rewrite perm_swap. now apply perm_skip.
Qed.

Lemma order_by_display_perm (rows : list CarouselImage) :
  Permutation rows (order_by_display rows).
Proof.
  induction rows as [|r rows IH]; cbn [order_by_display]; [reflexivity|].
  rewrite <- insert_sorted_perm. now apply perm_skip.
Qed.

Lemma insert_sorted_sorted (r : CarouselImage) (rows : list CarouselImage) :
  StronglySorted (fun a b => row_leb a b = true) rows ->
  StronglySorted (fun a b => row_leb a b = true) (insert_sorted r rows).
Proof.
  induction 1 as [|x rows Hs IH Hx]; cbn [insert_sorted].
  - repeat constructor.
  - destruct (row_leb r x) eqn:E.
    + constructor; [now constructor|]. constructor; [assumption|].
      eapply Forall_impl; [exact Hx|]. intros y. now apply row_leb_trans.
    + constructor; [assumption|].
      apply (Permutation_Forall (insert_sorted_perm r rows)).
      constructor; [now apply row_leb_total|assumption].
Qed.

Lemma order_by_display_sorted (rows : list CarouselImage) :
  StronglySorted (fun a b => row_leb a b = true) (order_by_display rows).
Proof.
  induction rows as [|r rows IH]; cbn [order_by_display]; [constructor|].
  now apply insert_sorted_sorted.
Qed.

(** Inserting below every row puts the new row first. *)
Lemma insert_sorted_first (r : CarouselImage) (rows : list CarouselImage) :
  Forall (fun y => row_leb r y = true) rows -> insert_sorted r rows = r :: rows.
Proof. destruct 1 as [|y rows Hy _]; cbn [insert_sorted]; [|rewrite Hy]; reflexivity. Qed.

Lemma insert_sorted_before (r y : CarouselImage) (l rest : list CarouselImage) :
  row_leb r y = true ->
  insert_sorted r (l ++ y :: rest) = insert_sorted r l ++ y :: rest.
Proof.
  intros Hy. induction l as [|x l IH]; cbn [insert_sorted app]; [now rewrite Hy|].
  destruct (row_leb r x); [reflexivity|]. now rewrite IH.
Qed.

Lemma insert_sorted_after (r : CarouselImage) (l rest : list CarouselImage) :
  Forall (fun x => row_leb r x = false) l ->
  insert_sorted r (l ++ rest) = l ++ insert_sorted r rest.
Proof.
  induction 1 as [|x l Hx _ IH]; cbn [insert_sorted app]; [reflexivity|].
  now rewrite Hx, IH.
Qed.

(** Listing commutes with the deletion of rows: what remains keeps its
    relative order. *)
Lemma filter_insert_drop (p : CarouselImage -> bool) (r : CarouselImage)
    (rows : list CarouselImage) :
  p r = false -> List.filter p (insert_sorted r rows) = List.filter p rows.
Proof.
  intros Hr. induction rows as [|x rows IH]; cbn [insert_sorted List.filter].
  - now rewrite Hr.
  - destruct (row_leb r x); cbn [List.filter]; [now rewrite Hr|]. now rewrite IH.
Qed.

Lemma filter_insert_keep (p : CarouselImage -> bool) (r : CarouselImage)
    (rows : list CarouselImage) :
  StronglySorted (fun a b => row_leb a b = true) rows ->
  p r = true ->
  insert_sorted r (List.filter p rows) = List.filter p (insert_sorted r rows).
Proof.
  intros Hs Hr. induction Hs as [|x rows Hs IH Hx]; cbn [insert_sorted List.filter].
  - now rewrite Hr.
  - destruct (row_leb r x) eqn:E.
    + cbn [List.filter]. rewrite Hr. apply insert_sorted_first.
      assert (Hall : Forall (fun y => row_leb r y = true) (x :: rows)).
      { constructor; [assumption|]. eapply Forall_impl; [exact Hx|].
        intros y. now apply row_leb_trans. }
      change (Forall (fun y => row_leb r y = true) (List.filter p (x :: rows))).
      apply List.Forall_forall. intros y Hy. apply List.filter_In in Hy as [Hy _].
      revert y Hy. apply List.Forall_forall. exact Hall.
    + cbn [List.filter]. destruct (p x); cbn [insert_sorted]; [|exact IH].
      now rewrite E, IH.
Qed.

Lemma order_by_display_filter (p : CarouselImage -> bool) (rows : list CarouselImage) :
  order_by_display (List.filter p rows) = List.filter p (order_by_display rows).
Proof.
  induction rows as [|r rows IH]; cbn [List.filter order_by_display]; [reflexivity|].
  destruct (p r) eqn:E; cbn [order_by_display].
  - rewrite IH. apply filter_insert_keep; [apply order_by_display_sorted|assumption].
  - rewrite IH. symmetry. now apply filter_insert_drop.
Qed.

(** MAX(display_order): a value some row has and no row exceeds, or NULL
    when no row has a display order. *)
Lemma max_display_order_spec (rows : list CarouselImage) :
  match max_display_order rows with
  | Some m => (exists r, In r rows /\ display_order r = Some m)
              /\ forall r d, In r rows -> display_order r = Some d -> d <= m
  | None => forall r, In r rows -> display_order r = None
  end.
Proof.
  induction rows as [|x rows IH]; cbn [max_display_order]; [intros r []|].
  destruct (display_order x) as [dx|] eqn:Ex, (max_display_order rows) as [m|].
  - destruct IH as [(r & Hr & Hd) Hmax]. split.
    + destruct (Z.max_spec dx m) as [[_ ->]|[_ ->]];
        [exists r; split; [now right|assumption] | exists x; split; [now left|assumption]].
    + intros r' d [<-|Hin] Hd'; [|specialize (Hmax r' d Hin Hd')]; [|lia].
      rewrite Ex in Hd'. injection Hd' as <-. lia.
  - split; [exists x; split; [now left|assumption]|].
    intros r d [<-|Hin] Hd; [rewrite Ex in Hd; injection Hd as <-; lia|].
    rewrite (IH r Hin) in Hd. discriminate.
  - destruct IH as [(r & Hr & Hd) Hmax]. split; [exists r; split; [now right|assumption]|].
    intros r' d [<-|Hin] Hd'; [congruence|]. now apply (Hmax r').
  - intros r [<-|Hin]; [assumption|]. now apply IH.
Qed.

End Ordering.

(** ** What a request can do to the carousel table *)

Section Frame.

Context `{Platform} (env : Env).

Lemma preserves_runs {A} (I : World -> Prop) (m : M A) (w : World) :
  preserves I m -> I w -> runs m w (fun _ w' => I w').
Proof. intros Hm Hw. exact (Hm w Hw). Qed.

(** Steps through a handler that only issues calls that keep [I]. *)
Ltac frame_step :=
  match goal with
  | |- preserves _ (ret _) => apply preserves_ret
  | |- preserves _ (throw _) => apply preserves_throw
  | |- preserves _ (template _) => apply preserves_template
  | |- preserves _ (uri_component _) => apply preserves_uri_component
  | |- preserves _ (bind _ _) => apply preserves_bind; [|intros ?]
  | |- preserves _ (try_catch _ _) => apply preserves_try_catch; [|intros ?]
  | |- preserves _ (try_finally _ _) => apply preserves_try_finally
  | |- preserves _ (for_each _ _) => apply preserves_for_each; intros ?
  | |- preserves _ (if ?b then _ else _) => destruct b
  | |- preserves _ (match ?x with _ => _ end) => destruct x
  | |- preserves _ (let (_, _) := ?x in _) => destruct x
  end.

(** *** Calls that keep an invariant on the committed tables *)

Lemma pool_select_committed {A} (P : Tables -> Prop) (s : stmt) (run : Tables -> A) :
  preserves (committed P) (pool_query env s (fun t => (Val (run t), t))).
Proof.
  unfold pool_query. apply preserves_external; unfold committed; intros w Hw; world; auto.
Qed.

Lemma blob_put_committed (P : Tables -> Prop) (pathname content : string) :
  preserves (committed P) (blob_put env pathname content).
Proof.
  unfold blob_put. apply preserves_external; unfold committed; intros w Hw; world; auto.
Qed.

Lemma session_destroy_committed (P : Tables -> Prop) (sid : string) :
  preserves (committed P) (session_destroy env sid).
Proof.
  unfold session_destroy. apply preserves_external; unfold committed; intros w Hw; world; auto.
Qed.

Lemma session_regenerate_committed (P : Tables -> Prop) (sid : string) :
  preserves (committed P) (session_regenerate env sid).
Proof.
  unfold session_regenerate. apply preserves_external; unfold committed; intros w Hw; world; auto.
Qed.

Lemma session_save_committed (P : Tables -> Prop) (s : Session) :
  preserves (committed P) (session_save env s).
Proof.
  unfold session_save. apply preserves_external; unfold committed; intros w Hw; world; auto.
Qed.

Lemma sendMail_committed (P : Tables -> Prop) (recipient : string) :
  preserves (committed P) (sendMail env recipient).
Proof.
  unfold sendMail. apply preserves_external; unfold committed; intros w Hw; world; auto.
Qed.

(** *** Calls that keep an invariant on the committed tables and on the
    open transaction *)

Lemma tables_inv_working (P : Tables -> Prop) (w : World) :
  tables_inv P w -> P (working w).
Proof.
  intros [Hdb Htx]. unfold working. destruct (txn w) as [t|]; [now apply Htx|exact Hdb].
Qed.

Lemma tables_inv_log (P : Tables -> Prop) (ev : event) (w : World) :
  tables_inv P w -> tables_inv P (log ev w).
Proof. exact (fun i => i). Qed.

Lemma tables_inv_close (P : Tables -> Prop) (w : World) :
  tables_inv P w -> tables_inv P (set_txn None w).
Proof. intros [Hdb _]. split; [exact Hdb|discriminate]. Qed.

Lemma tables_inv_set_working (P : Tables -> Prop) (t : Tables) (w : World) :
  tables_inv P w -> P t -> tables_inv P (set_working t w).
Proof.
  intros [Hdb Htx] Ht. unfold set_working. destruct (txn w) as [t0|] eqn:E; split; world;
    auto; try discriminate.
  - intros t' E'. now injection E' as <-.
  - intros t' E'. rewrite E in E'. discriminate.
Qed.

Lemma db_connect_inv (P : Tables -> Prop) : preserves (tables_inv P) (db_connect env).
Proof.
  unfold db_connect. apply preserves_external; intros w Hw; [exact Hw|].
  now apply tables_inv_close.
Qed.

Lemma sql_begin_inv (P : Tables -> Prop) : preserves (tables_inv P) (sql_begin env).
Proof.
  unfold sql_begin. apply preserves_external; intros w Hw; [exact Hw|].
  cbv beta; cbn [snd]. split; [exact (proj1 Hw)|]. cbn [set_txn txn].
  intros t E. injection E as <-. now apply tables_inv_working.
Qed.

Lemma sql_commit_inv (P : Tables -> Prop) : preserves (tables_inv P) (sql_commit env).
Proof.
  unfold sql_commit. apply preserves_external; intros w Hw; [exact Hw|].
  cbv beta; cbn [snd]. split; [|discriminate]. cbn [set_txn set_db db].
  now apply tables_inv_working.
Qed.

Lemma sql_rollback_inv (P : Tables -> Prop) : preserves (tables_inv P) (sql_rollback env).
Proof.
  unfold sql_rollback. apply preserves_external; intros w Hw; [exact Hw|].
  now apply tables_inv_close.
Qed.

Lemma client_release_inv (P : Tables -> Prop) (w : World) :
  tables_inv P w -> tables_inv P (client_release w).
Proof. exact (fun i => i). Qed.

Lemma client_query_inv {A} (P : Tables -> Prop) (s : stmt)
    (run : Tables -> Result A * Tables) :
  (forall t, P t -> P (snd (run t))) ->
  preserves (tables_inv P) (client_query env s run).
Proof.
  intros Hrun. unfold client_query. apply preserves_external; intros w Hw; [exact Hw|].
  pose proof (Hrun _ (tables_inv_working P w Hw)) as Ht.
  destruct (run (working w)) as [r t]. cbn [snd] in *.
  now apply tables_inv_set_working.
Qed.

Lemma blob_head_inv (P : Tables -> Prop) (url : string) :
  preserves (tables_inv P) (blob_head env url).
Proof.
  unfold blob_head. apply preserves_external; intros w Hw; [exact Hw|].
  cbn [blobs log]. now destruct (blobs w !! url).
Qed.

Lemma blob_del_inv (P : Tables -> Prop) (url : string) :
  preserves (tables_inv P) (blob_del env url).
Proof. unfold blob_del. apply preserves_external; intros w Hw; exact Hw. Qed.

(** *** The handlers that leave the carousel table alone *)

Lemma login_frame (P : Tables -> Prop) (req : Request) : preserves (committed P) (login env req).
Proof.
  unfold login.
  repeat frame_step;
    auto using pool_select_committed, session_regenerate_committed,
               session_save_committed.
Qed.


Lemma logout_frame (P : Tables -> Prop) (req : Request) : preserves (committed P) (logout env req).
Proof.
  unfold logout. repeat frame_step; auto using session_destroy_committed.
Qed.

Lemma get_settings_frame (P : Tables -> Prop) : preserves (committed P) (get_settings env).
Proof.
  unfold get_settings. repeat frame_step; auto using pool_select_committed.
Qed.

Lemma get_carousel_frame (P : Tables -> Prop) : preserves (committed P) (get_carousel env).
Proof.
  unfold get_carousel. repeat frame_step; auto using pool_select_committed.
Qed.

Lemma upload_frame (P : Tables -> Prop) (field entity : string) (req : Request) :
  preserves (committed P)
    (file <- multer_single field req ;; createUploadHandler env entity file).
Proof.
  unfold multer_single, createUploadHandler.
  repeat frame_step; auto using blob_put_committed.
Qed.

Lemma submit_contact_frame (P : Tables -> Prop) (req : Request) :
  preserves (committed P) (submit_contact env req).
Proof.
  unfold submit_contact.
  repeat frame_step; auto using pool_select_committed, sendMail_committed.
Qed.

Lemma checkAuth_frame (I : World -> Prop) (req : Request) (next : M Response) :
  preserves I next -> preserves I (checkAuth req next).
Proof. intros Hn. unfold checkAuth. repeat frame_step. exact Hn. Qed.

Lemma upsert_keeps_rows (name value : string) (t : Tables) :
  carousel_images (Sql.upsert_setting name value t) = carousel_images t.
Proof. reflexivity. Qed.

(** POST /api/settings: its transaction never holds other carousel rows
    than the committed ones. *)
Lemma post_settings_frame (R : list CarouselImage) (req : Request) :
  preserves (committed (fun t => carousel_images t = R)) (post_settings env req).
Proof.
  intros w HR. unfold post_settings.
  destruct (negb (truthy (prop "settings" (body req)))
            || negb (typeof_object (prop "settings" (body req)))); [exact HR|].
  set (P := fun t => carousel_images t = R) in *.
  match goal with
  | |- committed P (snd (bind ?m ?k w)) =>
      change (runs (bind m k) w (fun _ w' => committed P w'))
  end.
  apply runs_bind. apply runs_external; [intros; exact HR|]. intros _. world.
  eapply runs_weaken.
  - apply (preserves_runs (tables_inv P)); [|split; [exact HR|discriminate]].
    repeat frame_step;
      auto using sql_begin_inv, sql_commit_inv, sql_rollback_inv, client_release_inv.
    apply client_query_inv. intros t Ht. exact Ht.
  - intros _ w' [Hdb _]. exact Hdb.
Qed.


Lemma without_idem (image_id : Z) (t : Tables) :
  without image_id (without image_id t) = without image_id t.
Proof.
  unfold without, Sql.set_carousel. cbn [carousel_images carousel_id_seq settings users].
  f_equal. induction (carousel_images t) as [|r rows IH]; [reflexivity|].
  cbn [List.filter]. destruct (negb (Sql.has_id image_id r)) eqn:E; [|exact IH].
  cbn [List.filter]. now rewrite E, IH.
Qed.

Lemma delete_statement (image_id : Z) (t : Tables) :
  snd (Sql.delete_carousel_image image_id t) = t
  \/ snd (Sql.delete_carousel_image image_id t) = without image_id t.
Proof.
  unfold Sql.delete_carousel_image. destruct (Sql.int4 image_id); [right|left]; reflexivity.
Qed.

(** DELETE /api/carousel/:id, whatever fails: the committed tables are
    unchanged, or they lost the rows with that id and nothing else. *)
Lemma delete_frame (cleanup : string -> M unit) (id_param : string) (w : World) :
  (forall P url, preserves (tables_inv P) (cleanup url)) ->
  let w' := snd (delete_carousel_with env cleanup id_param w) in
  db w' = db w
  \/ exists image_id, parseInt id_param = Some image_id
                      /\ db w' = without image_id (db w).
Proof.
  intros Hcleanup. unfold delete_carousel_with.
  destruct (parseInt id_param) as [image_id|]; [|now left].
  set (P := fun t => t = db w \/ t = without image_id (db w)).
  match goal with
  | |- db (snd ?out) = _ \/ _ => enough (Hc : committed P (snd out))
  end.
  { destruct Hc as [E|E]; [now left|right; eauto]. }
  match goal with
  | |- committed P (snd (bind ?m ?k w)) =>
      change (runs (bind m k) w (fun _ w' => committed P w'))
  end.
  apply runs_bind. apply runs_external; [intros; now left|]. intros _. world.
  eapply runs_weaken.
  - apply (preserves_runs (tables_inv P)); [|split; [now left|discriminate]].
    repeat frame_step;
      auto using sql_begin_inv, sql_commit_inv, sql_rollback_inv, client_release_inv.
    + apply client_query_inv. intros t Ht. unfold Sql.select_image_url.
      now destruct (Sql.int4 image_id).
    + apply client_query_inv. intros t Ht.
      destruct (delete_statement image_id t) as [E|E]; rewrite E; [exact Ht|].
      destruct Ht as [->| ->]; unfold P; rewrite ?without_idem; auto.
  - intros _ w' [Hdb _]. exact Hdb.
Qed.

Lemma blob_cleanup_inv (P : Tables -> Prop) (url : string) :
  preserves (tables_inv P) (blob_cleanup env url).
Proof.
  unfold blob_cleanup. repeat frame_step; auto using blob_head_inv, blob_del_inv.
Qed.

Lemma blob_cleanup_rethrow_inv (P : Tables -> Prop) (url : string) :
  preserves (tables_inv P) (blob_cleanup_rethrow env url).
Proof.
  unfold blob_cleanup_rethrow. repeat frame_step; auto using blob_head_inv, blob_del_inv.
Qed.

(** POST /api/carousel, whatever fails: nothing is committed or exactly the
    new row is appended; and when the upload and the INSERT get through and
    the new id and display order fit INTEGER, the row is appended and
    answered with 201. *)
Lemma post_carousel_runs (req : Request) (f : Upload) (w : World) :
  let n := List.length (trace w) in
  let row := inserted_row env req f (db w) in
  let added := Sql.set_carousel (carousel_images (db w) ++ [row])
                                (carousel_id_seq (db w) + 1) (db w) in
  runs (post_carousel env req (Some f)) w (fun r w' =>
    ((carousel_images (db w') = carousel_images (db w)
      /\ settings (db w') = settings (db w) /\ users (db w') = users (db w))
     \/ db w' = added)
    /\ (calls_ok env n (n + 2) ->
        Sql.int4 (carousel_id_seq (db w)) = true ->
        Sql.int4 (Sql.next_display_order (db w)) = true ->
        r = Val (image_added row) /\ db w' = added
        /\ blobs w' = <[image_url row := buffer f]> (blobs w)
        /\ sessions w' = sessions w
        /\ List.length (trace w') = (n + 2)%nat)).
Proof.
  intros n row added. unfold post_carousel.
  apply runs_try_catch. apply runs_bind. apply runs_external; fold n.
  { intros e E. apply runs_ret. split; [now left|].
    intros Hok. rewrite Hok in E by lia. discriminate. }
  intros E0. world. apply runs_bind. apply runs_external; world; fold n.
  { intros e E. apply runs_ret. world. split; [now left|].
    intros Hok. rewrite Hok in E by lia. discriminate. }
  intros E1. unfold Sql.insert_carousel.
  destruct (Sql.int4 (carousel_id_seq (db w))) eqn:Ei;
    [destruct (Sql.int4 (Sql.next_display_order (db w))) eqn:Er|]; world.
  - apply runs_ret. world. split; [now right|]. intros _ _ _.
    repeat split; reflexivity || lia.
  - apply runs_ret. world. split; [now left|]. intros _ _ H2. discriminate.
  - apply runs_ret. world. split; [now left|]. intros _ H1. discriminate.
Qed.

End Frame.

(** ** Carousel: the ordering invariant *)

Section Carousel.

Context `{Platform} (env : Env).

Import Sql.

(** Whatever the request and whatever fails, the carousel table afterwards
    is the table before, or the table before with the row of this request
    appended, or the table before without the rows of one id: no row that
    stays is changed. *)
Lemma handle_keeps_rows (req : Request) (w : World) :
  let rows := carousel_images (db w) in
  let rows' := carousel_images (db (snd (handle env req w))) in
  rows' = rows
  \/ (exists row, rows' = rows ++ [row]
                  /\ display_order row = Some (next_display_order (db w)))
  \/ (exists image_id, rows' = List.filter (fun r => negb (has_id image_id r)) rows).
Proof.
  intros rows rows'. subst rows'.
  set (P := fun t => carousel_images t = rows).
  assert (Hsame : forall m : M Response, preserves (committed P) m ->
                  carousel_images (db (snd (m w))) = rows).
  { intros m Hm. now apply (Hm w). }
  unfold handle. destruct (req_method req).
  - left.
    repeat match goal with
           | |- context [if ?b then _ else _] => destruct b
           end;
      apply Hsame;
      auto using preserves_ret, checkAuth_frame, get_settings_frame, get_carousel_frame.
  - repeat match goal with
           | |- context [if route ?a ?b then _ else _] => destruct (route a b)
           end;
      try (left; apply Hsame;
           auto using preserves_ret, checkAuth_frame, login_frame, logout_frame,
                      upload_frame, submit_contact_frame; fail);
      try (left; apply Hsame, checkAuth_frame, post_settings_frame; fail).
    unfold checkAuth.
    destruct (is_authenticated req);
      [|left; now destruct (startsWith (originalUrl req) "/api/")].
    unfold multer_single.
    destruct (upload req) as [f|]; [|now left].
    destruct (String.eqb (fieldname f) "carouselImage"); [|now left].
    change ((file <- ret (Some f) ;; post_carousel env req file) w)
      with (post_carousel env req (Some f) w).
    destruct (post_carousel_runs env req f w) as [[(E & _)|E] _]; rewrite E; [now left|].
    right; left. eexists; split; reflexivity.
  - destruct (carousel_id_param (path_of (originalUrl req))) as [id_param|];
      [|left; now destruct (carousel_segment (path_of (originalUrl req)))].
    unfold checkAuth.
    destruct (is_authenticated req);
      [|left; now destruct (startsWith (originalUrl req) "/api/")].
    destruct (delete_frame env (blob_cleanup env) id_param w) as [E|(i & _ & E)].
    + intros P' url. apply blob_cleanup_inv.
    + left. unfold delete_carousel. now rewrite E.
    + right; right. exists i. unfold delete_carousel. now rewrite E.
Qed.


Lemma handle_post_carousel (s : Session) (f : Upload) (fields : jsval) (w : World) :
  authenticated s = true -> fieldname f = "carouselImage" ->
  handle env (post_carousel_request s f fields) w
  = post_carousel env (post_carousel_request s f fields) (Some f) w.
Proof.
  intros Hs Hf. unfold handle. cbn [req_method originalUrl post_carousel_request].
  change (path_of "/api/carousel") with "/api/carousel". routes.
  rewrite checkAuth_granted by exact Hs.
  unfold bind, multer_single. cbn [upload post_carousel_request]. rewrite Hf. reflexivity.
Qed.

(** Every insert assigns MAX(display_order) + 1, and 1 when no row has a
    display order. *)
Lemma insert_assigns_next (s : Session) (f : Upload) (fields : jsval) (w : World) :
  authenticated s = true -> fieldname f = "carouselImage" ->
  calls_ok env (List.length (trace w)) (List.length (trace w) + 2) ->
  int4 (carousel_id_seq (db w)) = true ->
  int4 (next_display_order (db w)) = true ->
  let req := post_carousel_request s f fields in
  let row := inserted_row env req f (db w) in
  fst (handle env req w) = Val (image_added row)
  /\ db (snd (handle env req w))
     = set_carousel (carousel_images (db w) ++ [row]) (carousel_id_seq (db w) + 1) (db w)
  /\ display_order row = Some (next_display_order (db w))
  /\ match max_display_order (carousel_images (db w)) with
     | Some m => next_display_order (db w) = m + 1
     | None => next_display_order (db w) = 1
     end.
Proof.
  intros Hs Hf Hok Hid Hord req row.
  unfold req. rewrite (handle_post_carousel s f fields w Hs Hf). fold req.
  destruct (post_carousel_runs env req f w) as [_ Hrun].
  destruct (Hrun Hok Hid Hord) as (Hr & Hdb & _).
  split; [exact Hr|]. split; [exact Hdb|]. split; [reflexivity|].
  unfold next_display_order. now destruct (max_display_order (carousel_images (db w))).
Qed.

Lemma max_display_order_last (rows : list CarouselImage) (r : CarouselImage) (d : Z) :
  display_order r = Some d ->
  (forall r' d', In r' rows -> display_order r' = Some d' -> d' <= d) ->
  max_display_order (rows ++ [r]) = Some d.
Proof.
  intros Hr. induction rows as [|x rows IH]; intros Hle; cbn [app max_display_order].
  - now rewrite Hr.
  - rewrite IH by (intros r' d' Hin; apply Hle; now right).
    destruct (display_order x) as [dx|] eqn:Ex; [|reflexivity].
    f_equal. specialize (Hle x dx (or_introl eq_refl) Ex). lia.
Qed.

(** The display order after an insert is one more than before it. *)
Lemma next_display_order_added (t : Tables) (r : CarouselImage) (seq : Z) :
  display_order r = Some (next_display_order t) ->
  next_display_order (set_carousel (carousel_images t ++ [r]) seq t)
  = next_display_order t + 1.
Proof.
  intros Hr. unfold next_display_order at 1. cbn [set_carousel carousel_images].
  rewrite (max_display_order_last _ r _ Hr); [reflexivity|].
  intros r' d' Hin Hd. unfold next_display_order.
  pose proof (max_display_order_spec (carousel_images t)) as Hmax.
  destruct (max_display_order (carousel_images t)) as [m|].
  - destruct Hmax as [_ Hmax]. specialize (Hmax r' d' Hin Hd). cbn. lia.
  - rewrite (Hmax r' Hin) in Hd. discriminate.
Qed.

(** Three rows with consecutive display orders above every other one are
    listed side by side, in the order of their insertion: after the rows
    that have a display order, before those that have none. *)
Lemma order_three (rows : list CarouselImage) (A B C : CarouselImage) (a : Z) :
  display_order A = Some a -> display_order B = Some (a + 1) ->
  display_order C = Some (a + 2) ->
  (forall r d, In r rows -> display_order r = Some d -> d < a) ->
  exists before after,
    order_by_display (rows ++ [A; B; C]) = before ++ [A; B; C] ++ after
    /\ Permutation (before ++ after) rows
    /\ Forall (fun r => is_Some (display_order r)) before
    /\ Forall (fun r => display_order r = None) after.
Proof.
  intros HA HB HC. induction rows as [|x rows IH]; intros Hlt.
  - exists [], []. split; [|split; [reflexivity|split; constructor]].
    assert (row_leb B C = true) as HBC by (apply row_leb_spec; rewrite HB, HC; lia).
    assert (row_leb A B = true) as HAB by (apply row_leb_spec; rewrite HA, HB; lia).
    cbn [app order_by_display insert_sorted]. rewrite HBC.
    cbn [insert_sorted]. now rewrite HAB.
  - destruct IH as (before & after & Hsort & Hperm & Hsome & Hnull).
    { intros r d Hin. apply Hlt. now right. }
    cbn [app order_by_display]. rewrite Hsort.
    destruct (display_order x) as [dx|] eqn:Ex.
    + exists (insert_sorted x before), after.
      split; [|split; [|split; [|exact Hnull]]].
      * cbn [app]. apply insert_sorted_before. apply row_leb_spec.
        rewrite Ex, HA. specialize (Hlt x dx (or_introl eq_refl) Ex). lia.
      * rewrite <- insert_sorted_perm. cbn [app]. now apply perm_skip.
      * apply (Permutation_Forall (insert_sorted_perm x before)).
        constructor; [rewrite Ex; eauto|assumption].
    + exists before, (insert_sorted x after).
      split; [|split; [|split; [exact Hsome|]]].
      * rewrite app_assoc, insert_sorted_after, <- app_assoc; [reflexivity|].
        apply Forall_app. split.
        -- eapply Forall_impl; [exact Hsome|]. intros y [dy Hy].
           apply not_true_iff_false. rewrite row_leb_spec, Ex, Hy. tauto.
        -- repeat constructor; apply not_true_iff_false; rewrite row_leb_spec, Ex;
             rewrite ?HA, ?HB, ?HC; tauto.
      * rewrite <- insert_sorted_perm. rewrite <- Permutation_middle.
        now apply perm_skip.
      * apply (Permutation_Forall (insert_sorted_perm x after)).
        constructor; assumption.
Qed.


Lemma faultless_calls_ok (lo hi : nat) : faultless env -> calls_ok env lo hi.
Proof. intros Hcalm i _. apply Hcalm. Qed.

(** The block of server.js never throws and leaves the database alone. *)
Lemma blob_cleanup_runs (url : string) (w : World) :
  runs (blob_cleanup env url) w (fun r w' =>
    r = Val tt /\ db w' = db w /\ txn w' = txn w /\ sessions w' = sessions w).
Proof.
  unfold blob_cleanup. apply runs_try_catch. apply runs_bind. apply runs_external.
  - intros e _. destruct (is_not_found e); apply runs_ret; now repeat split.
  - intros _. world. destruct (blobs w !! url); world.
    + apply runs_external; world.
      * intros e _. destruct (is_not_found e); apply runs_ret; now repeat split.
      * intros _. now repeat split.
    + destruct (is_not_found BlobNotFound); apply runs_ret; now repeat split.
Qed.

(** DELETE /api/carousel/:id on an existing row, when no call fails (a
    missing blob included): the row is gone and the answer is 200. *)
Lemma delete_ok (req : Request) (id_param : string) (image_id : Z)
    (row : CarouselImage) (w : World) :
  faultless env ->
  req_method req = DELETE ->
  carousel_id_param (path_of (originalUrl req)) = Some id_param ->
  is_authenticated req = true ->
  parseInt id_param = Some image_id ->
  int4 image_id = true ->
  found_row image_id (db w) = Some row ->
  fst (handle env req w) = Val deletion_processed
  /\ db (snd (handle env req w)) = without image_id (db w).
Proof.
  intros Hcalm Hm Hp Ha Hid Hrange Hrow.
  rewrite (handle_delete env req id_param w Hm Hp Ha).
  change (runs (delete_carousel env id_param) w
            (fun r w' => r = Val deletion_processed /\ db w' = without image_id (db w))).
  apply (delete_reaches_cleanup env _ id_param image_id row); try assumption.
  { now apply faultless_calls_ok. }
  apply runs_try_catch. apply runs_bind.
  assert (Hrest : forall w5, txn w5 = Some (without image_id (db w)) ->
            runs (sql_commit env ;; ret deletion_processed) w5
              (fun r w1 => match r with
                           | Val a => Val a = Val deletion_processed
                                      /\ db (client_release w1) = without image_id (db w)
                           | Throw e =>
                               runs (sql_rollback env ;; ret (deletion_failed e)) w1
                                 (fun r0 w' => r0 = Val deletion_processed
                                               /\ db (client_release w')
                                                  = without image_id (db w))
                           end)).
  { intros w5 Htx. apply runs_bind. apply runs_external;
      [intros e E; rewrite Hcalm in E; discriminate|].
    intros _. world. rewrite Htx. world. apply runs_ret. world. now split. }
  destruct (is_blob_url (image_url row)).
  - eapply runs_weaken; [apply blob_cleanup_runs|].
    intros r w5 (-> & _ & Htx & _). world. now apply Hrest.
  - apply runs_ret. now apply Hrest.
Qed.

Lemma handle_get_carousel (req : Request) (w : World) :
  req_method req = GET -> path_of (originalUrl req) = "/api/carousel" ->
  fault env (List.length (trace w)) = None ->
  handle env req w
  = (Val (res_json 200 (VArr (List.map row_to_js (select_carousel (db w))))),
     log (EQuery SelectCarousel) w).
Proof.
  intros Hm Hp Hf. unfold handle. rewrite Hm, Hp. routes.
  unfold get_carousel, try_catch, bind, pool_query, external. rewrite Hf.
  destruct w; reflexivity.
Qed.

(** C5 (carousel ordering).  Each part is about the endpoints themselves:
    1. an insert that gets through appends a row whose display_order is
       MAX(display_order) + 1, and 1 when no row has one;
    2. whatever the request and whatever fails, the table afterwards is
       the table before, or the table before plus the row just inserted
       (with that display order), or the table before less the rows of one
       id: the rows that stay are not changed, so their display order is
       never reassigned;
    3. GET /api/carousel lists a permutation of the table sorted by
       display_order ascending (rows without one last), ties broken by id
       ascending;
    4. after the inserts of A, B, C in sequence the listing holds A, B, C
       side by side in this order (all of it, on an empty table);
    5. after the deletion of a row the listing is the listing before
       without that row: the rest keeps its relative order. *)
Theorem carousel_ordering :
  (forall (s : Session) (f : Upload) (fields : jsval) (w : World),
      authenticated s = true -> fieldname f = "carouselImage" ->
      calls_ok env (List.length (trace w)) (List.length (trace w) + 2) ->
      int4 (carousel_id_seq (db w)) = true ->
      int4 (next_display_order (db w)) = true ->
      let req := post_carousel_request s f fields in
      let row := inserted_row env req f (db w) in
      fst (handle env req w) = Val (image_added row)
      /\ carousel_images (db (snd (handle env req w))) = carousel_images (db w) ++ [row]
      /\ display_order row = Some (next_display_order (db w))
      /\ match max_display_order (carousel_images (db w)) with
         | Some m =>
             next_display_order (db w) = m + 1
             /\ (exists r, In r (carousel_images (db w)) /\ display_order r = Some m)
             /\ (forall r d, In r (carousel_images (db w)) ->
                             display_order r = Some d -> d <= m)
         | None =>
             next_display_order (db w) = 1
             /\ forall r, In r (carousel_images (db w)) -> display_order r = None
         end)
  /\ (forall (req : Request) (w : World),
        let rows := carousel_images (db w) in
        let rows' := carousel_images (db (snd (handle env req w))) in
        rows' = rows
        \/ (exists row, rows' = rows ++ [row]
                        /\ display_order row = Some (next_display_order (db w)))
        \/ (exists image_id,
               rows' = List.filter (fun r => negb (has_id image_id r)) rows))
  /\ (forall (req : Request) (w : World),
        req_method req = GET -> path_of (originalUrl req) = "/api/carousel" ->
        fault env (List.length (trace w)) = None ->
        exists listing,
          fst (handle env req w) = Val (res_json 200 (VArr (List.map row_to_js listing)))
          /\ Permutation listing (carousel_images (db w))
          /\ StronglySorted
               (fun a b =>
                  match display_order a, display_order b with
                  | Some x, Some y => x < y \/ (x = y /\ id a <= id b)
                  | Some _, None => True
                  | None, Some _ => False
                  | None, None => id a <= id b
                  end) listing)
  /\ (forall (sA sB sC : Session) (fA fB fC : Upload) (bA bB bC : jsval) (w : World),
        faultless env ->
        authenticated sA = true -> authenticated sB = true -> authenticated sC = true ->
        fieldname fA = "carouselImage" -> fieldname fB = "carouselImage" ->
        fieldname fC = "carouselImage" ->
        - INT_MAX - 1 <= carousel_id_seq (db w) ->
        carousel_id_seq (db w) + 2 <= INT_MAX ->
        - INT_MAX - 1 <= next_display_order (db w) ->
        next_display_order (db w) + 2 <= INT_MAX ->
        let reqA := post_carousel_request sA fA bA in
        let reqB := post_carousel_request sB fB bB in
        let reqC := post_carousel_request sC fC bC in
        let w1 := snd (handle env reqA w) in
        let w2 := snd (handle env reqB w1) in
        let w3 := snd (handle env reqC w2) in
        let A := inserted_row env reqA fA (db w) in
        let B := inserted_row env reqB fB (db w1) in
        let C := inserted_row env reqC fC (db w2) in
        exists before after,
          fst (handle env get_carousel_request w3)
          = Val (res_json 200
                   (VArr (List.map row_to_js (before ++ [A; B; C] ++ after))))
          /\ Permutation (before ++ after) (carousel_images (db w))
          /\ (carousel_images (db w) = [] -> before = [] /\ after = []))
  /\ (forall (s : Session) (id_param : string) (image_id : Z) (row : CarouselImage)
             (w : World),
        faultless env -> authenticated s = true ->
        carousel_id_param ("/api/carousel/" +:+ id_param) = Some id_param ->
        path_of ("/api/carousel/" +:+ id_param) = "/api/carousel/" +:+ id_param ->
        parseInt id_param = Some image_id -> int4 image_id = true ->
        found_row image_id (db w) = Some row ->
        let w' := snd (handle env (delete_carousel_request s id_param) w) in
        exists listing,
          fst (handle env get_carousel_request w)
          = Val (res_json 200 (VArr (List.map row_to_js listing)))
          /\ fst (handle env get_carousel_request w')
             = Val (res_json 200
                      (VArr (List.map row_to_js
                               (List.filter (fun r => negb (has_id image_id r)) listing))))).
Proof.
  split; [|split; [|split; [|split]]].
  - intros s f fields w Hs Hf Hok Hid Hord req row.
    destruct (insert_assigns_next s f fields w Hs Hf Hok Hid Hord)
      as (Hr & Hdb & Hd & Hnext).
    fold req row in Hr, Hdb. split; [exact Hr|]. split; [now rewrite Hdb|].
    split; [exact Hd|].
    pose proof (max_display_order_spec (carousel_images (db w))) as Hmax.
    destruct (max_display_order (carousel_images (db w))); [destruct Hmax|]; auto.
  - exact handle_keeps_rows.
  - intros req w Hm Hp Hf. rewrite (handle_get_carousel req w Hm Hp Hf).
    exists (select_carousel (db w)). split; [reflexivity|]. split.
    + symmetry. apply order_by_display_perm.
    + pose proof (order_by_display_sorted (carousel_images (db w))) as Hs.
      unfold select_carousel.
      induction Hs as [|x l Hs IH Hx]; constructor; [exact IH|].
      eapply Forall_impl; [exact Hx|]. intros b. apply row_leb_spec.
  - intros sA sB sC fA fB fC bA bB bC w Hcalm HsA HsB HsC HfA HfB HfC
      Hid1 Hid2 Hord1 Hord2 reqA reqB reqC w1 w2 w3 A B C.
    assert (Hrange : forall z lo, lo <= z -> z <= lo + 2 ->
                     - INT_MAX - 1 <= lo -> lo + 2 <= INT_MAX -> int4 z = true).
    { intros z lo ? ? ? ?. unfold int4. apply andb_true_intro.
      split; apply Z.leb_le; lia. }
    destruct (insert_assigns_next sA fA bA w HsA HfA
                (faultless_calls_ok _ _ Hcalm)) as (_ & HdbA & HdA & _).
    { apply (Hrange _ (carousel_id_seq (db w))); lia. }
    { apply (Hrange _ (next_display_order (db w))); lia. }
    fold reqA w1 A in HdbA, HdA.
    assert (HnextA : next_display_order (db w1) = next_display_order (db w) + 1).
    { rewrite HdbA. now apply next_display_order_added. }
    assert (HseqA : carousel_id_seq (db w1) = carousel_id_seq (db w) + 1)
      by now rewrite HdbA.
    destruct (insert_assigns_next sB fB bB w1 HsB HfB
                (faultless_calls_ok _ _ Hcalm)) as (_ & HdbB & HdB & _).
    { apply (Hrange _ (carousel_id_seq (db w))); lia. }
    { apply (Hrange _ (next_display_order (db w))); lia. }
    fold reqB w2 B in HdbB, HdB.
    assert (HnextB : next_display_order (db w2) = next_display_order (db w) + 2).
    { rewrite HdbB, next_display_order_added by exact HdB. lia. }
    assert (HseqB : carousel_id_seq (db w2) = carousel_id_seq (db w) + 2)
      by (rewrite HdbB; cbn; lia).
    destruct (insert_assigns_next sC fC bC w2 HsC HfC
                (faultless_calls_ok _ _ Hcalm)) as (_ & HdbC & HdC & _).
    { apply (Hrange _ (carousel_id_seq (db w))); lia. }
    { apply (Hrange _ (next_display_order (db w))); lia. }
    fold reqC w3 C in HdbC, HdC.
    rewrite (handle_get_carousel get_carousel_request w3 eq_refl eq_refl (Hcalm _)).
    assert (Hrows : carousel_images (db w3) = carousel_images (db w) ++ [A; B; C]).
    { rewrite HdbC. cbn [set_carousel carousel_images]. rewrite HdbB.
      cbn [set_carousel carousel_images]. rewrite HdbA.
      cbn [set_carousel carousel_images]. now rewrite <- !app_assoc. }
    destruct (order_three (carousel_images (db w)) A B C (next_display_order (db w)))
      as (before & after & Hsort & Hperm & _ & _).
    + exact HdA.
    + now rewrite HdB, HnextA.
    + rewrite HdC, HnextB. reflexivity.
    + intros r d Hin Hd. unfold next_display_order.
      pose proof (max_display_order_spec (carousel_images (db w))) as Hmax.
      destruct (max_display_order (carousel_images (db w))) as [m|].
      * destruct Hmax as [_ Hmax]. specialize (Hmax r d Hin Hd). cbn. lia.
      * rewrite (Hmax r Hin) in Hd. discriminate.
    + exists before, after. unfold select_carousel. rewrite Hrows, Hsort.
      split; [reflexivity|]. split; [exact Hperm|].
      intros Hempty. rewrite Hempty in Hperm. symmetry in Hperm.
      apply Permutation_nil in Hperm. now apply app_eq_nil in Hperm.
  - intros s id_param image_id row w Hcalm Hs Hparam Hpath Hid Hrange Hrow w'.
    destruct (delete_ok (delete_carousel_request s id_param) id_param image_id row w)
      as [_ Hdb]; try assumption.
    { reflexivity. }
    { cbn [originalUrl delete_carousel_request]. now rewrite Hpath. }
    fold w' in Hdb.
    exists (select_carousel (db w)).
    rewrite !(handle_get_carousel get_carousel_request _ eq_refl eq_refl (Hcalm _)).
    split; [reflexivity|]. rewrite Hdb. unfold select_carousel, without.
    cbn [set_carousel carousel_images]. now rewrite order_by_display_filter.
Qed.

End Carousel.

(** ** The contact form: WhatsApp branch *)

Section Contact.

Context `{Platform} (env : Env).

Lemma str_app_assoc (a b c : string) : (a +:+ b) +:+ c = a +:+ b +:+ c.
Proof.
  induction a as [|x a IH]; rewrite ?str_app_nil, ?str_app_cons; [reflexivity|].
  now rewrite IH.
Qed.

Lemma strip_non_digits_digits (s : string) : all_digits (strip_non_digits s) = true.
Proof.
  induction s as [|c s IH]; cbn [strip_non_digits]; [reflexivity|].
  destruct (is_digit c) eqn:E; [|exact IH]. cbn [all_digits]. now rewrite E, IH.
Qed.

(** *** Percent-encoding and its inverse *)

(** The two digits [percent_encode] writes for a byte are read back as
    that byte, and they are characters a URI component keeps. *)
Lemma hex_digits_of_byte (c : ascii) :
  let n := nat_of_ascii c in
  hex_value (hex_digit (n / 16)) = Some (n / 16)%nat
  /\ hex_value (hex_digit (n mod 16)) = Some (n mod 16)%nat
  /\ ascii_of_nat (16 * (n / 16) + n mod 16) = c
  /\ is_uri_unreserved (hex_digit (n / 16)) = true
  /\ is_uri_unreserved (hex_digit (n mod 16)) = true.
Proof. destruct c as [[] [] [] [] [] [] [] []]; vm_compute; repeat split. Qed.

Lemma unreserved_is_plain (c : ascii) :
  is_uri_unreserved c = true ->
  Ascii.eqb c "%" = false /\ utf8_tail (nat_of_ascii c) = Some []
  /\ forall range, (128 <= fst range)%nat -> in_range (nat_of_ascii c) range = false.
Proof.
  intros Hc. assert (Hn : (nat_of_ascii c < 128)%nat /\ Ascii.eqb c "%" = false).
  { revert Hc. destruct c as [[] [] [] [] [] [] [] []]; vm_compute;
      first [discriminate | intros _; split; [lia|reflexivity]]. }
  destruct Hn as [Hn Hp]. split; [exact Hp|]. split.
  - unfold utf8_tail. now apply Nat.ltb_lt in Hn as ->.
  - intros [lo hi] Hlo. unfold in_range. cbn [fst snd] in *.
    apply andb_false_iff. left. apply Nat.leb_gt. lia.
Qed.

Lemma utf8_tail_high (b : nat) (tail : list (nat * nat)) :
  utf8_tail b = Some tail -> Forall (fun range => (128 <= fst range)%nat) tail.
Proof.
  unfold utf8_tail.
  repeat match goal with
         | |- context [if ?c then _ else _] => destruct c
         end;
    intros E; try discriminate; injection E as <-;
    repeat constructor; cbn [fst]; lia.
Qed.

(** [decodeURIComponent] undoes [encodeURIComponent]. *)
Lemma percent_round_trip (s : string) : forall pending,
  Forall (fun range => (128 <= fst range)%nat) pending ->
  well_formed pending s = true ->
  percent_decode pending (percent_encode s) = Some s.
Proof.
  induction s as [|c s IH]; intros pending Hhigh Hwf.
  - destruct pending; [reflexivity|discriminate].
  - cbn [percent_encode well_formed] in *.
    destruct (hex_digits_of_byte c) as (Hh & Hl & Hc & _). cbv zeta in *.
    destruct (is_uri_unreserved c) eqn:Eun.
    + destruct (unreserved_is_plain c Eun) as (Hp & Ht & Hr).
      cbn [percent_decode]. rewrite Hp.
      destruct pending as [|range more].
      * rewrite Ht in Hwf. now rewrite (IH [] Hhigh Hwf).
      * rewrite Hr in Hwf by now inversion Hhigh. discriminate.
    + cbn [percent_decode]. change (Ascii.eqb "%" "%") with true. cbv iota.
      rewrite Hh, Hl. cbv zeta. rewrite Hc.
      replace (16 * (nat_of_ascii c / 16) + nat_of_ascii c mod 16)%nat
        with (nat_of_ascii c) by (rewrite (Nat.div_mod_eq (nat_of_ascii c) 16) at 1; lia).
      destruct pending as [|range more].
      * destruct (utf8_tail (nat_of_ascii c)) as [tail|] eqn:Et; [|discriminate].
        now rewrite (IH tail (utf8_tail_high _ _ Et) Hwf).
      * apply andb_prop in Hwf as [Hin Hwf]. rewrite Hin.
        rewrite (IH more); [reflexivity| |exact Hwf]. now inversion Hhigh.
Qed.

Lemma percent_encode_safe (s : string) : uri_safe (percent_encode s) = true.
Proof.
  induction s as [|c s IH]; [reflexivity|]. cbn [percent_encode].
  destruct (hex_digits_of_byte c) as (_ & _ & _ & Hh & Hl). cbv zeta in *.
  destruct (is_uri_unreserved c) eqn:Eun; cbn [uri_safe].
  - now rewrite Eun, IH.
  - rewrite Hh, Hl, IH. reflexivity.
Qed.

Lemma encodeURIComponent_spec (s encoded : string) :
  encodeURIComponent s = Some encoded ->
  encoded = percent_encode s /\ uri_safe encoded = true
  /\ decodeURIComponent encoded = Some s.
Proof.
  unfold encodeURIComponent, decodeURIComponent.
  destruct (well_formed [] s) eqn:Hwf; [|discriminate]. intros E; injection E as <-.
  split; [reflexivity|]. split; [apply percent_encode_safe|].
  now apply percent_round_trip.
Qed.

Lemma handle_submit_contact (req : Request) (w : World) :
  req_method req = POST -> path_of (originalUrl req) = "/api/submit-contact" ->
  handle env req w = submit_contact env req w.
Proof. intros Hm Hp. unfold handle. rewrite Hm, Hp. reflexivity. Qed.

(** The handler after its validation, on the rows it read. *)
Lemma submit_contact_whatsapp (req : Request) (w : World) :
  truthy (prop "contactName" (body req)) = true ->
  truthy (prop "contactEmail" (body req)) = true ->
  truthy (prop "contactSubject" (body req)) = true ->
  truthy (prop "contactMessage" (body req)) = true ->
  resolved_action env w = "whatsapp" ->
  submit_contact env req w
  = (match configured_number env w with
     | None => Val number_not_set
     | Some number =>
         match ToString (prop "contactName" (body req)),
               ToString (prop "contactEmail" (body req)),
               ToString (prop "contactSubject" (body req)),
               ToString (prop "contactMessage" (body req)) with
         | Some name, Some email, Some subject, Some message =>
             match encodeURIComponent (whatsappMessageBody name email subject message) with
             | Some text =>
                 Val (whatsapp_link ("https://wa.me/" +:+ strip_non_digits number
                                     +:+ "?text=" +:+ text))
             | None => Throw (URIError "URI malformed")
             end
         | _, _, _, _ => Throw (TypeError "Cannot convert object to primitive value")
         end
     end,
     log (EQuery SelectContactSettings) w).
Proof.
  intros Hn He Hs Hm Hact. unfold submit_contact. rewrite Hn, He, Hs, Hm.
  cbn [negb orb]. unfold resolved_action, configured_number, contact_rows in *.
  unfold bind, try_catch, pool_query, external, template, uri_component.
  destruct (fault env (List.length (trace w))) as [e|]; cbn [ret fst snd log db];
    rewrite Hact; cbn [String.eqb Ascii.eqb Bool.eqb];
    match goal with
    | |- context [first_truthy ?l] => destruct (first_truthy l)
    end;
    try (destruct (ToString (prop "contactName" (body req)));
         destruct (ToString (prop "contactEmail" (body req)));
         destruct (ToString (prop "contactSubject" (body req)));
         destruct (ToString (prop "contactMessage" (body req)));
         unfold ret, throw;
         try match goal with
             | |- context [encodeURIComponent ?t] => destruct (encodeURIComponent t)
             end);
    try reflexivity; destruct w; reflexivity.
Qed.

(** C8 (contact form, WhatsApp branch): for a submission with its four
    fields present, when the action resolves to [whatsapp] (settings, then
    environment, then the default):
    - without a configured number (settings, then environment) the answer
      is the 500 configuration error;
    - otherwise the four fields are converted to strings inside the
      template literal of the message (a string is taken as it is).  When
      the four conversions go through and the message is well-formed text,
      the answer is 200 with the URL [https://wa.me/<digits>?text=<encoded>],
      where [<digits>] is the configured number reduced to its digits and
      [<encoded>] is the message
      [New Contact Form Submission:\nName: <name>\nEmail: <email>\nSubject:
      <subject>\nMessage:\n<message>] in URL-encoded form: only unreserved
      characters and [%XX] escapes, which [decodeURIComponent] turns back
      into the message;
    - when a conversion throws (an object with a property [toString] of its
      own) or [encodeURIComponent] does (a lone surrogate in the message),
      the handler throws and gives no answer;
    - in every case the only external call is the SELECT of the contact
      settings: no mail is sent, and nothing stored changes. *)
Theorem contact_whatsapp (req : Request) (w : World) :
  req_method req = POST -> path_of (originalUrl req) = "/api/submit-contact" ->
  let name := prop "contactName" (body req) in
  let email := prop "contactEmail" (body req) in
  let subject := prop "contactSubject" (body req) in
  let message := prop "contactMessage" (body req) in
  truthy name = true -> truthy email = true ->
  truthy subject = true -> truthy message = true ->
  resolved_action env w = "whatsapp" ->
  let out := handle env req w in
  match configured_number env w with
  | None => fst out = Val number_not_set /\ status number_not_set = 500
  | Some number =>
      match ToString name, ToString email, ToString subject, ToString message with
      | Some n, Some e, Some s, Some m =>
          let text := "New Contact Form Submission:" +:+ nl
                      +:+ "Name: " +:+ n +:+ nl
                      +:+ "Email: " +:+ e +:+ nl
                      +:+ "Subject: " +:+ s +:+ nl
                      +:+ "Message:" +:+ nl +:+ m in
          if well_formed [] text
          then exists digits encoded,
                 fst out = Val (whatsapp_link ("https://wa.me/" +:+ digits
                                               +:+ "?text=" +:+ encoded))
                 /\ digits = strip_non_digits number /\ all_digits digits = true
                 /\ encoded = percent_encode text
                 /\ uri_safe encoded = true
                 /\ decodeURIComponent encoded = Some text
          else exists error, fst out = Throw error
      | _, _, _, _ => exists error, fst out = Throw error
      end
  end
  /\ Forall (fun field => forall s, field = VStr s -> ToString field = Some s)
            [name; email; subject; message]
  /\ trace (snd out) = trace w ++ [EQuery SelectContactSettings]
  /\ existsb is_mail (trace (snd out)) = existsb is_mail (trace w)
  /\ stored (snd out) = stored w.
Proof.
  intros Hm Hp name email subject message Hn He Hs Hmsg Hact out.
  subst out. rewrite (handle_submit_contact req w Hm Hp).
  rewrite (submit_contact_whatsapp req w Hn He Hs Hmsg Hact). cbn [fst snd].
  split; [|split; [|split; [reflexivity|split; [|reflexivity]]]].
  - destruct (configured_number env w) as [number|]; [|split; reflexivity].
    fold name email subject message.
    destruct (ToString name) as [n|]; [|eauto].
    destruct (ToString email) as [e|]; [|eauto].
    destruct (ToString subject) as [s|]; [|eauto].
    destruct (ToString message) as [m|]; [|eauto].
    cbv zeta. fold (whatsappMessageBody n e s m).
    destruct (encodeURIComponent (whatsappMessageBody n e s m)) as [encoded|] eqn:Eenc.
    + destruct (encodeURIComponent_spec _ _ Eenc) as (Hpe & Hsafe & Hdec).
      unfold encodeURIComponent in Eenc.
      destruct (well_formed [] (whatsappMessageBody n e s m)); [|discriminate].
      exists (strip_non_digits number), encoded.
      split; [reflexivity|]. split; [reflexivity|].
      split; [apply strip_non_digits_digits|]. auto.
    + unfold encodeURIComponent in Eenc.
      destruct (well_formed [] (whatsappMessageBody n e s m)); [discriminate|]. eauto.
  - repeat constructor; intros s ->; reflexivity.
  - cbn [trace log]. rewrite existsb_app. cbn [existsb is_mail]. apply orb_false_r.
Qed.

End Contact.

Lemma contact_whatsapp_witness :
  let req := contact_request (VStr "Asha") (VStr "asha@example.org")
                             (VStr "Admission") (VStr "Is grade 5 open?") in
  let out := handle whatsapp_env req empty_world in
  (exists digits encoded,
      fst out = Val (whatsapp_link ("https://wa.me/" +:+ digits +:+ "?text=" +:+ encoded))
      /\ digits = "919876543210" /\ all_digits digits = true
      /\ encoded
         = "New%20Contact%20Form%20Submission%3A%0AName%3A%20Asha%0AEmail%3A%20asha%40example.org%0ASubject%3A%20Admission%0AMessage%3A%0AIs%20grade%205%20open%3F"
      /\ uri_safe encoded = true
      /\ decodeURIComponent encoded
         = Some ("New Contact Form Submission:" +:+ nl
                 +:+ "Name: Asha" +:+ nl
                 +:+ "Email: asha@example.org" +:+ nl
                 +:+ "Subject: Admission" +:+ nl
                 +:+ "Message:" +:+ nl +:+ "Is grade 5 open?"))
  /\ Forall (fun field => forall s, field = VStr s -> ToString field = Some s)
            [VStr "Asha"; VStr "asha@example.org"; VStr "Admission";
             VStr "Is grade 5 open?"]
  /\ trace (snd out) = [EQuery SelectContactSettings]
  /\ existsb is_mail (trace (snd out)) = false
  /\ stored (snd out) = stored empty_world.
Proof.
  intros req out.
  exact (contact_whatsapp whatsapp_env req empty_world eq_refl eq_refl
           eq_refl eq_refl eq_refl eq_refl eq_refl).
Defined.

(** Two submissions with their four fields present that get no answer: the
    name is an object with a property [toString] of its own, or the message
    holds a lone surrogate. *)
Lemma contact_whatsapp_throws :
  let fields := [VObj [("toString", VNum 1)]; VStr "asha@example.org";
                 VStr "Admission"; VStr lone_surrogate] in
  forallb truthy fields = true
  /\ resolved_action whatsapp_env empty_world = "whatsapp"
  /\ configured_number whatsapp_env empty_world = Some "+91 98765-43210"
  /\ fst (handle whatsapp_env
            (contact_request (VObj [("toString", VNum 1)]) (VStr "asha@example.org")
                             (VStr "Admission") (VStr "Is grade 5 open?"))
            empty_world)
     = Throw (TypeError "Cannot convert object to primitive value")
  /\ fst (handle whatsapp_env
            (contact_request (VStr "Asha") (VStr "asha@example.org")
                             (VStr "Admission") (VStr lone_surrogate))
            empty_world)
     = Throw (URIError "URI malformed").
Proof. repeat split; reflexivity. Qed.

(** ** Logout *)

Section Logout.

Context `{Platform} (env : Env).

Lemma handle_logout (req : Request) (w : World) :
  req_method req = POST -> path_of (originalUrl req) = "/api/logout" ->
  handle env req w = logout env req w.
Proof. intros Hm Hp. unfold handle. rewrite Hm, Hp. reflexivity. Qed.

Lemma logout_session (req : Request) (s : Session) (w : World) :
  session req = Some s -> fault env (List.length (trace w)) = None ->
  logout env req w
  = (Val {| status := 200;
            res_body := Json (VObj [("message", VStr "Logout successful")]);
            clearCookie := Some "connect.sid" |},
     set_sessions (delete (sessionID s) (sessions w))
                  (log (ESessionDestroy (sessionID s)) w)).
Proof.
  intros Hs Hf. unfold logout. rewrite Hs.
  unfold try_catch, bind, session_destroy, external. now rewrite Hf.
Qed.

Lemma logout_no_session (req : Request) (w : World) :
  session req = None ->
  logout env req w
  = (Val (res_json 200 (VObj [("message", VStr "No active session to log out from.")])),
     w).
Proof. intros Hs. unfold logout. now rewrite Hs. Qed.

(** C9 (idempotent logout): when the session store does not fail, POST
    /api/logout answers 200 in every session state.  With a session, the
    session leaves the store, the cookie [connect.sid] is cleared, and the
    database and the blobs are untouched; without one nothing happens at
    all.  A second logout with no active session (no session object, or
    one that is not in the store) answers 200 again and leaves everything
    stored as the first call left it. *)
Theorem logout_idempotent (req1 req2 : Request) (w : World) :
  req_method req1 = POST -> path_of (originalUrl req1) = "/api/logout" ->
  req_method req2 = POST -> path_of (originalUrl req2) = "/api/logout" ->
  faultless env ->
  let out1 := handle env req1 w in
  let w1 := snd out1 in
  match session req2 with
  | Some s2 => sessions w1 !! sessionID s2 = None
  | None => True
  end ->
  let out2 := handle env req2 w1 in
  (exists res1, fst out1 = Val res1 /\ status res1 = 200
                /\ match session req1 with
                   | Some s1 => sessions w1 = delete (sessionID s1) (sessions w)
                                /\ sessions w1 !! sessionID s1 = None
                                /\ clearCookie res1 = Some "connect.sid"
                   | None => w1 = w
                   end)
  /\ db w1 = db w /\ blobs w1 = blobs w
  /\ (exists res2, fst out2 = Val res2 /\ status res2 = 200)
  /\ stored (snd out2) = stored w1.
Proof.
  intros Hm1 Hp1 Hm2 Hp2 Hcalm out1 w1 Hnone out2.
  subst out2 w1 out1. rewrite (handle_logout req1 w Hm1 Hp1) in *.
  rewrite (handle_logout req2 _ Hm2 Hp2).
  set (w1 := snd (logout env req1 w)) in *.
  assert (H1 : (exists res1, fst (logout env req1 w) = Val res1 /\ status res1 = 200
                  /\ match session req1 with
                     | Some s1 => sessions w1 = delete (sessionID s1) (sessions w)
                                  /\ sessions w1 !! sessionID s1 = None
                                  /\ clearCookie res1 = Some "connect.sid"
                     | None => w1 = w
                     end)
               /\ db w1 = db w /\ blobs w1 = blobs w).
  { subst w1. destruct (session req1) as [s1|] eqn:E1.
    - rewrite (logout_session req1 s1 w E1 (Hcalm _)). cbn [fst snd].
      split; [|split; reflexivity]. eexists. split; [reflexivity|].
      split; [reflexivity|]. cbn [sessions set_sessions clearCookie].
      split; [reflexivity|]. split; [apply lookup_delete_eq|reflexivity].
    - rewrite (logout_no_session req1 w E1). cbn [fst snd].
      split; [|split; reflexivity]. eexists. repeat split; reflexivity. }
  destruct H1 as (Hres1 & Hdb & Hblobs).
  split; [exact Hres1|]. split; [exact Hdb|]. split; [exact Hblobs|].
  destruct (session req2) as [s2|] eqn:E2.
  - rewrite (logout_session req2 s2 w1 E2 (Hcalm _)). cbn [fst snd].
    split; [eexists; split; reflexivity|].
    unfold stored. cbn [db sessions blobs set_sessions log].
    now rewrite (delete_id _ _ Hnone).
  - rewrite (logout_no_session req2 w1 E2). cbn [fst snd].
    split; [eexists; split; reflexivity|reflexivity].
Qed.

End Logout.

Lemma logout_idempotent_witness :
  let w := {| db := no_tables; txn := None;
              sessions := {[ "sid-1" := {| sd_authenticated := true;
                                           sd_username := Some "admin" |} ]};
              blobs := ∅; trace := [] |} in
  let req1 := logout_request (Some admin_session) in
  let req2 := logout_request None in
  let out1 := handle calm req1 w in
  let w1 := snd out1 in
  let out2 := handle calm req2 w1 in
  (exists res1, fst out1 = Val res1 /\ status res1 = 200
                /\ sessions w1 = delete "sid-1" (sessions w)
                /\ sessions w1 !! "sid-1" = None
                /\ clearCookie res1 = Some "connect.sid")
  /\ db w1 = db w /\ blobs w1 = blobs w
  /\ (exists res2, fst out2 = Val res2 /\ status res2 = 200)
  /\ stored (snd out2) = stored w1.
Proof.
  intros w req1 req2 out1 w1 out2.
  exact (logout_idempotent calm req1 req2 w eq_refl eq_refl eq_refl eq_refl
           (fun _ => eq_refl) I).
Defined.

(** ** The reference platform: JSON there and back *)

Section JsonRoundTrip.

Import Json.

Lemma parse_chars_escape_char (c : ascii) (t : string) :
  parse_chars (escape_char c +:+ t)
  = '(u, r) ← parse_chars t; Some (String c u, r).
Proof.
  destruct c as [[|] [|] [|] [|] [|] [|] [|] [|]]; reflexivity.
Qed.

Lemma parse_chars_escape (s rest : string) :
  parse_chars (escape s +:+ String dquote rest) = Some (s, rest).
Proof.
  induction s as [|c s IH]; cbn [escape].
  - rewrite str_app_nil. cbn [parse_chars]. now rewrite Ascii.eqb_refl.
  - rewrite str_app_assoc, parse_chars_escape_char, IH. reflexivity.
Qed.

Lemma parse_chars_quote (s rest : string) :
  exists t, quote s +:+ rest = String dquote t /\ parse_chars t = Some (s, rest).
Proof.
  unfold quote. rewrite str_app_cons, str_app_assoc, str_app_cons, str_app_nil.
  eexists. split; [reflexivity|]. apply parse_chars_escape.
Qed.


(** *** Integers *)

Lemma pretty_N_char_digit (m : N) :
  (m < 10)%N ->
  is_digit (pretty_N_char m) = true /\ digit_value (pretty_N_char m) = Z.of_N m.
Proof.
  intros Hm.
  assert (m = 0 \/ m = 1 \/ m = 2 \/ m = 3 \/ m = 4 \/ m = 5 \/ m = 6 \/ m = 7
          \/ m = 8 \/ m = 9)%N as Hcases by lia.
  repeat (destruct Hcases as [->|Hcases]; [split; reflexivity|]).
  subst m. split; reflexivity.
Qed.

(** Reading the digits of [x] multiplies the accumulator by a power of ten
    and adds [x]. *)
Lemma parse_digits_pretty (x : N) :
  exists k, forall a s,
    parse_digits a (pretty_N_go x s) = parse_digits (a * k + Z.of_N x) s.
Proof.
  induction (N.lt_wf_0 x) as [x _ IH].
  destruct (decide (x = 0%N)) as [->|Hx].
  - exists 1. intros a s. rewrite pretty_N_go_0. f_equal. lia.
  - destruct (IH (x `div` 10)%N) as [k Hk]; [apply N.div_lt; lia|].
    exists (10 * k). intros a s. rewrite pretty_N_go_step by lia. rewrite Hk.
    destruct (pretty_N_char_digit (x `mod` 10)%N) as [Hd Hv];
      [apply N.mod_lt; lia|].
    cbn [parse_digits]. rewrite Hd, Hv. f_equal.
    rewrite (N.div_mod x 10) at 3 by lia. lia.
Qed.

Lemma pretty_N_go_app (x : N) (s r : string) :
  pretty_N_go x s +:+ r = pretty_N_go x (s +:+ r).
Proof.
  revert s. induction (N.lt_wf_0 x) as [x _ IH]. intros s.
  destruct (decide (x = 0%N)) as [->|Hx]; [now rewrite !pretty_N_go_0|].
  rewrite (pretty_N_go_step x s), (pretty_N_go_step x (s +:+ r)) by lia.
  rewrite IH by (apply N.div_lt; lia). reflexivity.
Qed.

(** The first digit of a positive number is not zero. *)
Lemma pretty_N_go_head (x : N) (s : string) :
  (0 < x)%N ->
  exists c t, pretty_N_go x s = String c t
              /\ is_digit c = true /\ Ascii.eqb c "0" = false.
Proof.
  revert s. induction (N.lt_wf_0 x) as [x _ IH]. intros s Hx.
  rewrite pretty_N_go_step by lia.
  destruct (decide (x `div` 10 = 0)%N) as [E|E].
  - rewrite E, pretty_N_go_0. eexists _, _. split; [reflexivity|].
    assert (Hlt : (x < 10)%N) by (apply N.div_small_iff in E; [exact E|discriminate]).
    rewrite N.mod_small by lia.
    assert (x = 1 \/ x = 2 \/ x = 3 \/ x = 4 \/ x = 5 \/ x = 6 \/ x = 7
            \/ x = 8 \/ x = 9)%N as Hcases by lia.
    repeat (destruct Hcases as [->|Hcases]; [split; reflexivity|]).
    subst x. split; reflexivity.
  - apply IH; [apply N.div_lt; [exact Hx|reflexivity]|].
    now apply N.neq_0_lt_0.
Qed.

Lemma parse_digits_stop (a : Z) (rest : string) :
  stops rest = true -> parse_digits a rest = (a, rest).
Proof.
  destruct rest as [|d rest]; [reflexivity|]. cbn [stops parse_digits].
  destruct (is_digit d); [discriminate|reflexivity].
Qed.

Lemma parse_nat_stop (n : Z) (rest : string) :
  stops rest = true ->
  match rest with
  | String d _ =>
      if is_digit d || Ascii.eqb d "." || Ascii.eqb d "e" || Ascii.eqb d "E"
      then None else Some (n, rest)
  | EmptyString => Some (n, rest)
  end = Some (n, rest).
Proof.
  intros Hs. destruct rest as [|d rest]; [reflexivity|]. cbn [stops] in Hs.
  now destruct (is_digit d || Ascii.eqb d "." || Ascii.eqb d "e" || Ascii.eqb d "E").
Qed.

Lemma parse_nat_pretty (x : N) (rest : string) :
  stops rest = true ->
  parse_nat (pretty x +:+ rest) = Some (Z.of_N x, rest).
Proof.
  intros Hs. unfold pretty, pretty_N. destruct (decide (x = 0%N)) as [->|Hx].
  - change (parse_nat (String "0" rest) = Some (0, rest)).
    unfold parse_nat. change (is_digit "0") with true.
    change (Ascii.eqb "0" "0") with true. cbv beta iota. cbn [negb].
    now apply parse_nat_stop.
  - rewrite pretty_N_go_app, str_app_nil.
    destruct (pretty_N_go_head x rest) as (c & t & E & Hd & Hz); [lia|].
    destruct (parse_digits_pretty x) as [k Hk].
    unfold parse_nat. rewrite E, Hd, Hz. cbn [negb]. rewrite <- E, Hk.
    rewrite Z.mul_0_l, Z.add_0_l, parse_digits_stop by exact Hs.
    now apply parse_nat_stop.
Qed.


(** *** Values *)

Lemma jsval_nested_ind (P : jsval -> Prop) :
  P VUndefined -> P VNull -> (forall b, P (VBool b)) -> (forall n, P (VNum n)) ->
  (forall s, P (VStr s)) ->
  (forall elems, Forall P elems -> P (VArr elems)) ->
  (forall props, Forall (fun kv => P (snd kv)) props -> P (VObj props)) ->
  forall v, P v.
Proof.
  intros Hu Hn Hb Hz Hs Ha Ho. fix IH 1.
  intros [| |b|n|s|elems|props];
    [exact Hu|exact Hn|apply Hb|apply Hz|apply Hs| |].
  - apply Ha. induction elems as [|e elems IHe]; constructor; [apply IH|exact IHe].
  - apply Ho. induction props as [|[k v] props IHp]; constructor; [apply IH|exact IHp].
Qed.

Lemma str_app_nil_r (s : string) : s +:+ "" = s.
Proof.
  induction s as [|c s IH]; rewrite ?str_app_nil, ?str_app_cons; [reflexivity|].
  now rewrite IH.
Qed.

Lemma join_cons (p : string) (parts : list string) :
  join "," (p :: parts) = p +:+ tail_text parts.
Proof.
  revert p. induction parts as [|q parts IH]; intros p.
  - cbn [join tail_text]. now rewrite str_app_nil_r.
  - change (join "," (p :: q :: parts)) with (p +:+ "," +:+ join "," (q :: parts)).
    now rewrite IH.
Qed.

Lemma members_encodable (props : list (string * jsval)) :
  forallb (fun kv => encodable (snd kv)) props = true ->
  omap (fun '(k, v') => match v' with
                        | VUndefined => None
                        | _ => Some (quote k +:+ ":" +:+ stringify v')
                        end) props
  = List.map member_text props.
Proof.
  induction props as [|[k v] props IH]; [reflexivity|].
  cbn [forallb snd]. intros Hp. apply andb_prop in Hp as [Hv Hp].
  match goal with
  | |- omap ?f _ = _ =>
      transitivity (member_text (k, v) :: omap f props);
        [destruct v; try reflexivity; discriminate|now rewrite (IH Hp)]
  end.
Qed.

Lemma assign_own_fresh (k : string) (v : jsval) (acc : list (string * jsval)) :
  existsb (String.eqb k) (List.map fst acc) = false ->
  assign_own k v acc = acc ++ [(k, v)].
Proof.
  induction acc as [|[k' v'] acc IH]; [reflexivity|].
  cbn [List.map fst existsb assign_own app]. intros Hk.
  apply orb_false_elim in Hk as [Hk Hacc].
  rewrite String.eqb_sym, Hk. now rewrite IH.
Qed.


(** One step of the parser on a text whose first character is known. *)

Lemma parse_value_null (f : nat) (r : string) :
  parse_value (S f) ("null" +:+ r) = Some (VNull, r).
Proof. reflexivity. Qed.

Lemma parse_value_true (f : nat) (r : string) :
  parse_value (S f) ("true" +:+ r) = Some (VBool true, r).
Proof. reflexivity. Qed.

Lemma parse_value_false (f : nat) (r : string) :
  parse_value (S f) ("false" +:+ r) = Some (VBool false, r).
Proof. reflexivity. Qed.

Lemma parse_value_string (f : nat) (t : string) :
  parse_value (S f) (String dquote t)
  = '(u, r) ← parse_chars t; Some (VStr u, r).
Proof. reflexivity. Qed.

Lemma parse_value_minus (f : nat) (t : string) :
  parse_value (S f) ("-" +:+ t) = '(n, r) ← parse_nat t; Some (VNum (- n), r).
Proof. reflexivity. Qed.

Lemma parse_value_digit (f : nat) (c : ascii) (t : string) :
  is_digit c = true ->
  parse_value (S f) (String c t) = '(n, r) ← parse_nat (String c t); Some (VNum n, r).
Proof.
  destruct c as [[|] [|] [|] [|] [|] [|] [|] [|]]; intros Hd;
    try discriminate Hd; reflexivity.
Qed.

Lemma parse_value_empty_array (f : nat) (r : string) :
  parse_value (S f) ("[]" +:+ r) = Some (VArr [], r).
Proof. reflexivity. Qed.

Lemma parse_value_empty_object (f : nat) (r : string) :
  parse_value (S f) ("{}" +:+ r) = Some (VObj [], r).
Proof. reflexivity. Qed.

Lemma parse_value_array (f : nat) (t : string) :
  starts_value t = true ->
  parse_value (S f) ("[" +:+ t)
  = '(v, r) ← parse_value f t; '(vs, r') ← parse_elements f r; Some (VArr (v :: vs), r').
Proof.
  destruct t as [|c t]; [discriminate|].
  destruct c as [[|] [|] [|] [|] [|] [|] [|] [|]]; intros Hs;
    try discriminate Hs; reflexivity.
Qed.

Lemma parse_value_object (f : nat) (t : string) :
  starts_value t = true ->
  parse_value (S f) ("{" +:+ t)
  = '(props, r) ← parse_members f [] ("," +:+ t); Some (VObj props, r).
Proof.
  destruct t as [|c t]; [discriminate|].
  destruct c as [[|] [|] [|] [|] [|] [|] [|] [|]]; intros Hs;
    try discriminate Hs; reflexivity.
Qed.

Lemma parse_elements_close (f : nat) (r : string) :
  parse_elements (S f) ("]" +:+ r) = Some ([], r).
Proof. reflexivity. Qed.

Lemma parse_elements_comma (f : nat) (t : string) :
  parse_elements (S f) ("," +:+ t)
  = '(v, r) ← parse_value f t; '(vs, r') ← parse_elements f r; Some (v :: vs, r').
Proof. reflexivity. Qed.

Lemma parse_members_close (f : nat) (acc : list (string * jsval)) (r : string) :
  parse_members (S f) acc ("}" +:+ r) = Some (acc, r).
Proof. reflexivity. Qed.

Lemma parse_members_comma (f : nat) (acc : list (string * jsval)) (t : string) :
  parse_members (S f) acc ("," +:+ String dquote t)
  = '(k, r2) ← parse_chars t;
    match skip_ws r2 with
    | String ":" r3 =>
        '(v, r4) ← parse_value f r3; parse_members f (assign_own k v acc) r4
    | _ => None
    end.
Proof. reflexivity. Qed.


Lemma pretty_Z_head (n : Z) (rest : string) :
  exists c t, pretty n +:+ rest = String c t
              /\ (is_digit c = true \/ c = "-"%char).
Proof.
  destruct n as [|p|p]; unfold pretty, pretty_Z.
  - eexists _, _. split; [reflexivity|left; reflexivity].
  - unfold pretty, pretty_positive, pretty, pretty_N. cbn [decide].
    destruct (decide (N.pos p = 0%N)) as [E|_]; [discriminate|].
    rewrite pretty_N_go_app.
    destruct (pretty_N_go_head (N.pos p) ("" +:+ rest)) as (c & t & E & Hd & _);
      [reflexivity|].
    exists c, t. split; [exact E|now left].
  - eexists _, _. split; [reflexivity|right; reflexivity].
Qed.

Lemma digit_starts (c : ascii) :
  is_digit c = true \/ c = "-"%char ->
  negb (is_ws c || Ascii.eqb c "]" || Ascii.eqb c "}") = true.
Proof.
  destruct c as [[|] [|] [|] [|] [|] [|] [|] [|]]; intros [Hd|Hd];
    try discriminate Hd; reflexivity.
Qed.

Lemma starts_value_stringify (v : jsval) (rest : string) :
  starts_value (stringify v +:+ rest) = true.
Proof.
  destruct v as [| |[|]|n|s|elems|props]; try reflexivity.
  destruct (pretty_Z_head n rest) as (c & t & E & Hc).
  cbn [stringify]. rewrite E. cbn [starts_value]. now apply digit_starts.
Qed.

Lemma stops_tail_text (parts : list string) (close rest : string) :
  stops close = true -> close <> "" ->
  stops (tail_text parts +:+ close +:+ rest) = true.
Proof.
  intros Hc Hne. destruct parts as [|p parts]; [|reflexivity].
  cbn [tail_text]. rewrite str_app_nil.
  destruct close as [|d close]; [contradiction|exact Hc].
Qed.

Lemma parse_value_number (f : nat) (n : Z) (rest : string) :
  stops rest = true ->
  parse_value (S f) (pretty n +:+ rest) = Some (VNum n, rest).
Proof.
  intros Hs. destruct n as [|p|p].
  - change (pretty 0 +:+ rest) with (String "0" rest).
    rewrite (parse_value_digit f "0" rest eq_refl).
    change (String "0" rest) with (pretty 0%N +:+ rest).
    now rewrite parse_nat_pretty.
  - change (pretty (Z.pos p)) with (pretty (N.pos p)).
    destruct (pretty_Z_head (Z.pos p) rest) as (c & t & E & [Hd|Hd]).
    + change (pretty (Z.pos p)) with (pretty (N.pos p)) in E.
      rewrite E, (parse_value_digit f c t Hd), <- E.
      now rewrite parse_nat_pretty.
    + exfalso. change (pretty (Z.pos p)) with (pretty (N.pos p)) in E.
      unfold pretty, pretty_N in E.
      destruct (decide (N.pos p = 0%N)) as [E0|_]; [discriminate|].
      rewrite pretty_N_go_app in E.
      destruct (pretty_N_go_head (N.pos p) ("" +:+ rest)) as (c' & t' & E' & Hd' & _);
        [reflexivity|].
      rewrite E' in E. injection E as -> _. subst c. discriminate.
  - change (pretty (Z.neg p)) with ("-" +:+ pretty (N.pos p)).
    rewrite str_app_assoc, parse_value_minus, parse_nat_pretty by exact Hs.
    reflexivity.
Qed.

Lemma weight_pos (v : jsval) : (1 <= weight v)%nat.
Proof. destruct v; cbn [weight]; lia. Qed.

Lemma parse_elements_ok (elems : list jsval) :
  Forall round_trips elems ->
  forallb encodable elems = true ->
  forall fuel rest,
    (S (list_sum (List.map weight elems)) <= fuel)%nat ->
    parse_elements fuel (tail_text (List.map stringify elems) +:+ "]" +:+ rest)
    = Some (elems, rest).
Proof.
  induction 1 as [|e elems He _ IH]; intros Henc fuel rest Hfuel;
    (destruct fuel as [|f]; [lia|]).
  - cbn [List.map tail_text]. rewrite str_app_nil. apply parse_elements_close.
  - cbn [forallb] in Henc. apply andb_prop in Henc as [Hence Henc].
    change (list_sum (List.map weight (e :: elems)))
      with (weight e + list_sum (List.map weight elems))%nat in Hfuel.
    cbn [List.map tail_text]. rewrite !str_app_assoc, parse_elements_comma.
    rewrite (He Hence f); [|lia|apply stops_tail_text; [reflexivity|discriminate]].
    pose proof (weight_pos e).
    cbn [mbind option_bind]. rewrite (IH Henc f rest) by lia. reflexivity.
Qed.

Lemma distinct_fresh (l1 l2 : list string) (k : string) :
  distinct (l1 ++ k :: l2) = true -> existsb (String.eqb k) l1 = false.
Proof.
  induction l1 as [|x l1 IH]; [reflexivity|].
  cbn [app distinct existsb]. intros Hd.
  apply andb_prop in Hd as [Hx Hd]. rewrite (IH Hd), orb_false_r.
  destruct (String.eqb k x) eqn:E; [|reflexivity].
  apply String.eqb_eq in E. subst x.
  rewrite existsb_app in Hx. cbn [existsb] in Hx.
  rewrite String.eqb_refl, orb_true_l, orb_true_r in Hx. discriminate.
Qed.

Lemma skip_ws_colon (r : string) : skip_ws (":" +:+ r) = String ":" r.
Proof. reflexivity. Qed.

Lemma parse_members_ok (props : list (string * jsval)) :
  Forall (fun kv => round_trips (snd kv)) props ->
  forallb (fun kv => encodable (snd kv)) props = true ->
  forall fuel acc rest,
    distinct (List.map fst (acc ++ props)) = true ->
    (S (list_sum (List.map (fun kv => weight (snd kv)) props)) <= fuel)%nat ->
    parse_members fuel acc
      (tail_text (List.map member_text props) +:+ "}" +:+ rest)
    = Some (acc ++ props, rest).
Proof.
  induction 1 as [|[k v] props Hv _ IH]; intros Henc fuel acc rest Hd Hfuel;
    (destruct fuel as [|f]; [lia|]).
  - cbn [List.map tail_text]. rewrite str_app_nil, app_nil_r.
    apply parse_members_close.
  - cbn [forallb snd] in Henc, Hv. apply andb_prop in Henc as [Hencv Henc].
    change (list_sum (List.map (fun kv => weight (snd kv)) ((k, v) :: props)))
      with (weight v + list_sum (List.map (fun kv => weight (snd kv)) props))%nat
      in Hfuel.
    pose proof (weight_pos v).
    cbn [List.map tail_text]. unfold member_text at 1. cbn [fst snd].
    rewrite !str_app_assoc.
    destruct (parse_chars_quote k
                (":" +:+ stringify v +:+
                 tail_text (List.map member_text props) +:+ "}" +:+ rest))
      as (t & Et & Hk).
    rewrite Et, parse_members_comma, Hk. cbn [mbind option_bind].
    rewrite skip_ws_colon.
    rewrite (Hv Hencv f); [|lia|apply stops_tail_text; [reflexivity|discriminate]].
    cbn [mbind option_bind].
    rewrite assign_own_fresh.
    + rewrite (IH Henc f (acc ++ [(k, v)]) rest), <- app_assoc; [reflexivity| |lia].
      now rewrite <- app_assoc.
    + rewrite map_app in Hd. exact (distinct_fresh _ _ _ Hd).
Qed.

Lemma parse_value_stringify (v : jsval) : round_trips v.
Proof.
  induction v as [| |b|n|s|elems IH|props IH] using jsval_nested_ind;
    intros Henc fuel rest Hfuel Hs; try discriminate Henc;
    (destruct fuel as [|f]; [cbn [weight] in Hfuel; lia|]).
  - apply parse_value_null.
  - destruct b; [apply parse_value_true|apply parse_value_false].
  - now apply parse_value_number.
  - cbn [stringify].
    destruct (parse_chars_quote s rest) as (t & Et & Hk).
    now rewrite Et, parse_value_string, Hk.
  - cbn [stringify encodable weight] in *.
    destruct elems as [|e elems].
    + apply parse_value_empty_array.
    + change (List.map stringify (e :: elems))
        with (stringify e :: List.map stringify elems).
      rewrite join_cons, !str_app_assoc.
      rewrite parse_value_array by apply starts_value_stringify.
      apply Forall_cons_1 in IH as [He IH].
      cbn [forallb] in Henc. apply andb_prop in Henc as [Hence Henc].
      change (list_sum (List.map weight (e :: elems)))
        with (weight e + list_sum (List.map weight elems))%nat in Hfuel.
      pose proof (weight_pos e).
      rewrite (He Hence f); [|lia|apply stops_tail_text; [reflexivity|discriminate]].
      cbn [mbind option_bind].
      rewrite (parse_elements_ok elems IH Henc f rest) by lia. reflexivity.
  - cbn [encodable weight] in *. apply andb_prop in Henc as [Henc Hd].
    cbn [stringify]. rewrite (members_encodable props Henc).
    destruct props as [|[k v] props].
    + apply parse_value_empty_object.
    + change (List.map member_text ((k, v) :: props))
        with (member_text (k, v) :: List.map member_text props).
      rewrite join_cons, !str_app_assoc.
      rewrite parse_value_object.
      2:{ unfold member_text, quote. cbn [fst]. reflexivity. }
      assert (E : "," +:+ member_text (k, v) +:+
                  tail_text (List.map member_text props) +:+ "}" +:+ rest
                  = tail_text (List.map member_text ((k, v) :: props))
                    +:+ "}" +:+ rest)
        by (cbn [List.map tail_text]; now rewrite !str_app_assoc).
      rewrite E.
      rewrite (parse_members_ok ((k, v) :: props) IH Henc f [] rest Hd) by lia.
      reflexivity.
Qed.

(** *** The fuel [parse] gives is enough *)

Lemma length_app (a b : string) :
  String.length (a +:+ b) = (String.length a + String.length b)%nat.
Proof.
  induction a as [|c a IH]; [reflexivity|].
  rewrite str_app_cons. cbn [String.length]. now rewrite IH.
Qed.

Lemma length_tail_text (parts : list string) :
  (list_sum (List.map String.length parts) <= String.length (tail_text parts))%nat.
Proof.
  induction parts as [|p parts IH]; [reflexivity|].
  change (list_sum (List.map String.length (p :: parts)))
    with (String.length p + list_sum (List.map String.length parts))%nat.
  cbn [tail_text]. rewrite !length_app. lia.
Qed.

Lemma length_join (parts : list string) :
  (list_sum (List.map String.length parts) <= String.length (join "," parts))%nat.
Proof.
  destruct parts as [|p parts]; [reflexivity|].
  change (list_sum (List.map String.length (p :: parts)))
    with (String.length p + list_sum (List.map String.length parts))%nat.
  rewrite join_cons, length_app. pose proof (length_tail_text parts). lia.
Qed.

Lemma weight_le_length (v : jsval) :
  encodable v = true -> (weight v <= String.length (stringify v))%nat.
Proof.
  induction v as [| |b|n|s|elems IH|props IH] using jsval_nested_ind;
    intros Henc; try discriminate Henc.
  - cbn. lia.
  - destruct b; cbn; lia.
  - destruct (pretty_Z_head n "") as (c & t & E & _).
    rewrite str_app_nil_r in E. cbn [stringify weight]. rewrite E.
    cbn [String.length]. lia.
  - cbn [stringify weight]. unfold quote. cbn [String.length]. lia.
  - cbn [stringify weight encodable] in *. rewrite !length_app.
    pose proof (length_join (List.map stringify elems)) as Hj.
    enough (list_sum (List.map weight elems)
            <= list_sum (List.map String.length (List.map stringify elems)))%nat
      by (cbn [String.length]; lia).
    clear Hj. induction IH as [|e elems He _ IHe]; [reflexivity|].
    cbn [forallb] in Henc. apply andb_prop in Henc as [Hence Henc].
    change (list_sum (List.map weight (e :: elems)))
      with (weight e + list_sum (List.map weight elems))%nat.
    change (list_sum (List.map String.length (List.map stringify (e :: elems))))
      with (String.length (stringify e)
            + list_sum (List.map String.length (List.map stringify elems)))%nat.
    specialize (He Hence). specialize (IHe Henc). lia.
  - cbn [encodable weight] in *. apply andb_prop in Henc as [Henc _].
    cbn [stringify]. rewrite (members_encodable props Henc), !length_app.
    pose proof (length_join (List.map member_text props)) as Hj.
    enough (list_sum (List.map (fun kv => weight (snd kv)) props)
            <= list_sum (List.map String.length (List.map member_text props)))%nat
      by (cbn [String.length]; lia).
    clear Hj. induction IH as [|[k v] props Hv _ IHp]; [reflexivity|].
    cbn [forallb snd] in Henc, Hv. apply andb_prop in Henc as [Hencv Henc].
    change (list_sum (List.map (fun kv => weight (snd kv)) ((k, v) :: props)))
      with (weight v + list_sum (List.map (fun kv => weight (snd kv)) props))%nat.
    change (list_sum (List.map String.length
                        (List.map member_text ((k, v) :: props))))
      with (String.length (member_text (k, v))
            + list_sum (List.map String.length (List.map member_text props)))%nat.
    specialize (Hv Hencv). specialize (IHp Henc).
    unfold member_text at 1. cbn [fst snd]. rewrite !length_app. lia.
Qed.

(** [JSON.parse(JSON.stringify(v))] is [v] again, for every value without
    [undefined] inside and without a repeated property name. *)
Lemma parse_stringify (v : jsval) :
  encodable v = true -> parse (stringify v) = Some v.
Proof.
  intros Henc. unfold parse.
  pose proof (weight_le_length v Henc) as Hlen.
  pose proof (parse_value_stringify v Henc
                (S (String.length (stringify v))) "" ltac:(lia) eq_refl) as Hp.
  rewrite str_app_nil_r in Hp. rewrite Hp. reflexivity.
Qed.

(** The empty text is no JSON. *)
Lemma parse_empty : parse "" = None.
Proof. reflexivity. Qed.

(** So the reference platform meets what the settings round trip asks of
    the runtime. *)
Lemma reference_platform_round_trip (v : jsval) :
  encodable v = true ->
  @JSON_parse reference_platform (@JSON_stringify reference_platform v) = Some v.
Proof. exact (parse_stringify v). Qed.

End JsonRoundTrip.

(** * Further properties of the handlers *)

(** ** Signing in *)

Section SignIn.

Context `{Platform} (env : Env).

Lemma external_ok {A} (ev : event) (act : World -> Result A * World) (w : World) :
  fault env (List.length (trace w)) = None ->
  external env ev act w = act (log ev w).
Proof. intros E. unfold external. now rewrite E. Qed.

Lemma external_fails {A} (ev : event) (act : World -> Result A * World) (w : World)
    (e : JsError) :
  fault env (List.length (trace w)) = Some e ->
  external env ev act w = (Throw e, log ev w).
Proof. intros E. unfold external. now rewrite E. Qed.

Lemma handle_login (req : Request) (w : World) :
  req_method req = POST -> path_of (originalUrl req) = "/login" ->
  handle env req w = login env req w.
Proof. intros Hm Hp. unfold handle. rewrite Hm, Hp. reflexivity. Qed.

(** What POST /login does once both fields are there and the session
    middleware runs: by the outcome of the SELECT, of [bcrypt.compare] and of
    the two session calls.  The line that logs a refused sign-in converts
    the user name inside the [try]: when that throws, the catch clause
    answers. *)
Lemma login_runs (req : Request) (s : Session) (w : World) :
  truthy (prop "username" (body req)) = true ->
  truthy (prop "password" (body req)) = true ->
  session req = Some s ->
  let name := pg_text (prop "username" (body req)) in
  let n := List.length (trace w) in
  let w1 := log (EQuery (SelectUser name)) w in
  let w2 := set_sessions (delete (sessionID s) (sessions w))
                         (log (ESessionRegenerate (sessionID s)) w1) in
  let granted := {| sd_authenticated := true; sd_username := Some name |} in
  let refused := res_redirect match ToString (prop "username" (body req)) with
                              | Some _ => "/login.html?error=Invalid+credentials"
                              | None => "/login.html?error=Server+error"
                              end in
  login env req w
  = match fault env n with
    | Some _ => (Val (res_redirect "/login.html?error=Server+error"), w1)
    | None =>
        match users (db w) !! name with
        | None => (Val refused, w1)
        | Some hash =>
            match bcrypt_compare (prop "password" (body req)) hash with
            | None => (Val (res_redirect "/login.html?error=Server+error"), w1)
            | Some false => (Val refused, w1)
            | Some true =>
                match fault env (S n) with
                | Some _ =>
                    (Val (res_redirect "/login.html?error=Session+error"),
                     log (ESessionRegenerate (sessionID s)) w1)
                | None =>
                    match fault env (S (S n)) with
                    | Some _ =>
                        (Val (res_redirect "/login.html?error=Session+save+error"),
                         log (ESessionSave (fresh_sid env)) w2)
                    | None =>
                        (Val (res_redirect "/admin.html"),
                         set_sessions (<[fresh_sid env := granted]> (sessions w2))
                                      (log (ESessionSave (fresh_sid env)) w2))
                    end
                end
            end
        end
    end.
Proof.
  intros Hu Hp Hs. cbv zeta. unfold login. rewrite Hu, Hp, Hs. cbn [negb orb].
  unfold try_catch at 1, bind at 1, pool_query, external at 1.
  destruct (fault env (List.length (trace w))) as [e|] eqn:E0; [reflexivity|].
  cbn [db log]. unfold Sql.select_user.
  destruct (users (db w) !! pg_text (prop "username" (body req))) as [hash|];
    [|unfold template, bind; now destruct (ToString (prop "username" (body req)))].
  destruct (bcrypt_compare (prop "password" (body req)) hash) as [[|]|];
    [|unfold template, bind; now destruct (ToString (prop "username" (body req)))
     |reflexivity].
  unfold try_catch, bind, session_regenerate, session_save, external.
  cbn [trace log set_db set_sessions db txn sessions blobs sessionID authenticated
       username].
  rewrite !List.length_app. cbn [List.length].
  replace (List.length (trace w) + 1)%nat with (S (List.length (trace w))) by lia.
  destruct (fault env (S (List.length (trace w)))) as [e1|]; [reflexivity|].
  cbn [trace log set_db set_sessions db txn sessions blobs sessionID authenticated
       username].
  rewrite !List.length_app. cbn [List.length].
  replace (List.length (trace w) + 1 + 1)%nat with (S (S (List.length (trace w))))
    by lia.
  destruct (fault env (S (S (List.length (trace w))))) as [e2|]; reflexivity.
Qed.

(** X1 (sign-in): when both fields are given, the user exists,
    [bcrypt.compare] accepts the password and neither the SELECT nor the
    session store fails, POST /login redirects to /admin.html; the session
    the request came with has left the store, and the store holds, under the
    regenerated id, a session marked authenticated for that user.  The
    database and the blobs are untouched, and the calls were the SELECT, the
    regeneration and the save, in this order. *)
Theorem login_establishes_session (req : Request) (s : Session) (hash : string)
    (w : World) :
  req_method req = POST -> path_of (originalUrl req) = "/login" ->
  truthy (prop "username" (body req)) = true ->
  truthy (prop "password" (body req)) = true ->
  session req = Some s ->
  users (db w) !! pg_text (prop "username" (body req)) = Some hash ->
  bcrypt_compare (prop "password" (body req)) hash = Some true ->
  calls_ok env (List.length (trace w)) (List.length (trace w) + 3) ->
  let name := pg_text (prop "username" (body req)) in
  let out := handle env req w in
  fst out = Val (res_redirect "/admin.html")
  /\ sessions (snd out)
     = <[fresh_sid env := {| sd_authenticated := true; sd_username := Some name |}]>
         (delete (sessionID s) (sessions w))
  /\ db (snd out) = db w /\ blobs (snd out) = blobs w
  /\ trace (snd out)
     = trace w ++ [EQuery (SelectUser name); ESessionRegenerate (sessionID s);
                   ESessionSave (fresh_sid env)].
Proof.
  intros Hm Hpath Hu Hp Hs Hrow Hmatch Hok. cbv zeta.
  rewrite (handle_login req w Hm Hpath).
  pose proof (login_runs req s w Hu Hp Hs) as E. cbv zeta in E. rewrite E.
  rewrite !Hok, Hrow, Hmatch by lia.
  cbn [fst snd sessions db blobs trace log set_sessions].
  rewrite <- !app_assoc. repeat split; reflexivity.
Qed.

(** X2 (sign-in, safety): POST /login always answers with a redirect and
    never throws, whatever fails; it leaves the database and the blobs as
    they were; and the session store is touched, and the redirect goes to
    /admin.html, only when the user exists and [bcrypt.compare] accepted the
    password. *)
Theorem login_only_with_credentials (req : Request) (w : World) :
  req_method req = POST -> path_of (originalUrl req) = "/login" ->
  let out := handle env req w in
  let matched :=
    exists hash,
      users (db w) !! pg_text (prop "username" (body req)) = Some hash
      /\ bcrypt_compare (prop "password" (body req)) hash = Some true in
  (exists url, fst out = Val (res_redirect url))
  /\ db (snd out) = db w /\ blobs (snd out) = blobs w
  /\ (sessions (snd out) = sessions w \/ matched)
  /\ (fst out = Val (res_redirect "/admin.html") -> matched).
Proof.
  intros Hm Hpath. cbv zeta. rewrite (handle_login req w Hm Hpath).
  assert (Hquiet : forall url,
             (exists url', Val (res_redirect url) = Val (res_redirect url'))
             /\ db w = db w /\ blobs w = blobs w) by (intros; eauto).
  destruct (truthy (prop "username" (body req))) eqn:Hu;
    [destruct (truthy (prop "password" (body req))) eqn:Hp|].
  2,3: unfold login; rewrite Hu, ?Hp; cbn [negb orb ret fst snd];
       (split; [eexists; reflexivity|]); (split; [reflexivity|]);
       (split; [reflexivity|]); (split; [now left|discriminate]).
  destruct (session req) as [s|] eqn:Hs.
  2:{ unfold login. rewrite Hu, Hp, Hs. cbn [negb orb ret fst snd].
      (split; [eexists; reflexivity|]); (split; [reflexivity|]);
      (split; [reflexivity|]); (split; [now left|discriminate]). }
  pose proof (login_runs req s w Hu Hp Hs) as E. cbv zeta in E. rewrite E.
  clear E Hquiet.
  destruct (fault env (List.length (trace w))).
  { (split; [eexists; reflexivity|]); (split; [reflexivity|]);
    (split; [reflexivity|]); (split; [now left|discriminate]). }
  destruct (users (db w) !! pg_text (prop "username" (body req))) as [hash|].
  2:{ destruct (ToString (prop "username" (body req)));
      (split; [eexists; reflexivity|]); (split; [reflexivity|]);
      (split; [reflexivity|]); (split; [now left|discriminate]). }
  destruct (bcrypt_compare (prop "password" (body req)) hash) as [[|]|] eqn:Hc.
  2,3: destruct (ToString (prop "username" (body req)));
       (split; [eexists; reflexivity|]); (split; [reflexivity|]);
       (split; [reflexivity|]); (split; [now left|discriminate]).
  assert (exists hash0, Some hash = Some hash0
                        /\ bcrypt_compare (prop "password" (body req)) hash0
                           = Some true) as Hmatched
    by (exists hash; split; [reflexivity|exact Hc]).
  destruct (fault env (S (List.length (trace w))));
    [|destruct (fault env (S (S (List.length (trace w)))))];
    (split; [eexists; reflexivity|]); (split; [reflexivity|]);
    (split; [reflexivity|]); (split; [right; exact Hmatched|intros _; exact Hmatched]).
Qed.

(** X3 (sign-in, invalid credentials): when the SELECT goes through, an
    unknown user and a wrong password are answered alike, and nothing but
    the SELECT was issued; the session store is not touched.  The answer is
    the redirect to the login page with [error=Invalid+credentials] for a
    user name that converts to a string (every string does).  The handler
    logs the refusal with the user name inside a template literal: for a
    name whose conversion throws (an object with a property [toString] of
    its own) the catch clause answers with [error=Server+error]. *)
Theorem login_invalid_credentials (req : Request) (s : Session) (w : World) :
  req_method req = POST -> path_of (originalUrl req) = "/login" ->
  truthy (prop "username" (body req)) = true ->
  truthy (prop "password" (body req)) = true ->
  session req = Some s ->
  fault env (List.length (trace w)) = None ->
  match users (db w) !! pg_text (prop "username" (body req)) with
  | None => True
  | Some hash => bcrypt_compare (prop "password" (body req)) hash = Some false
  end ->
  handle env req w
  = (Val (res_redirect match ToString (prop "username" (body req)) with
                       | Some _ => "/login.html?error=Invalid+credentials"
                       | None => "/login.html?error=Server+error"
                       end),
     log (EQuery (SelectUser (pg_text (prop "username" (body req))))) w)
  /\ forall name, prop "username" (body req) = VStr name ->
       fst (handle env req w)
       = Val (res_redirect "/login.html?error=Invalid+credentials").
Proof.
  intros Hm Hpath Hu Hp Hs Hok Hbad.
  enough (E : handle env req w
              = (Val (res_redirect match ToString (prop "username" (body req)) with
                                   | Some _ => "/login.html?error=Invalid+credentials"
                                   | None => "/login.html?error=Server+error"
                                   end),
                 log (EQuery (SelectUser (pg_text (prop "username" (body req))))) w)).
  { split; [exact E|]. intros name Hname. rewrite E, Hname. reflexivity. }
  rewrite (handle_login req w Hm Hpath).
  pose proof (login_runs req s w Hu Hp Hs) as E. cbv zeta in E. rewrite E, Hok.
  destruct (users (db w) !! pg_text (prop "username" (body req))) as [hash|];
    [|reflexivity].
  now rewrite Hbad.
Qed.

(** X4 (sign-in, missing input): a POST /login without a user name or
    without a password (missing or empty), or on a server whose session
    middleware is not configured, is redirected to the login page with the
    matching error; no query and no session call is issued, and nothing
    changes. *)
Theorem login_rejects_early (req : Request) (w : World) :
  req_method req = POST -> path_of (originalUrl req) = "/login" ->
  truthy (prop "username" (body req)) && truthy (prop "password" (body req))
  && bool_decide (is_Some (session req)) = false ->
  handle env req w
  = (Val (res_redirect
            (if truthy (prop "username" (body req))
                && truthy (prop "password" (body req))
             then "/login.html?error=Server+session+configuration+error"
             else "/login.html?error=Username%20and%20password%20are%20required.")),
     w).
Proof.
  intros Hm Hpath Hbad. rewrite (handle_login req w Hm Hpath). unfold login.
  destruct (truthy (prop "username" (body req)));
    [destruct (truthy (prop "password" (body req)))|]; try reflexivity.
  destruct (session req) as [s|]; [|reflexivity].
  cbn in Hbad. discriminate Hbad.
Qed.

(** X5 (sign-out, store failure): when the session store fails to destroy
    the session, POST /api/logout answers 500 "Logout failed due to server
    error."; the session stays in the store and the cookie is not cleared,
    so the client is still signed in. *)
Theorem logout_failure (req : Request) (s : Session) (w : World) (e : JsError) :
  req_method req = POST -> path_of (originalUrl req) = "/api/logout" ->
  session req = Some s ->
  fault env (List.length (trace w)) = Some e ->
  let out := handle env req w in
  fst out = Val (res_json 500 (VObj [("message",
                                      VStr "Logout failed due to server error.")]))
  /\ (forall res, fst out = Val res -> clearCookie res = None)
  /\ sessions (snd out) = sessions w
  /\ stored (snd out) = stored w
  /\ trace (snd out) = trace w ++ [ESessionDestroy (sessionID s)].
Proof.
  intros Hm Hp Hs Hfail. cbv zeta. rewrite (handle_logout env req w Hm Hp).
  unfold logout. rewrite Hs. unfold try_catch, bind, session_destroy, external.
  rewrite Hfail. cbn [fst snd ret]. repeat split; try reflexivity.
  intros res E. now injection E as <-.
Qed.

End SignIn.

Lemma login_establishes_session_witness :
  let req := login_request (Some visitor_session) (VStr "admin") (VStr "password123") in
  let out := handle calm req world_with_admin in
  fst out = Val (res_redirect "/admin.html")
  /\ sessions (snd out)
     = <[fresh_sid calm := {| sd_authenticated := true; sd_username := Some "admin" |}]>
         (delete "sid-1" (sessions world_with_admin))
  /\ db (snd out) = db world_with_admin /\ blobs (snd out) = blobs world_with_admin
  /\ trace (snd out)
     = trace world_with_admin
       ++ [EQuery (SelectUser "admin"); ESessionRegenerate "sid-1";
           ESessionSave (fresh_sid calm)].
Proof.
  exact (login_establishes_session calm
           (login_request (Some visitor_session) (VStr "admin") (VStr "password123"))
           visitor_session "$2b$10$password123" world_with_admin
           eq_refl eq_refl eq_refl eq_refl eq_refl eq_refl eq_refl
           (fun i _ => eq_refl)).
Defined.

Lemma login_only_with_credentials_witness :
  let req := login_request (Some visitor_session) (VStr "admin") (VStr "guess") in
  let w := world_with_admin in
  let out := handle calm req w in
  let matched :=
    exists hash,
      users (db w) !! pg_text (prop "username" (body req)) = Some hash
      /\ bcrypt_compare (prop "password" (body req)) hash = Some true in
  (exists url, fst out = Val (res_redirect url))
  /\ db (snd out) = db w /\ blobs (snd out) = blobs w
  /\ (sessions (snd out) = sessions w \/ matched)
  /\ (fst out = Val (res_redirect "/admin.html") -> matched).
Proof.
  exact (login_only_with_credentials calm
           (login_request (Some visitor_session) (VStr "admin") (VStr "guess"))
           world_with_admin eq_refl eq_refl).
Defined.

Lemma login_invalid_credentials_witness :
  handle calm (login_request (Some visitor_session) (VStr "admin") (VStr "guess"))
         world_with_admin
  = (Val (res_redirect "/login.html?error=Invalid+credentials"),
     log (EQuery (SelectUser "admin")) world_with_admin).
Proof.
  exact (proj1 (login_invalid_credentials calm
                  (login_request (Some visitor_session) (VStr "admin") (VStr "guess"))
                  visitor_session world_with_admin
                  eq_refl eq_refl eq_refl eq_refl eq_refl eq_refl eq_refl)).
Defined.

Lemma login_rejects_early_witness :
  handle calm (login_request (Some visitor_session) (VStr "admin") (VStr ""))
         world_with_admin
  = (Val (res_redirect
            "/login.html?error=Username%20and%20password%20are%20required."),
     world_with_admin).
Proof.
  exact (login_rejects_early calm
           (login_request (Some visitor_session) (VStr "admin") (VStr ""))
           world_with_admin eq_refl eq_refl eq_refl).
Defined.

Lemma logout_failure_witness :
  let out := handle (with_fault 0 connection_reset calm)
                    (logout_request (Some admin_session)) world_with_admin in
  fst out = Val (res_json 500 (VObj [("message",
                                      VStr "Logout failed due to server error.")]))
  /\ (forall res, fst out = Val res -> clearCookie res = None)
  /\ sessions (snd out) = sessions world_with_admin
  /\ stored (snd out) = stored world_with_admin
  /\ trace (snd out) = trace world_with_admin ++ [ESessionDestroy "sid-1"].
Proof.
  exact (logout_failure (with_fault 0 connection_reset calm)
           (logout_request (Some admin_session)) admin_session world_with_admin
           connection_reset eq_refl eq_refl eq_refl eq_refl).
Defined.

(** ** Pages and settings *)

Section PagesAndSettings.

Context `{Platform} (env : Env).

Lemma prefix_path_of (p url : string) :
  no_qmark p = true -> String.prefix p url = true ->
  String.prefix p (path_of url) = true.
Proof.
  revert url; induction p as [|a p IH]; intros url Hq;
    [now destruct (path_of url)|].
  cbn [no_qmark] in Hq. apply andb_prop in Hq as [Ha Hp].
  destruct url as [|b url]; cbn [String.prefix path_of]; [congruence|].
  destruct (ascii_dec a b) as [<-|]; [|congruence].
  apply negb_true_iff in Ha. rewrite Ha. cbn [String.prefix].
  destruct (ascii_dec a a); [auto|congruence].
Qed.

(** X6 (page gate): GET /admin, with any query string, serves admin.html to
    an authenticated session and redirects everyone else to the login page
    with [unauthorized=true] (a redirect, not the 401 of the API routes);
    in both cases no external call is issued and nothing changes. *)
Theorem admin_page_gate (req : Request) (w : World) :
  req_method req = GET -> path_of (originalUrl req) = "/admin" ->
  handle env req w
  = (Val (if is_authenticated req then res_sendFile "admin.html"
          else res_redirect "/login.html?unauthorized=true"), w).
Proof.
  intros Hm Hp. unfold handle. rewrite Hm, Hp. routes.
  unfold checkAuth. destruct (is_authenticated req); [reflexivity|].
  destruct (startsWith (originalUrl req) "/api/") eqn:E; [|reflexivity].
  unfold startsWith in E. apply prefix_path_of in E; [|reflexivity].
  rewrite Hp in E. discriminate E.
Qed.

(** X7 (settings, invalid body): an authenticated POST /api/settings whose
    body carries no [settings] object (none, [null], a number, a string, a
    boolean) is answered 400; no client is checked out, no statement is
    issued and nothing changes. *)
Theorem post_settings_invalid_body (req : Request) (w : World) :
  req_method req = POST -> path_of (originalUrl req) = "/api/settings" ->
  is_authenticated req = true ->
  valid_settings req = false ->
  handle env req w
  = (Val (res_json 400 (VObj [("error", VStr "Missing or invalid 'settings' object.")])),
     w).
Proof.
  intros Hm Hp Ha Hv. rewrite (handle_post_settings env req w Hm Hp Ha).
  unfold post_settings. unfold valid_settings in Hv.
  destruct (truthy (prop "settings" (body req)));
    destruct (typeof_object (prop "settings" (body req)));
    try discriminate Hv; reflexivity.
Qed.

Lemma Number_toString_safe (n : Z) :
  - 2 ^ 53 < n < 2 ^ 53 -> Number_toString n = pretty n.
Proof.
  assert (Hpos : forall x, 0 <= x < 2 ^ 53 -> positive_toString (round_to_double x)
                                               = pretty x).
  { intros x Hx. unfold round_to_double.
    assert (Z.log2 x - 52 <= 0) as Hq.
    { destruct (Z.eq_dec x 0) as [->|]; [cbn; lia|].
      assert (Z.log2 x < 53) by (apply Z.log2_lt_pow2; lia). lia. }
    apply Z.leb_le in Hq. rewrite Hq. unfold positive_toString.
    now destruct (Z.ltb_spec x (2 ^ 53)); [|lia]. }
  intros Hn. unfold Number_toString. destruct (Z.ltb_spec n 0) as [Hneg|Hnn].
  - rewrite Hpos by lia. destruct n as [|p|p]; try lia. reflexivity.
  - apply Hpos. lia.
Qed.

(** X8 (plain settings read back as text): for a name outside the JSON-key
    set, what an authenticated POST /api/settings saved last under that
    name comes back from GET /api/settings as a string, when no external
    call fails: a string unchanged, a number as [String] prints it (its
    decimal digits for an integer below 2^53 in absolute value), [true] as
    ["true"], an array or object as its JSON text (not parsed), and every
    falsy value ([0], [false], [null], [undefined], the empty string) as the
    empty string. *)
Theorem plain_setting_read_back (s : Session) (entries : list (string * jsval))
    (k : string) (v : jsval) (w : World) :
  authenticated s = true -> faultless env ->
  is_json_key k = false -> k <> "__proto__" ->
  assoc k (rev entries) = Some v ->
  let w1 := snd (handle env (post_settings_request s (VObj entries)) w) in
  exists obj,
    fst (handle env get_settings_request w1) = Val (res_json 200 (VObj obj))
    /\ prop k (VObj obj)
       = VStr match v with
              | VStr text => text
              | VNum n => if n =? 0 then "" else Number_toString n
              | VBool b => if b then "true" else ""
              | VNull | VUndefined => ""
              | VArr _ | VObj _ => JSON_stringify v
              end
    /\ forall n, v = VNum n -> n <> 0 -> - 2 ^ 53 < n < 2 ^ 53 ->
       prop k (VObj obj) = VStr (pretty n).
Proof.
  intros Hs Hcalm Hk Hn Hlast w1.
  enough (exists obj,
             fst (handle env get_settings_request w1) = Val (res_json 200 (VObj obj))
             /\ prop k (VObj obj)
                = VStr match v with
                       | VStr text => text
                       | VNum n => if n =? 0 then "" else Number_toString n
                       | VBool b => if b then "true" else ""
                       | VNull | VUndefined => ""
                       | VArr _ | VObj _ => JSON_stringify v
                       end) as (obj & Hobj & Hprop).
  { exists obj. split; [exact Hobj|]. split; [exact Hprop|].
    intros n -> Hnz Hsafe. rewrite Hprop.
    destruct (Z.eqb_spec n 0); [contradiction|]. now rewrite Number_toString_safe. }
  destruct (post_settings_saved env (post_settings_request s (VObj entries)) w
              eq_refl eq_refl Hs eq_refl Hcalm) as [_ Hdb].
  assert (Hstored : settings (db w1) !! k = Some (Some (valueToStore v))).
  { subst w1. rewrite Hdb, settings_upsert_all.
    change (Object_entries (prop "settings"
                              (body (post_settings_request s (VObj entries)))))
      with entries.
    now rewrite Hlast. }
  destruct (get_settings_reads env w1 (Hcalm _)) as [Hr Hrows].
  eexists. split; [exact Hr|].
  rewrite (Hrows k _ Hstored Hn). unfold decode_setting. rewrite Hk.
  cbn [text_value]. f_equal.
  destruct v as [| |[|]|n|text|elems|props]; try reflexivity.
  - unfold valueToStore, or_else. cbn [typeof_object is_null andb negb truthy].
    destruct (n =? 0); reflexivity.
  - unfold valueToStore, or_else. cbn [typeof_object is_null andb negb truthy].
    destruct (String.eqb_spec text "") as [->|]; reflexivity.
Qed.

End PagesAndSettings.

Lemma admin_page_gate_witness :
  handle calm (page_request "/admin?tab=carousel" None) empty_world
  = (Val (res_redirect "/login.html?unauthorized=true"), empty_world).
Proof.
  exact (admin_page_gate calm (page_request "/admin?tab=carousel" None) empty_world
           eq_refl eq_refl).
Defined.

Lemma post_settings_invalid_body_witness :
  handle calm (post_settings_request admin_session (VStr "dark")) empty_world
  = (Val (res_json 400 (VObj [("error", VStr "Missing or invalid 'settings' object.")])),
     empty_world).
Proof.
  exact (post_settings_invalid_body calm
           (post_settings_request admin_session (VStr "dark")) empty_world
           eq_refl eq_refl eq_refl eq_refl).
Defined.

Lemma plain_setting_read_back_witness :
  let entries := [("schoolName", VStr "Hill School"); ("foundedYear", VNum 1987);
                  ("showBanner", VBool false)] in
  let w1 := snd (handle calm (post_settings_request admin_session (VObj entries))
                        empty_world) in
  exists obj,
    fst (handle calm get_settings_request w1) = Val (res_json 200 (VObj obj))
    /\ prop "foundedYear" (VObj obj) = VStr "1987"
    /\ forall n, VNum 1987 = VNum n -> n <> 0 -> - 2 ^ 53 < n < 2 ^ 53 ->
       prop "foundedYear" (VObj obj) = VStr (pretty n).
Proof.
  exact (plain_setting_read_back calm admin_session
           [("schoolName", VStr "Hill School"); ("foundedYear", VNum 1987);
            ("showBanner", VBool false)]
           "foundedYear" (VNum 1987) empty_world
           eq_refl (fun _ => eq_refl) eq_refl ltac:(discriminate) eq_refl).
Defined.

(** ** Uploads *)

Section Uploads.

Context `{Platform} (env : Env).

Lemma handle_upload (route field entity : string) (req : Request) (w : World) :
  In (route, field, entity) upload_routes ->
  req_method req = POST -> path_of (originalUrl req) = route ->
  is_authenticated req = true ->
  handle env req w
  = (file <- multer_single field req ;; createUploadHandler env entity file) w.
Proof.
  intros Hin Hm Hp Ha. unfold handle. rewrite Hm, Hp.
  unfold upload_routes in Hin. cbn [In] in Hin.
  destruct Hin as [E|[E|[E|[]]]]; injection E as <- <- <-;
    routes;
    now rewrite checkAuth_granted.
Qed.

Lemma multer_accepts (field : string) (req : Request) (f : Upload)
    (k : option Upload -> M Response) (w : World) :
  upload req = Some f -> fieldname f = field ->
  (file <- multer_single field req ;; k file) w = k (Some f) w.
Proof.
  intros Hf Hfield. unfold bind, multer_single.
  now rewrite Hf, Hfield, String.eqb_refl.
Qed.

Lemma createUploadHandler_runs (entity : string) (f : Upload) (w : World) :
  let name := generateBlobFilename env (originalname f) in
  createUploadHandler env entity (Some f) w
  = match fault env (List.length (trace w)) with
    | Some e => (Val (upload_failed entity e), log (EBlobPut name) w)
    | None =>
        (Val (uploaded entity (blob_url env name)),
         set_blobs (<[blob_url env name := buffer f]> (blobs w))
                   (log (EBlobPut name) w))
    end.
Proof.
  cbv zeta. unfold createUploadHandler, try_catch, bind, blob_put, external.
  destruct (fault env (List.length (trace w))); reflexivity.
Qed.

(** X9 (upload): an authenticated POST to one of the three upload routes
    with a file under the route's field puts the bytes into the blob store
    under the generated name and answers 200 with the public URL; the store
    then holds the bytes under that URL.  Exactly one call was issued (the
    put), the database and the sessions are untouched. *)
Theorem upload_stores_blob (route field entity : string) (req : Request)
    (f : Upload) (w : World) :
  In (route, field, entity) upload_routes ->
  req_method req = POST -> path_of (originalUrl req) = route ->
  is_authenticated req = true ->
  upload req = Some f -> fieldname f = field ->
  fault env (List.length (trace w)) = None ->
  let name := generateBlobFilename env (originalname f) in
  let out := handle env req w in
  fst out = Val (uploaded entity (blob_url env name))
  /\ blobs (snd out) !! blob_url env name = Some (buffer f)
  /\ blobs (snd out) = <[blob_url env name := buffer f]> (blobs w)
  /\ db (snd out) = db w /\ sessions (snd out) = sessions w
  /\ trace (snd out) = trace w ++ [EBlobPut name].
Proof.
  intros Hin Hm Hp Ha Hf Hfield Hok. cbv zeta.
  rewrite (handle_upload route field entity req w Hin Hm Hp Ha).
  rewrite (multer_accepts field req f _ w Hf Hfield).
  pose proof (createUploadHandler_runs entity f w) as E.
  cbv zeta in E. rewrite E, Hok. cbn [fst snd blobs set_blobs db sessions trace log].
  rewrite lookup_insert_eq. repeat split; reflexivity.
Qed.

(** X10 (upload, nothing stored): when the request carries no file the
    upload routes answer 400 without any call; when the put fails they
    answer 500 with the error's message.  In both cases the blob store, the
    database and the sessions are what they were. *)
Theorem upload_stores_nothing (route field entity : string) (req : Request)
    (w : World) :
  In (route, field, entity) upload_routes ->
  req_method req = POST -> path_of (originalUrl req) = route ->
  is_authenticated req = true ->
  let out := handle env req w in
  match upload req with
  | None => out = (Val (no_file entity), w)
  | Some f =>
      fieldname f = field ->
      forall e, fault env (List.length (trace w)) = Some e ->
      out = (Val (upload_failed entity e),
             log (EBlobPut (generateBlobFilename env (originalname f))) w)
      /\ stored (snd out) = stored w
  end.
Proof.
  intros Hin Hm Hp Ha. cbv zeta.
  rewrite (handle_upload route field entity req w Hin Hm Hp Ha).
  destruct (upload req) as [f|] eqn:Hf;
    [|unfold bind, multer_single; now rewrite Hf].
  intros Hfield e Hfail. rewrite (multer_accepts field req f _ w Hf Hfield).
  pose proof (createUploadHandler_runs entity f w) as E.
  cbv zeta in E. rewrite E, Hfail. split; reflexivity.
Qed.

Lemma sanitize_chars (s : string) : all_filename_chars (sanitize s) = true.
Proof.
  induction s as [|c s IH]; [reflexivity|].
  cbn [sanitize all_filename_chars]. rewrite IH, andb_true_r.
  destruct (is_filename_char c) eqn:E; [exact E|reflexivity].
Qed.

Lemma length_sanitize (s : string) : String.length (sanitize s) = String.length s.
Proof. induction s as [|c s IH]; cbn [sanitize String.length]; congruence. Qed.

Lemma length_take_chars (n : nat) (s : string) :
  (String.length (take_chars n s) <= n)%nat.
Proof.
  revert s; induction n as [|n IH]; intros [|c s]; cbn [take_chars String.length];
    try lia.
  specialize (IH s). lia.
Qed.

(** X11 (blob names): the name a file is stored under is
    [school_assets/images/<base>-<timestamp>-<token><ext>], where [ext] is
    [path.extname] of the original name and [base] holds at most 50
    characters, each a letter, a digit, [_], [.] or [-]: whatever the
    client sent as the file name, the base carries no slash, no space and
    no other character. *)
Theorem generateBlobFilename_shape (originalName : string) :
  exists base,
    generateBlobFilename env originalName
    = "school_assets/images/" +:+ base +:+ "-" +:+ pretty (Date_now env)
      +:+ "-" +:+ random_token env +:+ path_extname originalName
    /\ (String.length base <= 50)%nat
    /\ all_filename_chars base = true.
Proof.
  eexists. split; [reflexivity|]. split.
  - rewrite length_sanitize. apply length_take_chars.
  - apply sanitize_chars.
Qed.

End Uploads.

Lemma upload_stores_blob_witness :
  let req := upload_request "/api/upload-logo" admin_session (Some crest) in
  let name := generateBlobFilename calm (originalname crest) in
  let out := handle calm req empty_world in
  fst out = Val (uploaded "Logo" (blob_url calm name))
  /\ blobs (snd out) !! blob_url calm name = Some "PNG"
  /\ blobs (snd out) = <[blob_url calm name := "PNG"]> (blobs empty_world)
  /\ db (snd out) = db empty_world /\ sessions (snd out) = sessions empty_world
  /\ trace (snd out) = trace empty_world ++ [EBlobPut name].
Proof.
  exact (upload_stores_blob calm "/api/upload-logo" "logo" "Logo"
           (upload_request "/api/upload-logo" admin_session (Some crest))
           crest empty_world (or_introl eq_refl)
           eq_refl eq_refl eq_refl eq_refl eq_refl eq_refl).
Defined.

Lemma upload_stores_nothing_witness :
  handle calm (upload_request "/api/upload-logo" admin_session None) empty_world
  = (Val (no_file "Logo"), empty_world).
Proof.
  exact (upload_stores_nothing calm "/api/upload-logo" "logo" "Logo"
           (upload_request "/api/upload-logo" admin_session None) empty_world
           (or_introl eq_refl) eq_refl eq_refl eq_refl).
Defined.

(** ** Carousel: what failures leave behind *)

Ltac call_ok Hok :=
  apply runs_external;
  [ let e := fresh "e" in
    let E := fresh "E" in
    intros e E; world; rewrite Hok in E by lia; discriminate
  | intros _; world ].

Section CarouselFailures.

Context `{Platform} (env : Env).

Lemma handle_add (req : Request) (w : World) :
  req_method req = POST -> path_of (originalUrl req) = "/api/carousel" ->
  is_authenticated req = true ->
  handle env req w
  = (file <- multer_single "carouselImage" req ;; post_carousel env req file) w.
Proof.
  intros Hm Hp Ha. unfold handle. rewrite Hm, Hp. routes.
  now rewrite checkAuth_granted.
Qed.

(** POST /api/carousel with a file, by the first call that fails. *)
Lemma post_carousel_steps (req : Request) (f : Upload) (w : World) :
  let n := List.length (trace w) in
  let name := generateBlobFilename env (originalname f) in
  let row := inserted_row env req f (db w) in
  let insert :=
    EQuery (InsertCarousel (image_url row) (link_url row)
              (pg_text (or_else (prop "altText" (body req)) (VStr "Carousel Image")))
              (originalname f)) in
  let w1 := set_blobs (<[image_url row := buffer f]> (blobs w)) (log (EBlobPut name) w) in
  post_carousel env req (Some f) w
  = match fault env n with
    | Some e => (Val (add_failed e), log (EBlobPut name) w)
    | None =>
        match fault env (S n) with
        | Some e => (Val (add_failed e), log insert w1)
        | None =>
            if Sql.int4 (carousel_id_seq (db w))
            then if Sql.int4 (Sql.next_display_order (db w))
                 then (Val (image_added row),
                       set_db (Sql.set_carousel (carousel_images (db w) ++ [row])
                                                (carousel_id_seq (db w) + 1) (db w))
                              (log insert w1))
                 else (Val (add_failed Sql.out_of_range),
                       set_db (Sql.set_carousel (carousel_images (db w))
                                                (carousel_id_seq (db w) + 1) (db w))
                              (log insert w1))
            else (Val (add_failed Sql.out_of_range), set_db (db w) (log insert w1))
        end
    end.
Proof.
  cbv zeta. unfold post_carousel, try_catch, bind, blob_put, pool_query, external.
  destruct (fault env (List.length (trace w))); [reflexivity|].
  cbn [trace log set_blobs]. rewrite List.length_app. cbn [List.length].
  replace (List.length (trace w) + 1)%nat with (S (List.length (trace w))) by lia.
  destruct (fault env (S (List.length (trace w)))); [reflexivity|].
  cbn [db log set_blobs]. unfold Sql.insert_carousel.
  destruct (Sql.int4 (carousel_id_seq (db w)));
    [destruct (Sql.int4 (Sql.next_display_order (db w)))|]; reflexivity.
Qed.

(** X12 (carousel add, nothing stored): an authenticated POST
    /api/carousel without a file is answered 400 and issues no call; when
    the upload to the blob store fails, the answer is 500 with the error's
    message as [details], no INSERT is attempted, and the carousel table,
    the blobs and the sessions are what they were. *)
Theorem add_stores_nothing (req : Request) (w : World) :
  req_method req = POST -> path_of (originalUrl req) = "/api/carousel" ->
  is_authenticated req = true ->
  let out := handle env req w in
  match upload req with
  | None => out = (Val no_carousel_file, w)
  | Some f =>
      fieldname f = "carouselImage" ->
      forall e, fault env (List.length (trace w)) = Some e ->
      out = (Val (add_failed e),
             log (EBlobPut (generateBlobFilename env (originalname f))) w)
      /\ stored (snd out) = stored w
  end.
Proof.
  intros Hm Hp Ha. cbv zeta. rewrite (handle_add req w Hm Hp Ha).
  destruct (upload req) as [f|] eqn:Hf;
    [|unfold bind, multer_single; now rewrite Hf].
  intros Hfield e Hfail. rewrite (multer_accepts "carouselImage" req f _ w Hf Hfield).
  pose proof (post_carousel_steps req f w) as E. cbv zeta in E.
  rewrite E, Hfail. split; reflexivity.
Qed.

(** X13 (carousel add, orphaned blob): when the upload succeeds and the
    INSERT then fails (the statement is rejected, or the SERIAL or the
    display order leaves the INTEGER range), POST /api/carousel answers 500
    with the error's message; the rows of the carousel table, the settings
    and the users are unchanged, while the uploaded bytes stay in the blob
    store under the new URL: the handler issues no call after the INSERT, so
    nothing removes the blob.  The id sequence is not part of what is
    restored: an INSERT that fails on the display order has drawn its id,
    and the next image skips that value. *)
Theorem add_insert_failure_orphans_blob (req : Request) (f : Upload) (w : World)
    (e : JsError) :
  req_method req = POST -> path_of (originalUrl req) = "/api/carousel" ->
  is_authenticated req = true ->
  upload req = Some f -> fieldname f = "carouselImage" ->
  let n := List.length (trace w) in
  let row := inserted_row env req f (db w) in
  fault env n = None ->
  (fault env (S n) = Some e
   \/ (fault env (S n) = None
       /\ Sql.int4 (carousel_id_seq (db w)) && Sql.int4 (Sql.next_display_order (db w))
          = false
       /\ e = Sql.out_of_range)) ->
  let out := handle env req w in
  fst out = Val (add_failed e)
  /\ carousel_images (db (snd out)) = carousel_images (db w)
  /\ settings (db (snd out)) = settings (db w)
  /\ users (db (snd out)) = users (db w)
  /\ (fault env (S n) = None -> Sql.int4 (carousel_id_seq (db w)) = true ->
      carousel_id_seq (db (snd out)) = carousel_id_seq (db w) + 1)
  /\ blobs (snd out) = <[image_url row := buffer f]> (blobs w)
  /\ blobs (snd out) !! image_url row = Some (buffer f)
  /\ trace (snd out)
     = trace w ++ [EBlobPut (generateBlobFilename env (originalname f));
                   EQuery (InsertCarousel (image_url row) (link_url row)
                             (pg_text (or_else (prop "altText" (body req))
                                               (VStr "Carousel Image")))
                             (originalname f))].
Proof.
  intros Hm Hp Ha Hf Hfield n row Hput Hins out. subst out.
  rewrite (handle_add req w Hm Hp Ha).
  rewrite (multer_accepts "carouselImage" req f _ w Hf Hfield).
  pose proof (post_carousel_steps req f w) as E. cbv zeta in E.
  rewrite E. fold n. rewrite Hput.
  destruct Hins as [Hfail|(Hok & Hrange & ->)].
  - rewrite Hfail. cbn [fst snd db blobs trace log set_blobs].
    rewrite lookup_insert_eq, <- app_assoc.
    repeat split; try reflexivity. intros Hnone; discriminate.
  - rewrite Hok.
    destruct (Sql.int4 (carousel_id_seq (db w))) eqn:Ei;
      [destruct (Sql.int4 (Sql.next_display_order (db w))) eqn:Er; [discriminate|]|];
      cbn [fst snd db blobs trace log set_db set_blobs Sql.set_carousel
           carousel_images settings users carousel_id_seq];
      rewrite lookup_insert_eq, <- app_assoc;
      repeat split; try reflexivity; intros _ Hi; discriminate.
Qed.

End CarouselFailures.

Lemma add_stores_nothing_witness :
  let req := post_carousel_request admin_session (photo "a.jpg") (VObj []) in
  let out := handle (with_fault 0 service_unavailable calm) req empty_world in
  out = (Val (add_failed service_unavailable),
         log (EBlobPut (generateBlobFilename (with_fault 0 service_unavailable calm)
                          "a.jpg")) empty_world)
  /\ stored (snd out) = stored empty_world.
Proof.
  exact (add_stores_nothing (with_fault 0 service_unavailable calm)
           (post_carousel_request admin_session (photo "a.jpg") (VObj []))
           empty_world eq_refl eq_refl eq_refl eq_refl service_unavailable eq_refl).
Defined.

Lemma add_insert_failure_orphans_blob_witness :
  let req := post_carousel_request admin_session (photo "a.jpg") (VObj []) in
  let row := inserted_row calm req (photo "a.jpg") (db world_at_last_order) in
  let out := handle calm req world_at_last_order in
  fst out = Val (add_failed Sql.out_of_range)
  /\ carousel_images (db (snd out)) = carousel_images (db world_at_last_order)
  /\ settings (db (snd out)) = settings (db world_at_last_order)
  /\ users (db (snd out)) = users (db world_at_last_order)
  /\ carousel_id_seq (db (snd out)) = 3
  /\ blobs (snd out) = <[image_url row := "JPEG"]> (blobs world_at_last_order)
  /\ blobs (snd out) !! image_url row = Some "JPEG"
  /\ trace (snd out)
     = trace world_at_last_order
       ++ [EBlobPut (generateBlobFilename calm "a.jpg");
           EQuery (InsertCarousel (image_url row) (link_url row)
                     (pg_text (or_else (prop "altText" (body req))
                                       (VStr "Carousel Image")))
                     "a.jpg")].
Proof.
  destruct (add_insert_failure_orphans_blob calm
              (post_carousel_request admin_session (photo "a.jpg") (VObj []))
              (photo "a.jpg") world_at_last_order Sql.out_of_range
              eq_refl eq_refl eq_refl eq_refl eq_refl eq_refl
              (or_intror (conj eq_refl (conj eq_refl eq_refl))))
    as (Hanswer & Hrows & Hsettings & Husers & Hseq & Hblobs & Hblob & Htrace).
  split; [exact Hanswer|]. split; [exact Hrows|]. split; [exact Hsettings|].
  split; [exact Husers|]. split; [exact (Hseq eq_refl eq_refl)|].
  split; [exact Hblobs|]. split; [exact Hblob|]. exact Htrace.
Defined.

(** ** Carousel: removing an image, the other outcomes *)

Section RemoveOutcomes.

Context `{Platform} (env : Env).

(** X14 (remove, no such image): an authenticated DELETE
    /api/carousel/:id for an id no row carries is answered 404; the
    transaction is rolled back and the client released, no blob call is
    issued, and the tables, the blobs and the sessions are what they
    were. *)
Theorem remove_not_found (req : Request) (id_param : string) (image_id : Z)
    (w : World) :
  req_method req = DELETE ->
  carousel_id_param (path_of (originalUrl req)) = Some id_param ->
  is_authenticated req = true ->
  parseInt id_param = Some image_id ->
  Sql.int4 image_id = true ->
  found_row image_id (db w) = None ->
  calls_ok env (List.length (trace w)) (List.length (trace w) + 4) ->
  let out := handle env req w in
  fst out = Val image_not_found
  /\ stored (snd out) = stored w
  /\ txn (snd out) = None
  /\ trace (snd out)
     = trace w ++ [EConnect; EQuery BEGIN; EQuery (SelectImageUrl image_id);
                   EQuery ROLLBACK; ERelease].
Proof.
  intros Hm Hp Ha Hid Hrange Hrow Hok. cbv zeta.
  rewrite (handle_delete env req id_param w Hm Hp Ha).
  change (runs (delete_carousel env id_param) w
            (fun r w' => r = Val image_not_found /\ stored w' = stored w
                         /\ txn w' = None
                         /\ trace w'
                            = trace w ++ [EConnect; EQuery BEGIN;
                                          EQuery (SelectImageUrl image_id);
                                          EQuery ROLLBACK; ERelease])).
  unfold delete_carousel, delete_carousel_with. rewrite Hid.
  apply runs_bind. call_ok Hok.
  apply runs_try_finally. apply runs_try_catch.
  apply runs_bind. call_ok Hok.
  apply runs_bind. call_ok Hok.
  unfold Sql.select_image_url. rewrite Hrange. world.
  unfold found_row in Hrow.
  destruct (List.filter (Sql.has_id image_id) (carousel_images (db w)))
    as [|row found]; [|discriminate].
  cbn [List.map]. apply runs_bind. call_ok Hok. apply runs_ret.
  unfold stored. world. rewrite <- !app_assoc. repeat split; reflexivity.
Qed.

Lemma blob_cleanup_calm (url : string) (w : World) :
  faultless env ->
  blob_cleanup env url w
  = (Val tt,
     match blobs w !! url with
     | Some _ => set_blobs (delete url (blobs w))
                           (log (EBlobDel url) (log (EBlobHead url) w))
     | None => log (EBlobHead url) w
     end).
Proof.
  intros Hcalm. unfold blob_cleanup, try_catch, bind, blob_head, blob_del, external.
  rewrite !Hcalm. cbn [blobs log]. destruct (blobs w !! url).
  - now rewrite Hcalm.
  - now destruct (is_not_found BlobNotFound).
Qed.

(** X15 (remove, the blob goes too): when no call fails, an authenticated
    DELETE /api/carousel/:id of an existing row answers 200, deletes the
    row, and, when the row's [image_url] starts with [http], asks the blob
    store for the blob and deletes it if it is there: afterwards the store
    holds nothing under that URL.  For any other [image_url] no blob call is
    issued.  The calls are those listed, the release of the client last. *)
Theorem remove_deletes_blob (req : Request) (id_param : string) (image_id : Z)
    (row : CarouselImage) (w : World) :
  faultless env ->
  req_method req = DELETE ->
  carousel_id_param (path_of (originalUrl req)) = Some id_param ->
  is_authenticated req = true ->
  parseInt id_param = Some image_id ->
  Sql.int4 image_id = true ->
  found_row image_id (db w) = Some row ->
  let url := image_url row in
  let out := handle env req w in
  fst out = Val deletion_processed
  /\ db (snd out) = without image_id (db w)
  /\ blobs (snd out) = (if is_blob_url url then delete url (blobs w) else blobs w)
  /\ (is_blob_url url = true -> blobs (snd out) !! url = None)
  /\ trace (snd out)
     = trace w
       ++ [EConnect; EQuery BEGIN; EQuery (SelectImageUrl image_id);
           EQuery (DeleteCarouselImage image_id)]
       ++ (if is_blob_url url
           then EBlobHead url :: match blobs w !! url with
                                 | Some _ => [EBlobDel url]
                                 | None => []
                                 end
           else [])
       ++ [EQuery COMMIT; ERelease].
Proof.
  intros Hcalm Hm Hp Ha Hid Hrange Hrow. cbv zeta.
  rewrite (handle_delete env req id_param w Hm Hp Ha).
  set (url := image_url row).
  set (Q := fun (r : Result Response) (w' : World) =>
    r = Val deletion_processed
    /\ db w' = without image_id (db w)
    /\ blobs w' = (if is_blob_url url then delete url (blobs w) else blobs w)
    /\ (is_blob_url url = true -> blobs w' !! url = None)
    /\ trace w'
       = trace w
         ++ [EConnect; EQuery BEGIN; EQuery (SelectImageUrl image_id);
             EQuery (DeleteCarouselImage image_id)]
         ++ (if is_blob_url url
             then EBlobHead url :: match blobs w !! url with
                                   | Some _ => [EBlobDel url]
                                   | None => []
                                   end
             else [])
         ++ [EQuery COMMIT; ERelease]).
  change (runs (delete_carousel env id_param) w Q).
  apply (delete_reaches_cleanup env _ id_param image_id row); try assumption.
  { now apply faultless_calls_ok. }
  fold url. apply runs_try_catch. apply runs_bind.
  assert (Hrest : forall w5,
            txn w5 = Some (without image_id (db w)) ->
            Q (Val deletion_processed)
              (client_release (set_txn None (set_db (without image_id (db w))
                                               (log (EQuery COMMIT) w5)))) ->
            runs (sql_commit env ;; ret deletion_processed) w5
              (fun r w1 => match r with
                           | Val a => Q (Val a) (client_release w1)
                           | Throw e =>
                               runs (sql_rollback env ;; ret (deletion_failed e)) w1
                                 (fun r0 w' => Q r0 (client_release w'))
                           end)).
  { intros w5 Htx HQ. apply runs_bind. apply runs_external;
      [intros e E; rewrite Hcalm in E; discriminate|].
    intros _. cbn [fst snd]. apply runs_ret. unfold working.
    cbn [txn log]. rewrite Htx. exact HQ. }
  destruct (is_blob_url url) eqn:Eurl.
  - unfold runs. rewrite (blob_cleanup_calm url _ Hcalm). cbn [fst snd blobs].
    destruct (blobs w !! url) as [content|] eqn:Eb.
    + apply Hrest; [reflexivity|]. unfold Q. world.
      rewrite <- !app_assoc. cbn [app].
      repeat split; try reflexivity. intros _. apply lookup_delete_eq.
    + apply Hrest; [reflexivity|]. unfold Q. world.
      rewrite <- !app_assoc. cbn [app].
      repeat split; try reflexivity.
      * symmetry. now apply delete_id.
      * intros _. exact Eb.
  - apply runs_ret. apply Hrest; [reflexivity|]. unfold Q. world.
    rewrite <- !app_assoc. cbn [app].
    repeat split; try reflexivity. discriminate.
Qed.

Lemma digit_not_space (c : ascii) :
  is_digit c = true ->
  (forall t, skip_spaces (String c t) = String c t)
  /\ Ascii.eqb c "-" = false /\ Ascii.eqb c "+" = false.
Proof.
  intros Hd.
  assert (is_space c = false /\ (forall c2, is_space2 c c2 = false)
          /\ (forall c2 c3, is_space3 c c2 c3 = false)
          /\ Ascii.eqb c "-" = false /\ Ascii.eqb c "+" = false)
    as (Hs & Hs2 & Hs3 & Hminus & Hplus).
  { destruct c as [[|] [|] [|] [|] [|] [|] [|] [|]];
      try discriminate Hd; repeat split; intros; reflexivity. }
  split; [|now split]. intros t. cbn [skip_spaces]. rewrite Hs.
  destruct t as [|c2 [|c3 t]]; rewrite ?Hs2, ?Hs3; reflexivity.
Qed.

Lemma read_digits_app (digits rest : string) :
  all_digits digits = true ->
  match rest with
  | EmptyString => True
  | String c _ => is_digit c = false
  end ->
  forall acc, read_digits acc (digits +:+ rest) = read_digits acc digits.
Proof.
  intros Hd Hstop. induction digits as [|c digits IH]; intros acc.
  - rewrite str_app_nil. destruct rest as [|d rest]; [reflexivity|].
    cbn [read_digits]. now rewrite Hstop.
  - cbn [all_digits] in Hd. apply andb_prop in Hd as [Hc Hd].
    rewrite str_app_cons. cbn [read_digits]. rewrite Hc. now apply IH.
Qed.

Lemma parseInt_trailing (digits rest : string) :
  digits <> "" -> all_digits digits = true ->
  match rest with
  | EmptyString => True
  | String c _ => is_digit c = false
  end ->
  parseInt (digits +:+ rest) = parseInt digits.
Proof.
  intros Hne Hd Hstop. destruct digits as [|c digits]; [contradiction|].
  pose proof Hd as Hd'. cbn [all_digits] in Hd'. apply andb_prop in Hd' as [Hc _].
  destruct (digit_not_space c Hc) as (Hs & Hminus & Hplus).
  assert (Hhead : forall t, parseInt (String c t) = read_digits None (String c t)).
  { intros t. unfold parseInt. rewrite Hs.
    destruct c as [[|] [|] [|] [|] [|] [|] [|] [|]];
      try discriminate Hminus; try discriminate Hplus; reflexivity. }
  rewrite str_app_cons, !Hhead, <- str_app_cons.
  now apply read_digits_app.
Qed.

(** X16 (remove, lenient id): the id of DELETE /api/carousel/:id is read
    with [parseInt] from [req.params.id], the segment of the path as
    Express decoded it: text after the leading digits is ignored.  A
    request whose decoded [:id] is [<digits><rest>], where [rest] does not
    start with a digit, does exactly what the request for [<digits>] does
    (so [/api/carousel/12abc] and [/api/carousel/12%20abc] delete image
    12). *)
Theorem remove_ignores_trailing_text (req1 req2 : Request) (digits rest : string)
    (w : World) :
  req_method req1 = DELETE -> req_method req2 = DELETE ->
  carousel_id_param (path_of (originalUrl req1)) = Some digits ->
  carousel_id_param (path_of (originalUrl req2)) = Some (digits +:+ rest) ->
  is_authenticated req1 = true -> is_authenticated req2 = true ->
  digits <> "" -> all_digits digits = true ->
  match rest with
  | EmptyString => True
  | String c _ => is_digit c = false
  end ->
  handle env req2 w = handle env req1 w.
Proof.
  intros Hm1 Hm2 Hp1 Hp2 Ha1 Ha2 Hne Hd Hstop.
  rewrite (handle_delete env req1 digits w Hm1 Hp1 Ha1).
  rewrite (handle_delete env req2 (digits +:+ rest) w Hm2 Hp2 Ha2).
  unfold delete_carousel, delete_carousel_with.
  now rewrite (parseInt_trailing digits rest Hne Hd Hstop).
Qed.

End RemoveOutcomes.

Lemma remove_not_found_witness :
  let out := handle calm (admin_delete "7") world_with_banner in
  fst out = Val image_not_found
  /\ stored (snd out) = stored world_with_banner
  /\ txn (snd out) = None
  /\ trace (snd out)
     = trace world_with_banner
       ++ [EConnect; EQuery BEGIN; EQuery (SelectImageUrl 7); EQuery ROLLBACK;
           ERelease].
Proof.
  exact (remove_not_found calm (admin_delete "7") "7" 7 world_with_banner
           eq_refl eq_refl eq_refl eq_refl eq_refl eq_refl (fun i _ => eq_refl)).
Defined.

Lemma remove_deletes_blob_witness :
  let url := image_url banner in
  let out := handle calm (admin_delete "1") world_with_banner in
  fst out = Val deletion_processed
  /\ db (snd out) = without 1 (db world_with_banner)
  /\ blobs (snd out)
     = (if is_blob_url url then delete url (blobs world_with_banner)
        else blobs world_with_banner)
  /\ (is_blob_url url = true -> blobs (snd out) !! url = None)
  /\ trace (snd out)
     = trace world_with_banner
       ++ [EConnect; EQuery BEGIN; EQuery (SelectImageUrl 1);
           EQuery (DeleteCarouselImage 1)]
       ++ (if is_blob_url url
           then EBlobHead url :: match blobs world_with_banner !! url with
                                 | Some _ => [EBlobDel url]
                                 | None => []
                                 end
           else [])
       ++ [EQuery COMMIT; ERelease].
Proof.
  exact (remove_deletes_blob calm (admin_delete "1") "1" 1 banner world_with_banner
           (fun _ => eq_refl) eq_refl eq_refl eq_refl eq_refl eq_refl eq_refl).
Defined.

Lemma remove_ignores_trailing_text_witness :
  handle calm (admin_delete "1%20abc") world_with_banner
  = handle calm (admin_delete "1") world_with_banner.
Proof.
  exact (remove_ignores_trailing_text calm (admin_delete "1") (admin_delete "1%20abc")
           "1" " abc" world_with_banner
           eq_refl eq_refl eq_refl eq_refl eq_refl eq_refl
           ltac:(discriminate) eq_refl eq_refl).
Defined.

(** ** Contact form: validation and the email branch *)

Section ContactMail.

Context `{Platform} (env : Env).

(** POST /api/submit-contact on four fields that are there, outside the
    WhatsApp branch. *)
Lemma submit_contact_mail (req : Request) (w : World) :
  truthy (prop "contactName" (body req)) = true ->
  truthy (prop "contactEmail" (body req)) = true ->
  truthy (prop "contactSubject" (body req)) = true ->
  truthy (prop "contactMessage" (body req)) = true ->
  String.eqb (resolved_action env w) "whatsapp" = false ->
  let w1 := log (EQuery SelectContactSettings) w in
  submit_contact env req w
  = if String.eqb (resolved_action env w) "email"
    then if mailTransporter env
         then match configured_recipient env w with
              | None => (Val recipient_not_set, w1)
              | Some recipientEmail =>
                  if converts (prop "contactName" (body req))
                     && converts (prop "contactSubject" (body req))
                     && converts (prop "contactEmail" (body req))
                     && converts (prop "contactMessage" (body req))
                  then
                    if is_string (prop "contactMessage" (body req))
                    then match fault env (S (List.length (trace w))) with
                         | None => (Val email_sent, log (ESendMail recipientEmail) w1)
                         | Some _ => (Val email_failed, log (ESendMail recipientEmail) w1)
                         end
                    else (Throw (TypeError "contactMessage.replace is not a function"), w1)
                  else (Throw (TypeError "Cannot convert object to primitive value"), w1)
              end
         else (Val email_unavailable, w1)
    else (Val invalid_action, w1).
Proof.
  intros Hn He Hs Hm Hact. cbv zeta. unfold submit_contact. rewrite Hn, He, Hs, Hm.
  cbn [negb orb].
  unfold resolved_action, configured_recipient, contact_rows in *.
  unfold bind at 1, try_catch at 1, pool_query, external at 1.
  assert (Hw : set_db (db w) (log (EQuery SelectContactSettings) w)
               = log (EQuery SelectContactSettings) w) by (destruct w; reflexivity).
  destruct (fault env (List.length (trace w))) as [e|]; cbn [ret fst snd log db];
    rewrite ?Hw; rewrite Hact;
    match goal with
    | |- context [String.eqb ?a "email"] => destruct (String.eqb a "email")
    end; try reflexivity;
    (destruct (mailTransporter env); cbn [negb]; [|reflexivity]);
    match goal with
    | |- context [first_truthy ?l] => destruct (first_truthy l)
    end; try reflexivity;
    unfold converts, template, bind at 1 2 3 4;
    (destruct (ToString (prop "contactName" (body req))); [|reflexivity]);
    (destruct (ToString (prop "contactSubject" (body req))); [|reflexivity]);
    (destruct (ToString (prop "contactEmail" (body req))); [|reflexivity]);
    (destruct (ToString (prop "contactMessage" (body req))); [|reflexivity]);
    cbn [andb ret];
    (destruct (prop "contactMessage" (body req)); cbn [is_string]; try reflexivity);
    unfold try_catch, bind, sendMail, external; cbn [trace log];
    rewrite List.length_app; cbn [List.length];
    replace (List.length (trace w) + 1)%nat with (S (List.length (trace w))) by lia;
    destruct (fault env (S (List.length (trace w)))); reflexivity.
Qed.

(** X17 (contact form, validation): a submission in which the name, the
    email, the subject or the message is missing or empty is answered 400
    "All fields are required."; the settings are not read, no mail is sent
    and nothing changes. *)
Theorem contact_requires_all_fields (req : Request) (w : World) :
  req_method req = POST -> path_of (originalUrl req) = "/api/submit-contact" ->
  forallb (fun field => truthy (prop field (body req)))
          ["contactName"; "contactEmail"; "contactSubject"; "contactMessage"] = false ->
  handle env req w = (Val all_fields_required, w).
Proof.
  intros Hm Hp Hbad. rewrite (handle_submit_contact env req w Hm Hp).
  unfold submit_contact. cbn [forallb] in Hbad.
  destruct (truthy (prop "contactName" (body req)));
    destruct (truthy (prop "contactEmail" (body req)));
    destruct (truthy (prop "contactSubject" (body req)));
    destruct (truthy (prop "contactMessage" (body req)));
    try discriminate Hbad; reflexivity.
Qed.

(** X18 (contact form, email): for a submission with its four fields
    present, a name, an email and a subject that convert to strings (the
    mail is built with template literals over them, and every string
    converts) and a message that is a string, when the action resolves to
    [email], a mail transporter was configured and a recipient is configured
    (settings, then environment), the handler reads the contact settings and
    hands exactly one mail to the transporter, addressed to that recipient.
    The answer is 200 [success: true, action: "email"] when the transport
    accepts it and 500 [success: false, action: "email"] when it fails;
    there is no second attempt, and nothing stored changes.  When one of the
    conversions throws, the handler throws before anything is handed to the
    transporter. *)
Theorem contact_email_sends_once (req : Request) (w : World) (recipient : string) :
  req_method req = POST -> path_of (originalUrl req) = "/api/submit-contact" ->
  truthy (prop "contactName" (body req)) = true ->
  truthy (prop "contactEmail" (body req)) = true ->
  truthy (prop "contactSubject" (body req)) = true ->
  truthy (prop "contactMessage" (body req)) = true ->
  is_string (prop "contactMessage" (body req)) = true ->
  resolved_action env w = "email" ->
  mailTransporter env = true ->
  configured_recipient env w = Some recipient ->
  let out := handle env req w in
  stored (snd out) = stored w
  /\ if converts (prop "contactName" (body req))
        && converts (prop "contactSubject" (body req))
        && converts (prop "contactEmail" (body req))
     then fst out = Val (match fault env (S (List.length (trace w))) with
                         | None => email_sent
                         | Some _ => email_failed
                         end)
          /\ trace (snd out)
             = trace w ++ [EQuery SelectContactSettings; ESendMail recipient]
     else fst out = Throw (TypeError "Cannot convert object to primitive value")
          /\ trace (snd out) = trace w ++ [EQuery SelectContactSettings].
Proof.
  intros Hm Hp Hn He Hs Hmsg Hstr Hact Hmail Hto. cbv zeta.
  rewrite (handle_submit_contact env req w Hm Hp).
  pose proof (submit_contact_mail req w Hn He Hs Hmsg) as E. cbv zeta in E.
  rewrite E by now rewrite Hact.
  rewrite Hact, Hmail, Hto, Hstr. cbn [String.eqb Ascii.eqb Bool.eqb].
  assert (converts (prop "contactMessage" (body req)) = true) as ->
    by (unfold converts; now destruct (prop "contactMessage" (body req))).
  rewrite andb_true_r.
  destruct (converts (prop "contactName" (body req))
            && converts (prop "contactSubject" (body req))
            && converts (prop "contactEmail" (body req)));
    [destruct (fault env (S (List.length (trace w))))|];
    cbn [fst snd trace log]; rewrite <- ?app_assoc; repeat split; reflexivity.
Qed.

(** X19 (contact form, configuration errors): for a submission with its
    four fields present, when the action resolves to [email] but no mail
    transporter was configured, or no recipient is configured, or when the
    action is neither [whatsapp] nor [email], the answer is a 500 error
    naming the problem; the only call is the SELECT of the contact
    settings, so no mail is sent, and nothing stored changes. *)
Theorem contact_configuration_errors (req : Request) (w : World) :
  req_method req = POST -> path_of (originalUrl req) = "/api/submit-contact" ->
  truthy (prop "contactName" (body req)) = true ->
  truthy (prop "contactEmail" (body req)) = true ->
  truthy (prop "contactSubject" (body req)) = true ->
  truthy (prop "contactMessage" (body req)) = true ->
  String.eqb (resolved_action env w) "whatsapp" = false ->
  String.eqb (resolved_action env w) "email" && mailTransporter env
  && bool_decide (is_Some (configured_recipient env w)) = false ->
  let out := handle env req w in
  fst out = Val (if String.eqb (resolved_action env w) "email"
                 then if mailTransporter env then recipient_not_set
                      else email_unavailable
                 else invalid_action)
  /\ trace (snd out) = trace w ++ [EQuery SelectContactSettings]
  /\ stored (snd out) = stored w.
Proof.
  intros Hm Hp Hn He Hs Hmsg Hact Hbad. cbv zeta.
  rewrite (handle_submit_contact env req w Hm Hp).
  pose proof (submit_contact_mail req w Hn He Hs Hmsg Hact) as E. cbv zeta in E.
  rewrite E.
  destruct (String.eqb (resolved_action env w) "email");
    [destruct (mailTransporter env);
     [destruct (configured_recipient env w); [discriminate Hbad|]|]|];
    repeat split; reflexivity.
Qed.

(** X20 (contact form, email, message that is no string): in the email
    branch the message is passed through [contactMessage.replace]; a message
    that passed the presence check without being a string (a number, [true],
    an array, an object) makes the handler throw before anything is handed
    to the transporter: no response is produced by the handler and no mail
    is sent. *)
Theorem contact_email_needs_string_message (req : Request) (w : World)
    (recipient : string) :
  req_method req = POST -> path_of (originalUrl req) = "/api/submit-contact" ->
  truthy (prop "contactName" (body req)) = true ->
  truthy (prop "contactEmail" (body req)) = true ->
  truthy (prop "contactSubject" (body req)) = true ->
  truthy (prop "contactMessage" (body req)) = true ->
  is_string (prop "contactMessage" (body req)) = false ->
  resolved_action env w = "email" ->
  mailTransporter env = true ->
  configured_recipient env w = Some recipient ->
  let out := handle env req w in
  (exists error, fst out = Throw error)
  /\ trace (snd out) = trace w ++ [EQuery SelectContactSettings]
  /\ existsb is_mail (trace (snd out)) = existsb is_mail (trace w).
Proof.
  intros Hm Hp Hn He Hs Hmsg Hstr Hact Hmail Hto. cbv zeta.
  rewrite (handle_submit_contact env req w Hm Hp).
  pose proof (submit_contact_mail req w Hn He Hs Hmsg) as E. cbv zeta in E.
  rewrite E by now rewrite Hact.
  rewrite Hact, Hmail, Hto, Hstr. cbn [String.eqb Ascii.eqb Bool.eqb].
  destruct (converts (prop "contactName" (body req))
            && converts (prop "contactSubject" (body req))
            && converts (prop "contactEmail" (body req))
            && converts (prop "contactMessage" (body req)));
    cbn [fst snd trace log];
    (split; [eexists; reflexivity|]); (split; [reflexivity|]);
    rewrite existsb_app; cbn [existsb is_mail]; now rewrite !orb_false_r.
Qed.

End ContactMail.

Lemma contact_requires_all_fields_witness :
  handle calm (contact_request (VStr "Asha") (VStr "asha@example.org")
                               (VStr "Admission") (VStr "")) empty_world
  = (Val all_fields_required, empty_world).
Proof.
  exact (contact_requires_all_fields calm
           (contact_request (VStr "Asha") (VStr "asha@example.org")
                            (VStr "Admission") (VStr "")) empty_world
           eq_refl eq_refl eq_refl).
Defined.

Lemma contact_email_sends_once_witness :
  let req := contact_request (VStr "Asha") (VStr "asha@example.org")
                             (VStr "Admission") (VStr "Is grade 5 open?") in
  let out := handle mail_env req world_with_email_action in
  stored (snd out) = stored world_with_email_action
  /\ fst out = Val email_sent
  /\ trace (snd out)
     = trace world_with_email_action
       ++ [EQuery SelectContactSettings; ESendMail "office@hill.example"].
Proof.
  exact (contact_email_sends_once mail_env
           (contact_request (VStr "Asha") (VStr "asha@example.org")
                            (VStr "Admission") (VStr "Is grade 5 open?"))
           world_with_email_action "office@hill.example"
           eq_refl eq_refl eq_refl eq_refl eq_refl eq_refl eq_refl eq_refl eq_refl
           eq_refl).
Defined.

Lemma contact_configuration_errors_witness :
  let req := contact_request (VStr "Asha") (VStr "asha@example.org")
                             (VStr "Admission") (VStr "Is grade 5 open?") in
  let out := handle mail_env req world_with_fax_action in
  fst out = Val invalid_action
  /\ trace (snd out) = trace world_with_fax_action ++ [EQuery SelectContactSettings]
  /\ stored (snd out) = stored world_with_fax_action.
Proof.
  exact (contact_configuration_errors mail_env
           (contact_request (VStr "Asha") (VStr "asha@example.org")
                            (VStr "Admission") (VStr "Is grade 5 open?"))
           world_with_fax_action
           eq_refl eq_refl eq_refl eq_refl eq_refl eq_refl eq_refl eq_refl).
Defined.

Lemma contact_email_needs_string_message_witness :
  let req := contact_request (VStr "Asha") (VStr "asha@example.org")
                             (VStr "Admission") (VNum 5) in
  let out := handle mail_env req world_with_email_action in
  (exists error, fst out = Throw error)
  /\ trace (snd out) = trace world_with_email_action ++ [EQuery SelectContactSettings]
  /\ existsb is_mail (trace (snd out)) = existsb is_mail (trace world_with_email_action).
Proof.
  exact (contact_email_needs_string_message mail_env
           (contact_request (VStr "Asha") (VStr "asha@example.org")
                            (VStr "Admission") (VNum 5))
           world_with_email_action "office@hill.example"
           eq_refl eq_refl eq_refl eq_refl eq_refl eq_refl eq_refl eq_refl eq_refl
           eq_refl).
Defined.

(** ** The database client, and the requests that only read *)

Ltac step_inv :=
  match goal with
  | |- preserves _ (ret _) => apply preserves_ret
  | |- preserves _ (throw _) => apply preserves_throw
  | |- preserves _ (template _) => apply preserves_template
  | |- preserves _ (uri_component _) => apply preserves_uri_component
  | |- preserves _ (bind _ _) => apply preserves_bind; [|intros ?]
  | |- preserves _ (try_catch _ _) => apply preserves_try_catch; [|intros ?]
  | |- preserves _ (try_finally _ _) => apply preserves_try_finally
  | |- preserves _ (for_each _ _) => apply preserves_for_each; intros ?
  | |- preserves _ (if ?b then _ else _) => destruct b
  | |- preserves _ (match ?x with _ => _ end) => destruct x
  end.

Section Client.

Context `{Platform} (env : Env).

Lemma with_client {A} (body : M A) (w : World) :
  (db_connect env ;; try_finally body client_release) w
  = match fault env (List.length (trace w)) with
    | Some e => (Throw e, log EConnect w)
    | None =>
        (fst (body (set_txn None (log EConnect w))),
         client_release (snd (body (set_txn None (log EConnect w)))))
    end.
Proof.
  unfold bind, db_connect, external, try_finally.
  destruct (fault env (List.length (trace w))); [reflexivity|].
  now destruct (body (set_txn None (log EConnect w))).
Qed.

Lemma external_since {A} (t0 : list event) (ev : event)
    (act : World -> Result A * World) :
  is_client_event ev = false ->
  (forall w, trace (snd (act w)) = trace w) ->
  preserves (calls_since t0) (external env ev act).
Proof.
  intros Hev Hact. apply preserves_external.
  - intros w (calls & Ht & Hc). exists (calls ++ [ev]). cbn [trace log].
    rewrite Ht, <- app_assoc, forallb_app, Hc. cbn [forallb]. rewrite Hev.
    split; reflexivity.
  - intros w (calls & Ht & Hc). exists calls. now rewrite Hact.
Qed.

Lemma client_query_since {A} (t0 : list event) (s : stmt)
    (run : Tables -> Result A * Tables) :
  preserves (calls_since t0) (client_query env s run).
Proof.
  apply external_since; [reflexivity|]. intros w.
  destruct (run (working w)) as [r t]. unfold set_working.
  now destruct (txn w).
Qed.

Lemma blob_cleanup_since (t0 : list event) (url : string) :
  preserves (calls_since t0) (blob_cleanup env url).
Proof.
  unfold blob_cleanup, blob_head, blob_del.
  repeat step_inv; apply external_since; try reflexivity.
  intros w. now destruct (blobs w !! url).
Qed.

Lemma ends_bind {A} (t0 : list event) (m : M A) (k : A -> M Response) :
  preserves (calls_since t0) m ->
  (forall a, ends env t0 (k a)) ->
  ends env t0 (bind m k).
Proof.
  intros Hm Hk w Hw. specialize (Hm w Hw). unfold bind.
  destruct (m w) as [[a|e] w1]; cbn [fst snd] in *.
  - now apply Hk.
  - exact Hm.
Qed.

Lemma ends_last (t0 : list event) (last : stmt) (act : World -> Result unit * World)
    (res : Response) :
  last = COMMIT \/ last = ROLLBACK ->
  (forall w, fst (act w) = Val tt /\ txn (snd (act w)) = None
             /\ trace (snd (act w)) = trace w) ->
  ends env t0 (external env (EQuery last) act ;; ret res).
Proof.
  intros Hlast Hact w (calls & Ht & Hc). unfold bind, external.
  destruct (fault env (List.length (trace w))) as [e|] eqn:Hf; cbn [fst snd].
  - exists (calls ++ [EQuery last]). cbn [trace log].
    rewrite Ht, <- app_assoc, forallb_app, Hc.
    split; [reflexivity|]. now destruct Hlast as [-> | ->].
  - destruct (Hact (log (EQuery last) w)) as (Hr & Htxn & Htr).
    destruct (act (log (EQuery last) w)) as [r w1]. cbn [fst snd] in *.
    subst r. unfold closes, ret. cbn [fst snd].
    exists calls, last. rewrite Htr. cbn [trace log]. rewrite Ht, <- app_assoc.
    split; [reflexivity|]. split; [exact Hc|]. split; [exact Hlast|].
    rewrite Ht, List.length_app in Hf. rewrite Hf. eauto.
Qed.

Lemma closes_catch (t0 : list event) (m : M Response) (answer : JsError -> Response)
    (w : World) :
  ends env t0 m ->
  calls_since t0 w ->
  closes env t0 (try_catch m (fun error => sql_rollback env ;; ret (answer error)) w).
Proof.
  intros Hm Hw. specialize (Hm w Hw). unfold try_catch.
  destruct (m w) as [[res|e] w1]; cbn [fst snd] in Hm; [exact Hm|].
  destruct Hm as (calls & Ht & Hc).
  unfold closes, sql_rollback, bind, external.
  exists calls, ROLLBACK.
  rewrite Ht, List.length_app in *.
  destruct (fault env (List.length t0 + List.length calls)) as [e'|];
    cbn [fst snd ret trace log set_txn txn]; rewrite Ht, <- ?app_assoc; eauto 8.
Qed.

Lemma released (body : M Response) (w : World) :
  (forall w0, calls_since (trace w ++ [EConnect]) w0 ->
              closes env (trace w ++ [EConnect]) (body w0)) ->
  let n := List.length (trace w) in
  let out := (db_connect env ;; try_finally body client_release) w in
  match fault env n with
  | Some e => out = (Throw e, log EConnect w)
  | None =>
      exists calls last,
        trace (snd out) = trace w ++ EConnect :: calls ++ [EQuery last; ERelease]
        /\ forallb (fun ev => negb (is_client_event ev)) calls = true
        /\ (last = COMMIT \/ last = ROLLBACK)
        /\ match fault env (n + 1 + List.length calls) with
           | None => txn (snd out) = None /\ exists res, fst out = Val res
           | Some e => fst out = Throw e
           end
  end.
Proof.
  intros Hbody. cbv zeta. rewrite with_client.
  destruct (fault env (List.length (trace w))); [reflexivity|].
  destruct (Hbody (set_txn None (log EConnect w)))
    as (calls & last & Ht & Hc & Hlast & Hend).
  { exists []. split; [now rewrite app_nil_r|reflexivity]. }
  exists calls, last. cbn [fst snd trace client_release log txn].
  rewrite Ht, <- !app_assoc. split; [reflexivity|]. split; [exact Hc|].
  split; [exact Hlast|].
  rewrite List.length_app in Hend. cbn [List.length] in Hend. exact Hend.
Qed.

(** X21 (the database client is always given back): a settings save with a
    [settings] object and a carousel deletion with a numeric id check a
    client out of the pool first.  When that checkout fails the handler
    throws and issues nothing else.  When it succeeds, whatever happens
    next (a statement or a blob call fails, the row is not there) the
    handler checks out no second client, the last statement it sends is a
    COMMIT or a ROLLBACK, and the call after it, the last one, is the only
    release of the client.  When that last statement goes through, the
    handler answers and no transaction is open on the released client; when
    it fails (it is then the ROLLBACK of the [catch]), its error is thrown
    out of the handler, after the release. *)
Theorem client_always_released (req : Request) (w : World) :
  is_authenticated req = true ->
  uses_client req = true ->
  let n := List.length (trace w) in
  let out := handle env req w in
  match fault env n with
  | Some e => out = (Throw e, log EConnect w)
  | None =>
      exists calls last,
        trace (snd out) = trace w ++ EConnect :: calls ++ [EQuery last; ERelease]
        /\ forallb (fun ev => negb (is_client_event ev)) calls = true
        /\ (last = COMMIT \/ last = ROLLBACK)
        /\ match fault env (n + 1 + List.length calls) with
           | None => txn (snd out) = None /\ exists res, fst out = Val res
           | Some e => fst out = Throw e
           end
  end.
Proof.
  intros Ha Huses.
  assert (Hcommit : forall t0 res, ends env t0 (sql_commit env ;; ret res)).
  { intros t0 res. apply ends_last; [now left|]. intros w0. now cbn. }
  assert (Hrollback : forall t0 res, ends env t0 (sql_rollback env ;; ret res)).
  { intros t0 res. apply ends_last; [now right|]. intros w0. now cbn. }
  unfold uses_client in Huses.
  destruct (req_method req) eqn:Hm; [discriminate| |].
  - apply andb_prop in Huses as [Hp Hv].
    replace (handle env req w) with (post_settings env req w)
      by (unfold handle; rewrite Hm; other_routes Hp;
          now rewrite checkAuth_granted).
    unfold post_settings. unfold valid_settings in Hv.
    apply andb_prop in Hv as [Hv1 Hv2]. rewrite Hv1, Hv2. cbn [negb orb].
    apply released. intros w0 Hw0.
    apply (closes_catch _ _ (fun _ => settings_failed)); [|exact Hw0].
    apply ends_bind; [apply external_since; reflexivity|intros _].
    apply ends_bind; [|intros _; apply Hcommit].
    apply preserves_for_each. intros entry. apply client_query_since.
  - destruct (carousel_id_param (path_of (originalUrl req))) as [id_param|] eqn:Hp;
      [|discriminate].
    rewrite (handle_delete env req id_param w Hm Hp Ha).
    unfold delete_carousel, delete_carousel_with.
    destruct (parseInt id_param) as [imageId|]; [|discriminate].
    apply released. intros w0 Hw0.
    apply (closes_catch _ _
             (fun error =>
                res_json 500
                  (VObj [("error", VStr "Failed to process image deletion.");
                         ("details", VStr (err_message error))])));
      [|exact Hw0].
    apply ends_bind; [apply external_since; reflexivity|intros _].
    apply ends_bind; [apply client_query_since|intros [|url rest]].
    + apply Hrollback.
    + apply ends_bind; [apply client_query_since|intros rowCount].
      apply ends_bind; [destruct (Nat.eqb rowCount 0);
                        [apply preserves_throw|apply preserves_ret]|intros _].
      apply ends_bind; [|intros _; apply Hcommit].
      destruct (truthy (VStr url) && startsWith url "http");
        [apply blob_cleanup_since|apply preserves_ret].
Qed.

Lemma get_carousel_runs (w : World) :
  get_carousel env w
  = (Val match fault env (List.length (trace w)) with
         | Some _ => res_json 500 (VObj [("error",
                                          VStr "Failed to retrieve carousel images.")])
         | None => res_json 200 (VArr (List.map row_to_js (Sql.select_carousel (db w))))
         end,
     log (EQuery SelectCarousel) w).
Proof.
  unfold get_carousel, try_catch, bind, pool_query, external.
  destruct (fault env (List.length (trace w))); [reflexivity|].
  destruct w; reflexivity.
Qed.

(** X22 (GET requests only read): whatever the path, whatever the
    session and whatever fails, a GET request is answered (the handlers
    throw nothing) and leaves the tables, the sessions and the blobs as
    they were; it issues one SELECT at most (of the settings or of
    the carousel). *)
Theorem get_changes_nothing (req : Request) (w : World) :
  req_method req = GET ->
  let out := handle env req w in
  (exists res, fst out = Val res)
  /\ stored (snd out) = stored w
  /\ (trace (snd out) = trace w
      \/ trace (snd out) = trace w ++ [EQuery SelectSettings]
      \/ trace (snd out) = trace w ++ [EQuery SelectCarousel]).
Proof.
  intros Hm. cbv zeta. unfold handle. rewrite Hm.
  assert (Hquiet : forall res : Response,
            (exists res', fst (ret res w) = Val res')
            /\ stored (snd (ret res w)) = stored w
            /\ (trace (snd (ret res w)) = trace w
                \/ trace (snd (ret res w)) = trace w ++ [EQuery SelectSettings]
                \/ trace (snd (ret res w)) = trace w ++ [EQuery SelectCarousel])).
  { intros res. split; [eexists; reflexivity|]. split; [reflexivity|now left]. }
  repeat match goal with
         | |- context [if String.eqb ?a ?b then _ else _] =>
             destruct (String.eqb a b)
         | |- context [if route ?a ?b then _ else _] =>
             destruct (route a b)
         end; try apply Hquiet.
  - unfold checkAuth. destruct (is_authenticated req); [apply Hquiet|].
    destruct (startsWith (originalUrl req) "/api/"); apply Hquiet.
  - pose proof (get_settings_runs env w) as Hrun. unfold runs in Hrun.
    destruct Hrun as [Hw Hr]. rewrite Hw.
    split; [destruct (fault env (List.length (trace w))); eauto|].
    split; [reflexivity|]. right. left. reflexivity.
  - rewrite get_carousel_runs. split; [eexists; reflexivity|].
    split; [reflexivity|]. right. right. reflexivity.
Qed.

End Client.

Lemma client_always_released_witness :
  let env := with_fault 2 connection_reset (with_fault 3 connection_reset calm) in
  let n := List.length (trace empty_world) in
  let out := handle env (admin_post_settings sample_settings) empty_world in
  (exists calls last,
     trace (snd out)
     = trace empty_world ++ EConnect :: calls ++ [EQuery last; ERelease]
     /\ forallb (fun ev => negb (is_client_event ev)) calls = true
     /\ (last = COMMIT \/ last = ROLLBACK)
     /\ match fault env (n + 1 + List.length calls) with
        | None => txn (snd out) = None /\ exists res, fst out = Val res
        | Some e => fst out = Throw e
        end)
  /\ fst out = Throw connection_reset
  /\ trace (snd out)
     = [EConnect; EQuery BEGIN; EQuery (UpsertSetting "schoolName" "Hill School");
        EQuery ROLLBACK; ERelease].
Proof.
  split.
  - exact (client_always_released
             (with_fault 2 connection_reset (with_fault 3 connection_reset calm))
             (admin_post_settings sample_settings) empty_world eq_refl eq_refl).
  - split; vm_compute; reflexivity.
Defined.

Lemma get_changes_nothing_witness :
  let out := handle calm get_carousel_request world_with_banner in
  (exists res, fst out = Val res)
  /\ stored (snd out) = stored world_with_banner
  /\ (trace (snd out) = trace world_with_banner
      \/ trace (snd out) = trace world_with_banner ++ [EQuery SelectSettings]
      \/ trace (snd out) = trace world_with_banner ++ [EQuery SelectCarousel]).
Proof.
  exact (get_changes_nothing calm get_carousel_request world_with_banner eq_refl).
Defined.

(** ** Start-up: allowed origins and the seed administrator *)

Section StartupProperties.

Context (env : Env).

(** X23 (CORS): a request without an [Origin] header is always let
    through.  A request with one is let through exactly when the origin is
    the empty string, or is the configured [FRONTEND_URL], or, outside
    production, is one of the two local development origins; any other
    origin is refused with an error (so in production without
    [FRONTEND_URL] every cross-origin request is refused). *)
Theorem cors_allowed_origins :
  cors_origin env None = Val true
  /\ forall origin,
       (cors_origin env (Some origin) = Val true
        <-> origin = ""
            \/ process_env env "FRONTEND_URL" = Some origin
            \/ (production env = false
                /\ (origin = "http://localhost:5173"
                    \/ origin = "http://localhost:3000")))
       /\ (cors_origin env (Some origin) = Val true
           \/ exists error, cors_origin env (Some origin) = Throw error).
Proof.
  split; [reflexivity|]. intros origin.
  unfold cors_origin, allowedOrigins.
  destruct (String.eqb_spec origin "") as [->|Hne]; cbn [orb].
  { split; [|now left]. split; [now left|reflexivity]. }
  rewrite existsb_app.
  assert (Hfront : existsb (String.eqb origin)
                     match process_env env "FRONTEND_URL" with
                     | Some u => if String.eqb u "" then [] else [u]
                     | None => []
                     end = true
                   <-> process_env env "FRONTEND_URL" = Some origin).
  { destruct (process_env env "FRONTEND_URL") as [u|]; [|split; discriminate].
    destruct (String.eqb_spec u "") as [->|Hu]; cbn [existsb].
    - split; [discriminate|]. intros E. injection E as <-. contradiction.
    - rewrite orb_false_r. split.
      + intros E. apply String.eqb_eq in E. now subst.
      + intros E. injection E as ->. apply String.eqb_refl. }
  assert (Hlocal : existsb (String.eqb origin)
                     (if production env then []
                      else ["http://localhost:5173"; "http://localhost:3000"]) = true
                   <-> production env = false
                       /\ (origin = "http://localhost:5173"
                           \/ origin = "http://localhost:3000")).
  { destruct (production env); cbn [existsb].
    - split; [discriminate|now intros [? _]].
    - rewrite orb_false_r, orb_true_iff, !String.eqb_eq. tauto. }
  match goal with
  | |- context [existsb ?f ?l1 || existsb ?f ?l2] =>
      destruct (existsb f l1) eqn:E1; destruct (existsb f l2) eqn:E2
  end; cbn [orb].
  1,2,3: split; [|now left]; split; [intros _|reflexivity].
  1,2: right; left; now apply Hfront.
  1: right; right; now apply Hlocal.
  split; [|right; eexists; reflexivity].
  split; [discriminate|]. intros [->|[E|E]]; [contradiction| |].
  - apply Hfront in E. discriminate E.
  - apply Hlocal in E. discriminate E.
Qed.

Variable bcrypt_hash : string -> string.

(** X24 (seed administrator): [initializeDatabase] touches nothing but the
    row of the default administrator ([ADMIN_USERNAME], else [admin]):
    whichever of its calls fail, it leaves the users table as it was or
    with that one row added.  A row that is already there is never
    overwritten, so a restart does not reset a changed password.  When the
    row is missing and no call fails, it is created with the hash of
    [ADMIN_PASSWORD_PLAIN], else of [password123]; a second run then
    changes nothing. *)
Theorem seed_admin (fails : init_call -> bool) (t : Tables) :
  let name := default "admin" (first_truthy [process_env env "ADMIN_USERNAME"]) in
  let password :=
    default "password123" (first_truthy [process_env env "ADMIN_PASSWORD_PLAIN"]) in
  let t' := initializeDatabase env bcrypt_hash fails t in
  settings t' = settings t
  /\ carousel_images t' = carousel_images t
  /\ carousel_id_seq t' = carousel_id_seq t
  /\ (users t' = users t \/ users t' = <[name := bcrypt_hash password]> (users t))
  /\ (is_Some (users t !! name) -> t' = t)
  /\ ((forall call, fails call = false) -> users t !! name = None ->
      users t' = <[name := bcrypt_hash password]> (users t)
      /\ forall fails', initializeDatabase env bcrypt_hash fails' t' = t').
Proof.
  cbv zeta. unfold initializeDatabase.
  set (name := default "admin" (first_truthy [process_env env "ADMIN_USERNAME"])).
  set (password :=
         default "password123" (first_truthy [process_env env "ADMIN_PASSWORD_PLAIN"])).
  assert (Hsame : settings t = settings t /\ carousel_images t = carousel_images t
                  /\ carousel_id_seq t = carousel_id_seq t
                  /\ (users t = users t
                      \/ users t = <[name := bcrypt_hash password]> (users t))
                  /\ (is_Some (users t !! name) -> t = t))
    by (repeat split; auto).
  unfold Sql.select_user, insert_user.
  destruct (users t !! name) as [hash|] eqn:Hrow.
  - repeat match goal with
           | |- context [if ?b then _ else _] => destruct b
           end;
      (split; [|split; [|split; [|split; [|split]]]]); auto;
      intros _ Hnone; discriminate Hnone.
  - destruct (fails CreateSettingsTable) eqn:F1; cbn [orb].
    { repeat (split; [tauto|]). intros Hall. now rewrite Hall in F1. }
    destruct (fails CreateCarouselTable) eqn:F2; cbn [orb].
    { repeat (split; [tauto|]). intros Hall. now rewrite Hall in F2. }
    destruct (fails CreateUsersTable) eqn:F3; cbn [orb].
    { repeat (split; [tauto|]). intros Hall. now rewrite Hall in F3. }
    destruct (fails SelectAdmin) eqn:F4.
    { repeat (split; [tauto|]). intros Hall. now rewrite Hall in F4. }
    destruct (fails HashPassword) eqn:F5; cbn [orb].
    { repeat (split; [tauto|]). intros Hall. now rewrite Hall in F5. }
    destruct (fails InsertAdmin) eqn:F6.
    { repeat (split; [tauto|]). intros Hall. now rewrite Hall in F6. }
    cbn [default from_option Datatypes.id settings carousel_images carousel_id_seq
         users].
    split; [reflexivity|]. split; [reflexivity|]. split; [reflexivity|].
    split; [now right|]. split; [intros [x Hx]; discriminate Hx|].
    intros _ _. split; [reflexivity|]. intros fails'.
    cbn [users]. rewrite lookup_insert_eq.
    repeat match goal with
           | |- context [if ?b then _ else _] => destruct b
           end; reflexivity.
Qed.

End StartupProperties.

(** ** Across the handlers *)

Section AnswerRules.

Lemma answers_ret (Q : Response -> Prop) (res : Response) :
  Q res -> answers Q (ret res).
Proof. intros HQ w r E. cbn in E. now injection E as <-. Qed.

Lemma answers_throw (Q : Response -> Prop) (e : JsError) : answers Q (throw e).
Proof. intros w r E. discriminate E. Qed.

Lemma answers_bind {A} (Q : Response -> Prop) (m : M A) (k : A -> M Response) :
  (forall a, answers Q (k a)) -> answers Q (bind m k).
Proof.
  intros Hk w r. unfold bind. destruct (m w) as [[a|e] w']; [apply Hk|discriminate].
Qed.

Lemma answers_try_catch (Q : Response -> Prop) (m : M Response)
    (h : JsError -> M Response) :
  answers Q m -> (forall e, answers Q (h e)) -> answers Q (try_catch m h).
Proof.
  intros Hm Hh w r. unfold try_catch. specialize (Hm w).
  destruct (m w) as [[a|e] w']; [apply Hm|apply Hh].
Qed.

Lemma answers_try_finally (Q : Response -> Prop) (m : M Response)
    (f : World -> World) :
  answers Q m -> answers Q (try_finally m f).
Proof.
  intros Hm w r. unfold try_finally. specialize (Hm w).
  destruct (m w) as [r' w']. apply Hm.
Qed.

End AnswerRules.

Section Across.

Context `{Platform} (env : Env).

Lemma display_orders_filter (p : CarouselImage -> bool) (rows : list CarouselImage) :
  NoDup (display_orders rows) -> NoDup (display_orders (List.filter p rows)).
Proof.
  intros Hnd. apply (sublist_NoDup _ _ Hnd). clear Hnd.
  induction rows as [|r rows IH]; [constructor|].
  change (display_orders (r :: rows))
    with (match display_order r with
          | Some d => d :: display_orders rows
          | None => display_orders rows
          end).
  cbn [List.filter]. destruct (p r).
  - change (display_orders (r :: List.filter p rows))
      with (match display_order r with
            | Some d => d :: display_orders (List.filter p rows)
            | None => display_orders (List.filter p rows)
            end).
    destruct (display_order r); [now apply sublist_skip|exact IH].
  - destruct (display_order r); [now apply sublist_cons|exact IH].
Qed.

(** X25 (display orders stay distinct): if no two rows of the carousel
    share a display order, no request of any kind, successful or not, makes
    two rows share one: an insert takes a number above every number in use,
    a deletion only removes rows, and nothing else writes the column.  So
    the tie-break by id never decides the order of rows added through the
    API. *)
Theorem display_orders_stay_distinct (req : Request) (w : World) :
  NoDup (display_orders (carousel_images (db w))) ->
  NoDup (display_orders (carousel_images (db (snd (handle env req w))))).
Proof.
  intros Hnd.
  destruct (handle_keeps_rows env req w) as [->|[(row & -> & Hrow)|(image_id & ->)]].
  - exact Hnd.
  - unfold display_orders in *. rewrite omap_app.
    change (omap display_order [row])
      with (match display_order row with Some d => [d] | None => [] end).
    rewrite Hrow. apply NoDup_app. split; [exact Hnd|]. split; [|apply NoDup_singleton].
    intros d Hd Hin. apply list_elem_of_singleton in Hin. subst d.
    apply list_elem_of_omap in Hd as (r & Hr & Hd).
    apply list_elem_of_In in Hr.
    pose proof (max_display_order_spec (carousel_images (db w))) as Hmax.
    unfold Sql.next_display_order in Hd.
    destruct (Sql.max_display_order (carousel_images (db w))) as [m|].
    + destruct Hmax as [_ Hle]. specialize (Hle r _ Hr Hd).
      cbn [default from_option] in Hle. unfold Datatypes.id in Hle. lia.
    + rewrite (Hmax r Hr) in Hd. discriminate Hd.
  - now apply display_orders_filter.
Qed.

(** X26 (errors are explained): every JSON answer of the server with a
    status of 400 or above carries the reason as a string, under [error] or
    under [message]: this holds for every request, every state and every
    failure of an external call. *)
Theorem error_answers_are_explained (req : Request) (w : World) :
  match fst (handle env req w) with
  | Val res => explains_errors res = true
  | Throw _ => True
  end.
Proof.
  assert (Hall : answers (fun res => explains_errors res = true) (handle env req)).
  { unfold handle, checkAuth, login, logout, get_settings, post_settings,
      createUploadHandler, get_carousel, post_carousel, delete_carousel,
      delete_carousel_with, submit_contact.
    repeat match goal with
           | |- answers _ (ret _) => apply answers_ret; reflexivity
           | |- answers _ (ret (unmatched ?path)) =>
               apply answers_ret; unfold unmatched;
               destruct (carousel_segment path), (carousel_id_param path);
               reflexivity
           | |- answers _ (throw _) => apply answers_throw
           | |- answers _ (bind _ _) => apply answers_bind; intros ?
           | |- answers _ (try_catch _ _) => apply answers_try_catch; [|intros ?]
           | |- answers _ (try_finally _ _) => apply answers_try_finally
           | |- answers _ (if ?b then _ else _) => destruct b
           | |- answers _ (match ?x with _ => _ end) => destruct x
           end. }
  specialize (Hall w). destruct (fst (handle env req w)); [now apply Hall|exact I].
Qed.

(** X27 (carousel add, row and blob): when the upload and the INSERT go
    through, the new row and the blob store agree: the row's [image_url] is
    the URL under which the store now holds the uploaded bytes.  The row
    takes the next value of the id sequence, keeps the original file name,
    has [alt_text] "Carousel Image" when the form gave none (or an empty
    one), and [link_url] NULL when the form gave no link. *)
Theorem add_links_row_to_blob (req : Request) (f : Upload) (w : World) :
  req_method req = POST -> path_of (originalUrl req) = "/api/carousel" ->
  is_authenticated req = true ->
  upload req = Some f -> fieldname f = "carouselImage" ->
  calls_ok env (List.length (trace w)) (List.length (trace w) + 2) ->
  Sql.int4 (carousel_id_seq (db w)) = true ->
  Sql.int4 (Sql.next_display_order (db w)) = true ->
  let out := handle env req w in
  exists row,
    fst out = Val (image_added row)
    /\ carousel_images (db (snd out)) = carousel_images (db w) ++ [row]
    /\ blobs (snd out) !! image_url row = Some (buffer f)
    /\ id row = carousel_id_seq (db w)
    /\ carousel_id_seq (db (snd out)) = carousel_id_seq (db w) + 1
    /\ file_name row = Some (originalname f)
    /\ alt_text row
       = Some (pg_text (if truthy (prop "altText" (body req))
                        then prop "altText" (body req)
                        else VStr "Carousel Image"))
    /\ link_url row
       = (if truthy (prop "linkURL" (body req))
          then Some (pg_text (prop "linkURL" (body req)))
          else None).
Proof.
  intros Hm Hp Ha Hf Hfield Hok Hseq Hnext. cbv zeta.
  rewrite (handle_add env req w Hm Hp Ha).
  rewrite (multer_accepts "carouselImage" req f _ w Hf Hfield).
  pose proof (post_carousel_steps env req f w) as E. cbv zeta in E.
  rewrite E, !Hok, Hseq, Hnext by lia.
  exists (inserted_row env req f (db w)).
  cbn [andb fst snd db blobs set_db set_blobs log Sql.set_carousel carousel_images
       carousel_id_seq inserted_row id file_name alt_text link_url image_url].
  rewrite lookup_insert_eq. repeat split; reflexivity.
Qed.

End Across.

Lemma display_orders_stay_distinct_witness :
  NoDup (display_orders
           (carousel_images
              (db (snd (handle calm (admin_delete "2") world_with_three_images))))).
Proof.
  apply (display_orders_stay_distinct calm (admin_delete "2") world_with_three_images).
  apply NoDup_ListNoDup. vm_compute.
  repeat (constructor; [cbn [In]; intuition discriminate|]). constructor.
Defined.

Lemma add_links_row_to_blob_witness :
  let req := post_carousel_request admin_session (photo "a.jpg") (VObj []) in
  let out := handle calm req empty_world in
  exists row,
    fst out = Val (image_added row)
    /\ carousel_images (db (snd out)) = carousel_images (db empty_world) ++ [row]
    /\ blobs (snd out) !! image_url row = Some "JPEG"
    /\ id row = carousel_id_seq (db empty_world)
    /\ carousel_id_seq (db (snd out)) = carousel_id_seq (db empty_world) + 1
    /\ file_name row = Some "a.jpg"
    /\ alt_text row = Some "Carousel Image"
    /\ link_url row = None.
Proof.
  exact (add_links_row_to_blob calm
           (post_carousel_request admin_session (photo "a.jpg") (VObj []))
           (photo "a.jpg") empty_world
           eq_refl eq_refl eq_refl eq_refl eq_refl (fun i _ => eq_refl)
           eq_refl eq_refl).
Defined.

Section RemoveAtomic.

Context `{Platform} (env : Env).

(** X28 (remove is all or nothing): whatever fails during an authenticated
    DELETE /api/carousel/:id (the checkout, a statement, a blob call, COMMIT
    or ROLLBACK), the committed tables are afterwards either exactly what
    they were or exactly what they were without the rows of that id; the
    settings, the users and the id sequence are the same in both cases. *)
Theorem remove_all_or_nothing (req : Request) (id_param : string) (w : World) :
  req_method req = DELETE ->
  carousel_id_param (path_of (originalUrl req)) = Some id_param ->
  is_authenticated req = true ->
  let w' := snd (handle env req w) in
  (db w' = db w
   \/ exists image_id, parseInt id_param = Some image_id
                       /\ db w' = without image_id (db w))
  /\ settings (db w') = settings (db w)
  /\ users (db w') = users (db w)
  /\ carousel_id_seq (db w') = carousel_id_seq (db w).
Proof.
  intros Hm Hp Ha. cbv zeta. rewrite (handle_delete env req id_param w Hm Hp Ha).
  pose proof (delete_frame env (blob_cleanup env) id_param w
                (fun P url => blob_cleanup_inv env P url)) as Hframe.
  cbv zeta in Hframe. fold (delete_carousel env) in Hframe.
  split; [exact Hframe|].
  destruct Hframe as [->|(image_id & _ & ->)]; repeat split; reflexivity.
Qed.

End RemoveAtomic.

Lemma remove_all_or_nothing_witness :
  let w' := snd (handle (with_fault 4 connection_reset calm) (admin_delete "1")
                        world_with_banner) in
  (db w' = db world_with_banner
   \/ exists image_id, parseInt "1" = Some image_id
                       /\ db w' = without image_id (db world_with_banner))
  /\ settings (db w') = settings (db world_with_banner)
  /\ users (db w') = users (db world_with_banner)
  /\ carousel_id_seq (db w') = carousel_id_seq (db world_with_banner).
Proof.
  exact (remove_all_or_nothing (with_fault 4 connection_reset calm) (admin_delete "1")
           "1" world_with_banner eq_refl eq_refl eq_refl).
Defined.

(** ** The handlers at work *)

Example parseInt_examples :
  parseInt "42" = Some 42 /\ parseInt " -12px" = Some (-12) /\ parseInt "+7" = Some 7
  /\ parseInt "abc" = None /\ parseInt "" = None /\ parseInt "-" = None.
Proof. repeat split; reflexivity. Qed.

Example parseInt_skips_unicode_space :
  (decodeURIComponent "%C2%A0%E2%80%8312" ≫= parseInt) = Some 12
  /\ (decodeURIComponent "%E2%80%8B12" ≫= parseInt) = None.
Proof. repeat split; reflexivity. Qed.

Example encodeURIComponent_example :
  encodeURIComponent ("Name: A&B" +:+ nl) = Some "Name%3A%20A%26B%0A"
  /\ encodeURIComponent lone_surrogate = None.
Proof. repeat split; reflexivity. Qed.

Example decodeURIComponent_examples :
  decodeURIComponent "%31" = Some "1" /\ decodeURIComponent "a%2Fb%20c" = Some "a/b c"
  /\ decodeURIComponent "1%zz" = None /\ decodeURIComponent "%" = None
  /\ decodeURIComponent "%E9" = None /\ decodeURIComponent "%C0%80" = None
  /\ (decodeURIComponent "%C3%A9" ≫= encodeURIComponent) = Some "%C3%A9".
Proof. repeat split; reflexivity. Qed.

Example Number_toString_examples :
  Number_toString 0 = "0" /\ Number_toString (-7) = "-7"
  /\ Number_toString 9007199254740993 = "9007199254740992"
  /\ Number_toString (2 ^ 60) = "1152921504606847000"
  /\ Number_toString (2 ^ 64) = "18446744073709552000"
  /\ Number_toString (10 ^ 21) = "1e+21"
  /\ Number_toString (2 ^ 70) = "1.1805916207174113e+21"
  /\ Number_toString (10 ^ 23) = "1e+23"
  /\ Number_toString (2 ^ 1024) = "Infinity".
Proof. vm_compute. repeat split; reflexivity. Qed.

Example ToString_examples :
  ToString (VArr [VNum 1; VNull; VArr [VStr "a"; VStr "b"]; VObj []])
  = Some "1,,a,b,[object Object]"
  /\ ToString (VObj [("toString", VNum 1)]) = None
  /\ ToString (VArr [VObj [("toString", VNum 1)]]) = None.
Proof. repeat split; reflexivity. Qed.

(** Routes are matched without regard to case and with one slash behind
    them; the [:id] is decoded. *)
Example route_examples :
  route "/api/settings" "/API/Settings/" = true
  /\ route "/api/settings" "/api/settings//" = false
  /\ route "/api/settings" "/api/%73ettings" = false
  /\ carousel_id_param "/api/Carousel/12/" = Some "12"
  /\ carousel_id_param "/api/carousel/%31" = Some "1"
  /\ carousel_id_param "/api/carousel/1/2" = None
  /\ carousel_id_param "/api/carousel/" = None.
Proof. repeat split; reflexivity. Qed.

(** DELETE /api/carousel/%31 deletes image 1; a broken escape is answered
    by Express, before the session is looked at and whatever the method. *)
Example remove_by_escaped_id :
  fst (handle calm (admin_delete "%31") world_with_banner) = Val deletion_processed
  /\ carousel_images (db (snd (handle calm (admin_delete "%31") world_with_banner))) = []
  /\ handle calm (admin_delete "1%zz") world_with_banner
     = (Val bad_request, world_with_banner)
  /\ handle calm {| req_method := DELETE; originalUrl := "/api/carousel/1%zz";
                    session := None; body := VObj []; upload := None |}
            world_with_banner
     = (Val bad_request, world_with_banner)
  /\ handle calm {| req_method := GET; originalUrl := "/api/carousel/1%zz";
                    session := None; body := VObj []; upload := None |}
            world_with_banner
     = (Val bad_request, world_with_banner)
  /\ handle calm {| req_method := GET; originalUrl := "/api/carousel/1";
                    session := None; body := VObj []; upload := None |}
            world_with_banner
     = (Val no_route, world_with_banner).
Proof. vm_compute. repeat split; reflexivity. Qed.

(** A user name that cannot be converted: the line that logs the refusal
    throws inside the [try]. *)
Example login_with_unprintable_name :
  fst (handle calm (login_request (Some visitor_session)
                      (VObj [("toString", VNum 1)]) (VStr "guess"))
              world_with_admin)
  = Val (res_redirect "/login.html?error=Server+error").
Proof. reflexivity. Qed.

(** Reading settings whose JSON values are malformed, empty or NULL. *)
Example getAll_on_malformed :
  exists obj,
    fst (handle calm get_settings_request world_with_malformed_settings)
    = Val (res_json 200 (VObj obj))
    /\ assoc "facilityCards" obj = Some (VArr [])
    /\ assoc "heroGradient" obj = Some (VObj [])
    /\ assoc "socialLinks" obj = Some (VObj [])
    /\ assoc "contactGradient" obj = Some (VObj [])
    /\ assoc "aboutGradient" obj = Some (VArr [VNum 10; VNum 20])
    /\ assoc "schoolName" obj = Some (VStr "Hill School").
Proof. eexists. vm_compute. repeat split; reflexivity. Qed.

(** The second upsert of a bulk save fails: nothing is stored. *)
Example setMany_second_upsert_fails :
  let out := handle (with_fault 3 connection_reset calm)
                    (admin_post_settings sample_settings) empty_world in
  fst out = Val settings_failed
  /\ db (snd out) = db empty_world
  /\ List.length (trace (snd out)) = 6%nat.
Proof. vm_compute. repeat split; reflexivity. Qed.

Example setMany_succeeds :
  let out := handle calm (admin_post_settings sample_settings) empty_world in
  fst out = Val settings_saved
  /\ settings (db (snd out)) !! "schoolName" = Some (Some "Hill School")
  /\ settings (db (snd out)) !! "heroGradient" = Some (Some "")
  /\ settings (db (snd out)) !! "facilityCards"
     = Some (Some (Json.stringify (VArr [VObj [("title", VStr "Library")]]))).
Proof. vm_compute. repeat split; reflexivity. Qed.

(** Three uploads, the listing, and the listing after the deletion of the
    second image. *)
Example carousel_walkthrough :
  let listed w := List.map (fun r => (id r, file_name r, display_order r))
                           (Sql.select_carousel (db w)) in
  listed world_with_three_images
  = [(1, Some "a.jpg", Some 1); (2, Some "b.jpg", Some 2); (3, Some "c.jpg", Some 3)]
  /\ listed (snd (handle calm (admin_delete "2") world_with_three_images))
     = [(1, Some "a.jpg", Some 1); (3, Some "c.jpg", Some 3)]
  /\ fst (handle calm (admin_delete "2") world_with_three_images)
     = Val deletion_processed
  /\ fst (handle calm (admin_delete "7") world_with_three_images)
     = Val (res_json 404 (VObj [("error", VStr "Image not found in database.")])).
Proof. vm_compute. repeat split; reflexivity. Qed.

(** The earlier revision on the same blob failure: rollback and 500. *)
Example remove_rolls_back_in_part_000 :
  let out := delete_carousel_rethrow (with_fault 4 service_unavailable calm) "1"
                                     world_with_banner in
  fst out = Val (deletion_failed service_unavailable)
  /\ carousel_images (db (snd out)) = [banner].
Proof. vm_compute. repeat split; reflexivity. Qed.

(** A blob that is already gone does not stop the deletion in server.js;
    the earlier revision, which lets only an error with [status] 404 pass,
    rolls back on it: the error for a missing blob carries no status. *)
Example remove_tolerates_missing_blob :
  let w := set_blobs ∅ world_with_banner in
  let out := handle calm (admin_delete "1") w in
  fst out = Val deletion_processed /\ carousel_images (db (snd out)) = [].
Proof. vm_compute. repeat split; reflexivity. Qed.

Example missing_blob_in_part_000 :
  let w := set_blobs ∅ world_with_banner in
  let out := delete_carousel_rethrow calm "1" w in
  fst out = Val (deletion_failed BlobNotFound)
  /\ carousel_images (db (snd out)) = [banner].
Proof. vm_compute. repeat split; reflexivity. Qed.
